(** * ImportUsersTask: the tenant-scoped user import pass

    A shallow embedding of [ImportUsersTask.processTenant]
    (src/scheduler/tasks/ImportUsersTask.ts) and of the store, lock and
    logging interfaces it calls.  The task is asynchronous but strictly
    sequential (every call is awaited), so it is modelled as a state and
    exception monad over a [World] holding, per tenant, the staging
    collection and the user collection, and the lock table and the
    chronological list of the calls issued.

    Store and logging calls may throw: a fault oracle decides, from the
    position of the call in the history and from the call itself, whether
    it throws and with which message; a call that throws has no effect.
    The lock calls follow their contract and do not throw.

    The do-while loop runs on fuel; the task gives it one unit per staged
    record plus one, which is proved to be enough whatever faults.

    The properties come in two groups: those of one candidate's
    processing (the body of the [for] loop) and those of a whole run.

    The module [MjmlTemplate] embeds the placeholder functions of
    src/notification/email/mjml-template/MjmlTemplate.ts: [replace],
    [getContextSelectors], [getI18nSelectors], [prepareI18nSelectors],
    [splitSelector], [getValue] and the context loop of [resolve]. *)

From Stdlib Require Import String Ascii List Arith Bool Lia PeanoNat.
Import ListNotations.
Local Open Scope string_scope.
Local Open Scope list_scope.
Local Open Scope nat_scope.

(** ** Data model *)

Definition TenantID := string.

(** Modelled from the spec: types/GlobalType.ts is not part of the
    sources; a candidate's lifecycle status is the enum {READY, ERROR}. *)
Inductive ImportStatus : Type := READY | ERROR.

(** Modelled from the spec: types/User.ts is not part of the sources.
    The task names [UserStatus.PENDING] and [UserStatus.ACTIVE]; every
    other member of the enum is represented by [OTHER_STATUS]. *)
Inductive UserStatus : Type := PENDING | ACTIVE | OTHER_STATUS (code : string).

(** Modelled from the spec: types/User.ts is not part of the sources.
    The task names [UserRole.BASIC]; every other role is [OTHER_ROLE]. *)
Inductive UserRole : Type := BASIC | OTHER_ROLE (code : string).

(** [ImportedUser]: a staged candidate (the fields the task reads or writes). *)
Record ImportedUser : Type := mkImportedUser {
  iu_id : nat;
  iu_email : string;
  iu_name : string;
  iu_firstName : string;
  iu_status : ImportStatus;
  iu_errorDescription : option string;
  iu_importedBy : string;
  iu_importedOn : nat
}.

(** [User] / [Partial<User>]: a canonical entity.  [u_id] is absent on an
    object that has not been saved yet; [u_role] and [u_status] are the
    separately written sub-attributes and may be unset. *)
Record User : Type := mkUser {
  u_id : option nat;
  u_firstName : string;
  u_name : string;
  u_email : string;
  u_locale : option string;
  u_issuer : bool;
  u_deleted : bool;
  u_role : option UserRole;
  u_status : option UserStatus;
  u_createdBy : option string;
  u_createdOn : option nat;
  u_notificationsActive : bool
}.

Record Tenant : Type := mkTenant { tenant_id : TenantID }.

(** [ActionsResponse]: the two counters of the aggregate result. *)
Record ActionsResponse : Type := mkActionsResponse {
  inError : nat;
  inSuccess : nat
}.

Record DbParams : Type := mkDbParams { limit : nat; skip : nat }.

Record DataResult (A : Type) : Type := mkDataResult {
  count : nat;
  result : list A
}.
Arguments mkDataResult {A} _ _.
Arguments count {A} _.
Arguments result {A} _.

(** Modelled from the spec: locking/LockingHelper.ts is not part of the
    sources; a lock is keyed by (tenant identity, lock purpose). *)
Record Lock : Type := mkLock { lock_tenantID : TenantID; lock_purpose : string }.

Definition status_eqb (a b : ImportStatus) : bool :=
  match a, b with
  | READY, READY | ERROR, ERROR => true
  | _, _ => false
  end.

Definition lock_eqb (a b : Lock) : bool :=
  String.eqb (lock_tenantID a) (lock_tenantID b)
  && String.eqb (lock_purpose a) (lock_purpose b).

(** [foundUser.status !== UserStatus.PENDING] *)
Definition notPending (s : option UserStatus) : bool :=
  match s with
  | Some PENDING => false
  | _ => true
  end.

(** ** Calls and the world *)

(** One constructor per call the task issues, with its arguments. *)
Inductive Op : Type :=
| CreateImportUsersLock (l : Lock)
| Release (l : Lock)
| GetImportedUsersCount (t : TenantID)
| LogInfo (t : TenantID) (total : nat)
| GetImportedUsers (t : TenantID) (status : ImportStatus) (p : DbParams)
| GetUserByEmail (t : TenantID) (email : string)
| SaveUser (t : TenantID) (u : User)
| SaveUserRole (t : TenantID) (id : nat) (r : UserRole)
| SaveUserStatus (t : TenantID) (id : nat) (s : UserStatus)
| DeleteImportedUser (t : TenantID) (id : nat)
| SaveImportedUser (t : TenantID) (iu : ImportedUser)
| LogError (t : TenantID) (message : string)
| LogDebug (t : TenantID) (processed total : nat)
| LogActionsResponse (t : TenantID) (r : ActionsResponse)
| LogActionExceptionMessage (t : TenantID) (message : string).

(** The page fetch. *)
Definition isFetch (op : Op) : bool :=
  match op with GetImportedUsers _ _ _ => true | _ => false end.

(** The calls of one candidate's merge: lookup, persist, delete. *)
Definition isMergeOp (op : Op) : bool :=
  match op with
  | GetUserByEmail _ _ | SaveUser _ _ | SaveUserRole _ _ _
  | SaveUserStatus _ _ _ | DeleteImportedUser _ _ => true
  | _ => false
  end.

(** The calls that write to the staging or the canonical store. *)
Definition isWrite (op : Op) : bool :=
  match op with
  | SaveUser _ _ | SaveUserRole _ _ _ | SaveUserStatus _ _ _
  | DeleteImportedUser _ _ | SaveImportedUser _ _ => true
  | _ => false
  end.

(** The calls that record one candidate's error. *)
Definition isRecordError (op : Op) : bool :=
  match op with
  | SaveImportedUser _ _ | LogError _ _ => true
  | _ => false
  end.

Definition lookupOf (op : Op) : list string :=
  match op with GetUserByEmail _ e => [e] | _ => [] end.

(** The correlation keys looked up, in call order: one per merge attempt. *)
Definition lookups (tr : list Op) : list string := flat_map lookupOf tr.

(** The number of page fetches issued. *)
Definition fetches (tr : list Op) : nat := length (filter isFetch tr).

Record World : Type := mkWorld {
  importedusers : TenantID -> list ImportedUser;  (* staging, insertion order *)
  users : TenantID -> list User;                  (* canonical store *)
  locks : list Lock;                              (* locks currently held *)
  trace : list Op                                 (* calls issued, oldest first *)
}.

Definition upd {A : Type} (f : TenantID -> A) (t : TenantID) (v : A) : TenantID -> A :=
  fun t' => if String.eqb t' t then v else f t'.

Definition setImportedUsers (t : TenantID) (l : list ImportedUser) (w : World) : World :=
  mkWorld (upd (importedusers w) t l) (users w) (locks w) (trace w).

Definition setUsers (t : TenantID) (l : list User) (w : World) : World :=
  mkWorld (importedusers w) (upd (users w) t l) (locks w) (trace w).

Definition setLocks (l : list Lock) (w : World) : World :=
  mkWorld (importedusers w) (users w) l (trace w).

Definition record (op : Op) (w : World) : World :=
  mkWorld (importedusers w) (users w) (locks w) (trace w ++ [op]).

(** ** The monad: state, exceptions, and fuel for the do-while loop *)

Inductive Res (A : Type) : Type :=
| Ok (a : A)
| Throw (message : string)
| Diverge.
Arguments Ok {A} _.
Arguments Throw {A} _.
Arguments Diverge {A}.

Definition M (A : Type) : Type := World -> Res A * World.

Definition ret {A : Type} (a : A) : M A := fun w => (Ok a, w).

Definition throw {A : Type} (message : string) : M A := fun w => (Throw message, w).

Definition bind {A B : Type} (c : M A) (k : A -> M B) : M B :=
  fun w =>
    match c w with
    | (Ok a, w1) => k a w1
    | (Throw e, w1) => (Throw e, w1)
    | (Diverge, w1) => (Diverge, w1)
    end.

(** [try { c } catch (error) { h error }] *)
Definition try_catch {A : Type} (c : M A) (h : string -> M A) : M A :=
  fun w =>
    match c w with
    | (Throw e, w1) => h e w1
    | r => r
    end.

(** [try { c } finally { fin }]: [fin] runs on normal return and on a
    fault alike; a fault of [fin] itself replaces the outcome. *)
Definition try_finally {A B : Type} (c : M A) (fin : M B) : M A :=
  fun w =>
    match c w with
    | (Diverge, w1) => (Diverge, w1)
    | (r, w1) =>
        match fin w1 with
        | (Ok _, w2) => (r, w2)
        | (Throw e, w2) => (Throw e, w2)
        | (Diverge, w2) => (Diverge, w2)
        end
    end.

Notation "x <- c1 ;; c2" := (bind c1 (fun x => c2))
  (at level 61, c1 at next level, right associativity).
Notation "c1 ;; c2" := (bind c1 (fun _ => c2))
  (at level 61, right associativity).

(** ** Pure store operations *)

(** The filter [{ status: ImportStatus.READY }]. *)
Definition isReady (iu : ImportedUser) : bool := status_eqb (iu_status iu) READY.

(** The candidates a READY query selects, in insertion order. *)
Definition readyOf (l : list ImportedUser) : list ImportedUser := filter isReady l.

(** Modelled from the spec: UserStorage.deleteImportedUser is not part
    of the sources; [delete(tenantID, recordID)] removes the record with
    that id. *)
Definition deleteById (id : nat) (l : list ImportedUser) : list ImportedUser :=
  filter (fun x => negb (Nat.eqb (iu_id x) id)) l.

(** Modelled from the spec: UserStorage.saveImportedUser is not part of
    the sources; [upsertWithError(tenantID, record)] replaces the stored
    record with that id, or inserts the record at the end. *)
Definition upsertImported (iu : ImportedUser) (l : list ImportedUser) : list ImportedUser :=
  if existsb (fun x => Nat.eqb (iu_id x) (iu_id iu)) l
  then map (fun x => if Nat.eqb (iu_id x) (iu_id iu) then iu else x) l
  else l ++ [iu].

(** Canonical entities are addressed by id; a fresh id is one above the
    largest id in use. *)
Definition hasId (id : nat) (u : User) : bool :=
  match u_id u with
  | Some i => Nat.eqb i id
  | None => false
  end.

Definition idOf (u : User) : nat :=
  match u_id u with Some i => i | None => 0 end.

Definition freshId (us : list User) : nat := S (list_max (map idOf us)).

Definition withId (i : nat) (u : User) : User :=
  mkUser (Some i) (u_firstName u) (u_name u) (u_email u) (u_locale u) (u_issuer u)
         (u_deleted u) (u_role u) (u_status u) (u_createdBy u) (u_createdOn u)
         (u_notificationsActive u).

Definition withRole (r : option UserRole) (u : User) : User :=
  mkUser (u_id u) (u_firstName u) (u_name u) (u_email u) (u_locale u) (u_issuer u)
         (u_deleted u) r (u_status u) (u_createdBy u) (u_createdOn u)
         (u_notificationsActive u).

Definition withStatus (s : option UserStatus) (u : User) : User :=
  mkUser (u_id u) (u_firstName u) (u_name u) (u_email u) (u_locale u) (u_issuer u)
         (u_deleted u) (u_role u) s (u_createdBy u) (u_createdOn u)
         (u_notificationsActive u).

(** [foundUser.name = ...; foundUser.firstName = ...] *)
Definition withNames (name firstName : string) (u : User) : User :=
  mkUser (u_id u) firstName name (u_email u) (u_locale u) (u_issuer u)
         (u_deleted u) (u_role u) (u_status u) (u_createdBy u) (u_createdOn u)
         (u_notificationsActive u).

(** Modelled from the spec: storage/mongodb/UserStorage.ts is not part of
    the sources.  [saveUser] writes the entity document and returns its
    id; role and status are distinct sub-resources that it does not write
    ("Role need to be set separately", "Status need to be set
    separately"): a new entity starts with both unset, an existing one
    keeps the stored ones. *)
Definition saveUserStore (u : User) (us : list User) : nat * list User :=
  match u_id u with
  | Some i =>
      if existsb (hasId i) us
      then (i, map (fun x => if hasId i x
                             then withRole (u_role x) (withStatus (u_status x) u)
                             else x) us)
      else (i, us ++ [withRole None (withStatus None u)])
  | None =>
      let i := freshId us in
      (i, us ++ [withId i (withRole None (withStatus None u))])
  end.

(** Modelled from the spec: UserStorage.saveUserRole is not part of the
    sources; [setSubAttribute] writes the role of the entity with that id. *)
Definition setRoleStore (id : nat) (r : UserRole) (us : list User) : list User :=
  map (fun x => if hasId id x then withRole (Some r) x else x) us.

(** Modelled from the spec: UserStorage.saveUserStatus is not part of
    the sources; [setSubAttribute] writes the status of the entity with
    that id. *)
Definition setStatusStore (id : nat) (s : UserStatus) (us : list User) : list User :=
  map (fun x => if hasId id x then withStatus (Some s) x else x) us.

(** Modelled from the spec: UserStorage.getUserByEmail is not part of
    the sources; [findByKey] returns the first entity with that email,
    tombstoned or not (the task checks [deleted] itself). *)
Definition findByEmail (email : string) (us : list User) : option User :=
  find (fun x => String.eqb (u_email x) email) us.

(** Modelled from the spec: the lock store is not part of the sources;
    a lock is held when the table has an entry with its key. *)
Definition held (l : Lock) (ls : list Lock) : bool := existsb (lock_eqb l) ls.

(** [importedUser.status = ImportStatus.ERROR;
    importedUser.errorDescription = error.message] *)
Definition markError (iu : ImportedUser) (message : string) : ImportedUser :=
  mkImportedUser (iu_id iu) (iu_email iu) (iu_name iu) (iu_firstName iu)
                 ERROR (Some message) (iu_importedBy iu) (iu_importedOn iu).

(** [result.inSuccess++] *)
Definition incSuccess (r : ActionsResponse) : ActionsResponse :=
  mkActionsResponse (inError r) (S (inSuccess r)).

(** [result.inError++] *)
Definition incError (r : ActionsResponse) : ActionsResponse :=
  mkActionsResponse (S (inError r)) (inSuccess r).

(** The entity the create path builds from a candidate. *)
Definition newUser (importedUser : ImportedUser) : User :=
  {| u_id := None;
     u_firstName := iu_firstName importedUser;
     u_name := iu_name importedUser;
     u_email := iu_email importedUser;
     u_locale := None;
     u_issuer := true;
     u_deleted := false;
     u_role := Some BASIC;
     u_status := Some ACTIVE;
     u_createdBy := Some (iu_importedBy importedUser);
     u_createdOn := Some (iu_importedOn importedUser);
     u_notificationsActive := true |}.

(** The message of the per-candidate error log (line 102). *)
Definition errorLogMessage (importedUser : ImportedUser) (error : string) : string :=
  ("Error when importing User with email '" ++ iu_email importedUser
   ++ "': " ++ error)%string.

Section Task.

(** [Constants.IMPORT_PAGE_SIZE]; utils/Constants.ts is not part of the
    sources, so the page size is a parameter. *)
Variable IMPORT_PAGE_SIZE : nat.

(** The fault oracle: [faults n op = Some m] when the call [op], issued
    as the [n]-th call of the world's history, throws an error with
    message [m] instead of taking effect. *)
Variable faults : nat -> Op -> option string.

(** A store or logging call: recorded, then it either throws or acts. *)
Definition io {A : Type} (op : Op) (act : World -> A * World) : M A :=
  fun w =>
    match faults (length (trace w)) op with
    | Some message => (Throw message, record op w)
    | None => let (a, w') := act (record op w) in (Ok a, w')
    end.

(** ** Lock coordinator *)

(** Modelled from the spec: locking/LockingHelper.ts is not part of the
    sources.  [acquire(tenantID, "import")] returns the lock, or nothing
    (no error) when it is already held. *)
Definition createImportUsersLock (tenantID : TenantID) : M (option Lock) :=
  fun w =>
    let l := mkLock tenantID "import" in
    let w1 := record (CreateImportUsersLock l) w in
    if held l (locks w1) then (Ok None, w1)
    else (Ok (Some l), setLocks (l :: locks w1) w1).

(** Modelled from the spec: locking/LockingManager.ts is not part of the
    sources.  [release(lock)] idempotently releases a held lock and must
    succeed. *)
Definition release (l : Lock) : M unit :=
  fun w =>
    let w1 := record (Release l) w in
    (Ok tt, setLocks (filter (fun x => negb (lock_eqb l x)) (locks w1)) w1).

(** ** Staging store *)

(** Modelled from the spec: UserStorage.getImportedUsersCount is not part
    of the sources; the task passes no filter, so it counts every staged
    record of the tenant. *)
Definition getImportedUsersCount (t : TenantID) : M nat :=
  io (GetImportedUsersCount t) (fun w => (length (importedusers w t), w)).

(** Modelled from the spec: UserStorage.getImportedUsers is not part of
    the sources; [page(tenantID, filter, limit, offset)] returns, in
    insertion order, at most [limit] of the records with the given status
    after skipping [skip] of them. *)
Definition getImportedUsers (t : TenantID) (status : ImportStatus) (p : DbParams)
  : M (DataResult ImportedUser) :=
  io (GetImportedUsers t status p)
     (fun w =>
        let matching := filter (fun x => status_eqb (iu_status x) status) (importedusers w t) in
        (mkDataResult (length matching) (firstn (limit p) (skipn (skip p) matching)), w)).

(** Modelled from the spec: UserStorage.deleteImportedUser (see [deleteById]). *)
Definition deleteImportedUser (t : TenantID) (id : nat) : M unit :=
  io (DeleteImportedUser t id)
     (fun w => (tt, setImportedUsers t (deleteById id (importedusers w t)) w)).

(** Modelled from the spec: UserStorage.saveImportedUser (see [upsertImported]). *)
Definition saveImportedUser (t : TenantID) (iu : ImportedUser) : M unit :=
  io (SaveImportedUser t iu)
     (fun w => (tt, setImportedUsers t (upsertImported iu (importedusers w t)) w)).

(** ** Canonical store *)

(** Modelled from the spec: UserStorage.getUserByEmail (see [findByEmail]). *)
Definition getUserByEmail (t : TenantID) (email : string) : M (option User) :=
  io (GetUserByEmail t email) (fun w => (findByEmail email (users w t), w)).

(** Modelled from the spec: UserStorage.saveUser (see [saveUserStore]). *)
Definition saveUser (t : TenantID) (u : User) : M nat :=
  io (SaveUser t u)
     (fun w => let (i, us) := saveUserStore u (users w t) in (i, setUsers t us w)).

(** Modelled from the spec: UserStorage.saveUserRole (see [setRoleStore]). *)
Definition saveUserRole (t : TenantID) (id : nat) (r : UserRole) : M unit :=
  io (SaveUserRole t id r) (fun w => (tt, setUsers t (setRoleStore id r (users w t)) w)).

(** Modelled from the spec: UserStorage.saveUserStatus (see [setStatusStore]). *)
Definition saveUserStatus (t : TenantID) (id : nat) (s : UserStatus) : M unit :=
  io (SaveUserStatus t id s) (fun w => (tt, setUsers t (setStatusStore id s (users w t)) w)).

(** ** Logging *)

(** Modelled from the spec: utils/Logging.ts is not part of the sources;
    a log call is recorded with what it reports and may throw, and has no
    other effect.  Wall-clock durations are left out of the messages. *)
Definition logInfo (t : TenantID) (total : nat) : M unit :=
  io (LogInfo t total) (fun w => (tt, w)).

(** Modelled from the spec: utils/Logging.ts (see [logInfo]). *)
Definition logError (t : TenantID) (message : string) : M unit :=
  io (LogError t message) (fun w => (tt, w)).

(** Modelled from the spec: utils/Logging.ts (see [logInfo]). *)
Definition logDebug (t : TenantID) (processed total : nat) : M unit :=
  io (LogDebug t processed total) (fun w => (tt, w)).

(** Modelled from the spec: utils/Logging.ts (see [logInfo]). *)
Definition logActionsResponse (t : TenantID) (r : ActionsResponse) : M unit :=
  io (LogActionsResponse t r) (fun w => (tt, w)).

(** Modelled from the spec: utils/Logging.ts (see [logInfo]). *)
Definition logActionExceptionMessage (t : TenantID) (message : string) : M unit :=
  io (LogActionExceptionMessage t message) (fun w => (tt, w)).

(** ** The task *)

(** The [try] block of the [for] loop body (lines 46-90): one
    candidate's merge decision.  [res] is the running [result] object. *)
Definition mergeDecision (tenant : Tenant) (importedUser : ImportedUser)
  (res : ActionsResponse) : M ActionsResponse :=
  foundUser <- getUserByEmail (tenant_id tenant) (iu_email importedUser) ;;
  match foundUser with
  | Some foundUser =>
      if negb (u_issuer foundUser) then throw "User is not local to the organization"
      else if u_deleted foundUser then throw "User is deleted"
      else if notPending (u_status foundUser) then throw "User account is no longer pending"
      else
        saveUser (tenant_id tenant)
                 (withNames (iu_name importedUser) (iu_firstName importedUser) foundUser) ;;
        deleteImportedUser (tenant_id tenant) (iu_id importedUser) ;;
        ret (incSuccess res)
  | None =>
      id <- saveUser (tenant_id tenant) (newUser importedUser) ;;
      saveUserRole (tenant_id tenant) id BASIC ;;
      saveUserStatus (tenant_id tenant) id ACTIVE ;;
      deleteImportedUser (tenant_id tenant) (iu_id importedUser) ;;
      ret (incSuccess res)
  end.

(** The [catch] block of the [for] loop body (lines 92-104). *)
Definition recordError (tenant : Tenant) (importedUser : ImportedUser)
  (res : ActionsResponse) (error : string) : M ActionsResponse :=
  let importedUser := markError importedUser error in
  let res := incError res in
  saveImportedUser (tenant_id tenant) importedUser ;;
  logError (tenant_id tenant) (errorLogMessage importedUser error) ;;
  ret res.

(** The body of the [for] loop (lines 45-105). *)
Definition importOne (tenant : Tenant) (importedUser : ImportedUser)
  (res : ActionsResponse) : M ActionsResponse :=
  try_catch (mergeDecision tenant importedUser res)
            (recordError tenant importedUser res).

(** [for (const importedUser of importedUsers.result) { ... }] *)
Fixpoint forEach (tenant : Tenant) (page : list ImportedUser) (res : ActionsResponse)
  : M ActionsResponse :=
  match page with
  | [] => ret res
  | importedUser :: rest =>
      res' <- importOne tenant importedUser res ;;
      forEach tenant rest res'
  end.

(** Modelled from the spec: utils/Utils.ts is not part of the sources;
    [Utils.isEmptyArray] tells whether the array has no element. *)
Definition isEmptyArray {A : Type} (l : list A) : bool :=
  match l with [] => true | _ => false end.

(** The [do { ... } while (!Utils.isEmptyArray(importedUsers?.result))]
    loop (lines 41-117).  [fuel] bounds the number of iterations;
    running out of it is [Diverge]. *)
Fixpoint doWhile (fuel : nat) (tenant : Tenant) (dbParams : DbParams)
  (totalUsersToImport : nat) (res : ActionsResponse) : M ActionsResponse :=
  match fuel with
  | 0 => fun w => (Diverge, w)
  | S fuel' =>
      importedUsers <- getImportedUsers (tenant_id tenant) READY dbParams ;;
      res' <- forEach tenant (result importedUsers) res ;;
      (if (0 <? length (result importedUsers)) && (0 <? inError res' + inSuccess res')
       then logDebug (tenant_id tenant) (inError res' + inSuccess res') totalUsersToImport
       else ret tt) ;;
      if negb (isEmptyArray (result importedUsers))
      then doWhile fuel' tenant dbParams totalUsersToImport res'
      else ret res'
  end.

(** The [try] block (lines 24-125).  The loop is given one unit of fuel
    per staged record plus one: [doWhile_terminates] shows this is
    always enough, [doWhile_fuel_mono] that more changes nothing. *)
Definition importUsers (tenant : Tenant) : M unit :=
  let dbParams := mkDbParams IMPORT_PAGE_SIZE 0 in
  let res := mkActionsResponse 0 0 in
  totalUsersToImport <- getImportedUsersCount (tenant_id tenant) ;;
  (if 0 <? totalUsersToImport
   then logInfo (tenant_id tenant) totalUsersToImport
   else ret tt) ;;
  res' <- (fun w => doWhile (S (length (importedusers w (tenant_id tenant))))
                            tenant dbParams totalUsersToImport res w) ;;
  logActionsResponse (tenant_id tenant) res'.

(** [ImportUsersTask.processTenant] (the unused [config] is omitted). *)
Definition processTenant (tenant : Tenant) : M unit :=
  importUsersLock <- createImportUsersLock (tenant_id tenant) ;;
  match importUsersLock with
  | Some importUsersLock =>
      try_finally
        (try_catch (importUsers tenant)
                   (fun error => logActionExceptionMessage (tenant_id tenant) error))
        (release importUsersLock)
  | None => ret tt
  end.

End Task.

(** ** Vocabulary of the properties *)

(** The lock a run of the task competes for. *)
Definition importLock (t : Tenant) : Lock := mkLock (tenant_id t) "import".

(** *** Assumptions on the fault oracle *)

(** Faults are confined to the merge calls: page fetches, the recording
    of errors and every log call succeed. *)
Definition confined (faults : nat -> Op -> option string) : Prop :=
  forall n op, isMergeOp op = false -> faults n op = None.

(** No merge call (lookup, persist, delete) faults. *)
Definition mergesCleanly (faults : nat -> Op -> option string) : Prop :=
  forall n op, isMergeOp op = true -> faults n op = None.

(** No call recording a candidate's error faults. *)
Definition recordsErrors (faults : nat -> Op -> option string) : Prop :=
  forall n op, isRecordError op = true -> faults n op = None.

(** *** Classes of calls *)

(** The calls a candidate's processing may issue after its lookup. *)
Definition isAfterLookup (op : Op) : bool :=
  match op with
  | SaveUser _ _ | SaveUserRole _ _ _ | SaveUserStatus _ _ _
  | DeleteImportedUser _ _ | SaveImportedUser _ _ | LogError _ _ => true
  | _ => false
  end.

Definition isLogDebug (op : Op) : bool :=
  match op with LogDebug _ _ _ => true | _ => false end.

(** The calls of the [for] loop body. *)
Definition isPerRecord (op : Op) : bool := isMergeOp op || isRecordError op.

(** The calls of the do-while loop. *)
Definition isLoopOp (op : Op) : bool := isFetch op || isPerRecord op || isLogDebug op.

Definition isLockOp (op : Op) : bool :=
  match op with CreateImportUsersLock _ | Release _ => true | _ => false end.

(** The calls of the [try] block: anything but the lock calls. *)
Definition isPassOp (op : Op) : bool := negb (isLockOp op).

(** Neither a merge call nor a store write. *)
Definition isIdle (op : Op) : bool := negb (isMergeOp op) && negb (isWrite op).

(** *** Predicates on computations *)

(** [c] leaves the lock table alone and issues only calls satisfying [P]. *)
Definition issues {A : Type} (P : Op -> bool) (c : M A) : Prop :=
  forall w out w', c w = (out, w') ->
    locks w' = locks w /\
    exists evs, trace w' = trace w ++ evs /\ forallb P evs = true.

(** [c] always returns or throws. *)
Definition terminates {A : Type} (c : M A) : Prop :=
  forall w out w', c w = (out, w') -> out <> Diverge.

(** In every run of [c], a page fetch that faults is the last call [c]
    issues, and [c] throws that fault. *)
Definition fetchFaultAborts (faults : nat -> Op -> option string) {A : Type} (c : M A)
  : Prop :=
  forall w out w', c w = (out, w') ->
    exists evs, trace w' = trace w ++ evs /\
      forall i op m,
        nth_error evs i = Some op -> isFetch op = true ->
        faults (length (trace w) + i) op = Some m ->
        out = Throw m /\ S i = length evs.

(** *** Expected results *)

(** The number of non-empty pages needed to drain [n] records. *)
Definition pageCount (pageSize n : nat) : nat := (n + pageSize - 1) / pageSize.

(** The entity a completed create path leaves in the canonical store. *)
Definition createdUser (id : nat) (importedUser : ImportedUser) : User :=
  mkUser (Some id) (iu_firstName importedUser) (iu_name importedUser)
         (iu_email importedUser) None true false (Some BASIC) (Some ACTIVE)
         (Some (iu_importedBy importedUser)) (Some (iu_importedOn importedUser)) true.

(** The message of the update path's precondition check (lines 50-58). *)
Definition rejection (foundUser : User) : string :=
  if negb (u_issuer foundUser) then "User is not local to the organization"
  else if u_deleted foundUser then "User is deleted"
  else "User account is no longer pending".

(** ** Concrete worlds and fault oracles *)

Definition tenantT : Tenant := mkTenant "T".

Definition noFaults : nat -> Op -> option string := fun _ _ => None.

Definition alice : ImportedUser :=
  mkImportedUser 1 "a@x.com" "Martin" "Alice" READY None "admin" 1000.

Definition bob : ImportedUser :=
  mkImportedUser 2 "b@x.com" "Durand" "Bob" READY None "admin" 1001.

Definition carol : ImportedUser :=
  mkImportedUser 3 "c@x.com" "Petit" "Carol" READY None "admin" 1002.

(** An invited, not yet confirmed account with alice's email. *)
Definition pendingAlice : User :=
  mkUser (Some 7) "A." "Martin (invited)" "a@x.com" (Some "fr_FR") true false
         (Some BASIC) (Some PENDING) (Some "admin") (Some 900) true.

(** An account with alice's email that is already active. *)
Definition activeAlice : User :=
  mkUser (Some 7) "Alice" "Martin" "a@x.com" (Some "fr_FR") true false
         (Some BASIC) (Some ACTIVE) (Some "admin") (Some 900) true.

(** The entity a create path leaves when it stops before the role write. *)
Definition partialAlice : User :=
  mkUser (Some 1) "Alice" "Martin" "a@x.com" None true false None None
         (Some "admin") (Some 1000) true.

(** A world where only tenant "T" has data and no lock is held. *)
Definition world (staged : list ImportedUser) (us : list User) : World :=
  mkWorld (upd (fun _ => []) "T" staged) (upd (fun _ => []) "T" us) [] [].

(** The same world while another run holds the import lock of "T". *)
Definition lockedWorld (staged : list ImportedUser) (us : list User) : World :=
  setLocks [mkLock "T" "import"] (world staged us).

(** Every lookup faults. *)
Definition lookupFaults : nat -> Op -> option string :=
  fun _ op =>
    match op with
    | GetUserByEmail _ _ => Some "lookup failed"
    | _ => None
    end.

(** Every lookup faults, and so does the write recording the error. *)
Definition lookupAndRecordFaults : nat -> Op -> option string :=
  fun _ op =>
    match op with
    | GetUserByEmail _ _ => Some "lookup failed"
    | SaveImportedUser _ _ => Some "staging write failed"
    | _ => None
    end.

(** Every page fetch issued after the first four calls faults. *)
Definition laterFetchFaults : nat -> Op -> option string :=
  fun n op =>
    match op with
    | GetImportedUsers _ _ _ => if 4 <=? n then Some "connection lost" else None
    | _ => None
    end.

(** The role write faults during the first ten calls only. *)
Definition roleFaultsOnce : nat -> Op -> option string :=
  fun n op =>
    match op with
    | SaveUserRole _ _ _ => if n <? 10 then Some "role write failed" else None
    | _ => None
    end.

(** ** Vocabulary of the frame properties *)

(** [c] keeps the invariant [Inv] of the world. *)
Definition keeps {A : Type} (Inv : World -> Prop) (c : M A) : Prop :=
  forall w out w', Inv w -> c w = (out, w') -> Inv w'.

(** In every run of [c], a faulting call that satisfies [P] is the last
    call [c] issues, and [c] throws that fault. *)
Definition faultAborts (faults : nat -> Op -> option string) (P : Op -> bool)
  {A : Type} (c : M A) : Prop :=
  forall w out w', c w = (out, w') ->
    exists evs, trace w' = trace w ++ evs /\
      forall i op m,
        nth_error evs i = Some op -> P op = true ->
        faults (length (trace w) + i) op = Some m ->
        out = Throw m /\ S i = length evs.

(** The calls of the pass that no inner handler protects: all of them
    but the merge calls. *)
Definition isUnprotected (op : Op) : bool :=
  match op with
  | GetImportedUsersCount _ | LogInfo _ _ | GetImportedUsers _ _ _
  | SaveImportedUser _ _ | LogError _ _ | LogDebug _ _ _
  | LogActionsResponse _ _ => true
  | _ => false
  end.

(** The final report of a pass. *)
Definition isReport (op : Op) : bool :=
  match op with LogActionsResponse _ _ => true | _ => false end.

(** The canonical collection as the store keeps it: every entity has an
    id and no two entities share one. *)
Definition wellFormedUsers (us : list User) : Prop :=
  NoDup (map u_id us) /\ Forall (fun u => u_id u <> None) us.

(** The entities the update path accepts (lines 50-58). *)
Definition eligible (u : User) : Prop :=
  u_issuer u = true /\ u_deleted u = false /\ u_status u = Some PENDING.

(** [y] is [x], or [x] was eligible and [y] is [x] under other names. *)
Definition renamed (x y : User) : Prop :=
  y = x \/ (eligible x /\ y = withNames (u_name y) (u_firstName y) x).

(** A staged record [y] is a record of [l], or a READY record of [l]
    marked ERROR. *)
Definition keptOrMarked (l : list ImportedUser) (y : ImportedUser) : Prop :=
  In y l \/ exists x m, In x l /\ iu_status x = READY /\ y = markError x m.

(** [us] keeps the entities of [us0], in place and possibly renamed, and
    appends entities after them. *)
Definition extendsUsers (us0 us : list User) : Prop :=
  exists kept added, us = kept ++ added /\ Forall2 renamed us0 kept.

(** The entity [u] is built from the staged record [x] as the create
    path builds it (lines 69-87), with the role and the status written
    or not yet. *)
Definition importedFrom (x : ImportedUser) (u : User) : Prop :=
  u_email u = iu_email x /\ u_name u = iu_name x /\ u_firstName u = iu_firstName x /\
  u_issuer u = true /\ u_deleted u = false /\
  (u_role u = None \/ u_role u = Some BASIC) /\
  (u_status u = None \/ u_status u = Some ACTIVE) /\
  u_createdBy u = Some (iu_importedBy x) /\ u_createdOn u = Some (iu_importedOn x).

(** ** Further concrete worlds *)

(** A world where tenant "U" has data beside tenant "T". *)
Definition twoTenantWorld : World :=
  setUsers "U" [activeAlice] (setImportedUsers "U" [carol] (world [alice; bob] [])).

(** bob's record as a failed earlier run left it. *)
Definition failedBob : ImportedUser := markError bob "User is deleted".

(** A second staged record with alice's e-mail address. *)
Definition aliceAgain : ImportedUser :=
  mkImportedUser 4 "a@x.com" "Martin" "Alice" READY None "admin" 1003.

(** Every lookup of bob's e-mail address faults. *)
Definition bobLookupFaults : nat -> Op -> option string :=
  fun _ op =>
    match op with
    | GetUserByEmail _ email =>
        if String.eqb email "b@x.com" then Some "lookup failed" else None
    | _ => None
    end.

(** * MjmlTemplate: placeholders of an e-mail template

    A JavaScript string is a sequence of code units, modelled as a Rocq
    string; the functions below only compare code units with each other
    and with ASCII characters.  The mutable field [this.template] is
    passed in and returned. *)

Module MjmlTemplate.

Local Open Scope string_scope.

(** [s] with its prefix [p] removed, when [s.startsWith(p)]. *)
Fixpoint dropPrefix (p s : string) : option string :=
  match p, s with
  | EmptyString, _ => Some s
  | String a p', String b s' => if Ascii.eqb a b then dropPrefix p' s' else None
  | String _ _, EmptyString => None
  end.

(** [s] cut at the first occurrence of [pat] (the index
    [String.prototype.replace] searches for a string pattern): the part
    before it and the part after it. *)
Fixpoint cutAt (pat s : string) : option (string * string) :=
  match dropPrefix pat s with
  | Some post => Some (EmptyString, post)
  | None =>
      match s with
      | EmptyString => None
      | String c s' =>
          match cutAt pat s' with
          | Some (pre, post) => Some (String c pre, post)
          | None => None
          end
      end
  end.

(** The replacement text of [String.prototype.replace] for a string
    pattern (no captures): [$$] is a dollar sign, [$&] the matched text,
    [$`] the text before the match, [$'] the text after it; any other
    dollar sign stands for itself. *)
Fixpoint getSubstitution (matched pre post repl : string) : string :=
  match repl with
  | EmptyString => EmptyString
  | String c r =>
      if Ascii.eqb c "$" then
        match r with
        | EmptyString => String c EmptyString
        | String d r' =>
            if Ascii.eqb d "$" then String "$" (getSubstitution matched pre post r')
            else if Ascii.eqb d "&" then matched ++ getSubstitution matched pre post r'
            else if Ascii.eqb d "`" then pre ++ getSubstitution matched pre post r'
            else if Ascii.eqb d "'" then post ++ getSubstitution matched pre post r'
            else String c (getSubstitution matched pre post r)
        end
      else String c (getSubstitution matched pre post r)
  end.

(** [s.replace(pat, repl)] for strings [pat] and [repl]: the first
    occurrence only. *)
Definition stringReplace (s pat repl : string) : string :=
  match cutAt pat s with
  | None => s
  | Some (pre, post) => pre ++ getSubstitution pat pre post repl ++ post
  end.

(** Lines 61-63. *)
Definition replace (selector value template : string) : string :=
  stringReplace template ("{{" ++ selector ++ "}}") value.

(** The character class of the regular expression of line 66: letters,
    digits, underscore, dot and hyphen. *)
Definition isSelectorChar (c : ascii) : bool :=
  let n := nat_of_ascii c in
  ((97 <=? n)%nat && (n <=? 122)%nat) || ((65 <=? n)%nat && (n <=? 90)%nat)
  || ((48 <=? n)%nat && (n <=? 57)%nat)
  || Ascii.eqb c "_" || Ascii.eqb c "." || Ascii.eqb c "-".

(** The longest prefix of [s] whose code units satisfy [p], and the rest. *)
Fixpoint span (p : ascii -> bool) (s : string) : string * string :=
  match s with
  | EmptyString => (EmptyString, EmptyString)
  | String c s' =>
      if p c then let (a, b) := span p s' in (String c a, b)
      else (EmptyString, s)
  end.

(** A match of the regular expression of line 66 at the start of [s]
    (two opening braces, a greedy group of selector characters, two
    closing braces): the group and the text after the match.  No shorter
    group can match, since a brace is not in the class. *)
Definition matchContextAt (s : string) : option (string * string) :=
  match dropPrefix "{{" s with
  | Some s1 =>
      let (sel, s2) := span isSelectorChar s1 in
      match dropPrefix "}}" s2 with
      | Some s3 => Some (sel, s3)
      | None => None
      end
  | None => None
  end.

(** The groups of the successive matches ([matchAll] with the [g] flag):
    the search resumes after a match, and one code unit further where
    there is none. *)
Fixpoint matchAllContext (fuel : nat) (s : string) : list string :=
  match fuel with
  | O => []
  | S fuel' =>
      match matchContextAt s with
      | Some (sel, rest) => sel :: matchAllContext fuel' rest
      | None =>
          match s with
          | EmptyString => []
          | String _ s' => matchAllContext fuel' s'
          end
      end
  end.

(** Lines 65-73. *)
Definition getContextSelectors (template : string) : list string :=
  matchAllContext (S (String.length template)) template.

(** The line terminators a dot of a regular expression does not match:
    line feed and carriage return.  (U+2028 and U+2029, the other two,
    are beyond the characters of Rocq's strings.) *)
Definition isLineTerminator (c : ascii) : bool :=
  Ascii.eqb c "010" || Ascii.eqb c "013".

(** The code units a dot of a regular expression matches. *)
Definition isDot (c : ascii) : bool := negb (isLineTerminator c).

(** [s] cut at the last occurrence of [pat]. *)
Fixpoint cutAtLast (pat s : string) : option (string * string) :=
  match s with
  | EmptyString =>
      match dropPrefix pat s with
      | Some post => Some (EmptyString, post)
      | None => None
      end
  | String c s' =>
      match cutAtLast pat s' with
      | Some (pre, post) => Some (String c pre, post)
      | None =>
          match dropPrefix pat s with
          | Some post => Some (EmptyString, post)
          | None => None
          end
      end
  end.

(** A match of the regular expression of line 76 at the start of [s]:
    two opening braces and [email], one code unit that is not a line
    terminator, then a greedy group of such code units, then two closing
    braces.  The greedy group runs to the end of the line and is given
    back up to the last pair of closing braces of the line.  The result
    is the captured group and the text after the match. *)
Definition matchI18nAt (s : string) : option (string * string) :=
  match dropPrefix "{{email" s with
  | Some (String c s1) =>
      if isDot c then
        let (line, rest) := span isDot s1 in
        match cutAtLast "}}" line with
        | Some (group, after) => Some ("email" ++ String c group, after ++ rest)
        | None => None
        end
      else None
  | _ => None
  end.

(** The groups of the successive matches, as for [matchAllContext]. *)
Fixpoint matchAllI18n (fuel : nat) (s : string) : list string :=
  match fuel with
  | O => []
  | S fuel' =>
      match matchI18nAt s with
      | Some (sel, rest) => sel :: matchAllI18n fuel' rest
      | None =>
          match s with
          | EmptyString => []
          | String _ s' => matchAllI18n fuel' s'
          end
      end
  end.

(** Lines 75-83. *)
Definition getI18nSelectors (template : string) : list string :=
  matchAllI18n (S (String.length template)) template.

(** A match of the regular expression [i18nRegexCommon] of line 86 at
    the start of [s]: two opening braces and [i18n:common], one code
    unit that is not a line terminator, a greedy group, two closing
    braces.  The result is the matched text, the group and the text
    after the match. *)
Definition i18nRegexCommon (s : string) : option (string * string * string) :=
  match dropPrefix "{{i18n:common" s with
  | Some (String c s1) =>
      if isDot c then
        let (line, rest) := span isDot s1 in
        match cutAtLast "}}" line with
        | Some (group, after) =>
            Some ("{{i18n:common" ++ String c group ++ "}}", group, after ++ rest)
        | None => None
        end
      else None
  | _ => None
  end.

(** A match of the regular expression [i18nRegex] of line 89 at the
    start of [s]: two opening braces and [i18n:], a greedy group, two
    closing braces. *)
Definition i18nRegex (s : string) : option (string * string * string) :=
  match dropPrefix "{{i18n:" s with
  | Some s1 =>
      let (line, rest) := span isDot s1 in
      match cutAtLast "}}" line with
      | Some (group, after) => Some ("{{i18n:" ++ group ++ "}}", group, after ++ rest)
      | None => None
      end
  | None => None
  end.

(** The replacement text of [String.prototype.replace] for a regular
    expression with one group: as [getSubstitution], and [$1] or [$01]
    is the group.  A dollar sign before any other digits stands for
    itself, there being no second group. *)
Fixpoint getSubstitutionGroup (matched pre post group repl : string) : string :=
  match repl with
  | EmptyString => EmptyString
  | String c r =>
      if Ascii.eqb c "$" then
        match r with
        | EmptyString => String c EmptyString
        | String d r' =>
            if Ascii.eqb d "$" then
              String "$" (getSubstitutionGroup matched pre post group r')
            else if Ascii.eqb d "&" then
              matched ++ getSubstitutionGroup matched pre post group r'
            else if Ascii.eqb d "`" then
              pre ++ getSubstitutionGroup matched pre post group r'
            else if Ascii.eqb d "'" then
              post ++ getSubstitutionGroup matched pre post group r'
            else if Ascii.eqb d "1" then
              group ++ getSubstitutionGroup matched pre post group r'
            else if Ascii.eqb d "0" then
              match r' with
              | String e r'' =>
                  if Ascii.eqb e "1" then
                    group ++ getSubstitutionGroup matched pre post group r''
                  else String c (getSubstitutionGroup matched pre post group r)
              | EmptyString => String c (getSubstitutionGroup matched pre post group r)
              end
            else String c (getSubstitutionGroup matched pre post group r)
        end
      else String c (getSubstitutionGroup matched pre post group r)
  end.

(** [s.replace(regex, repl)] for a regular expression with the [g] flag
    and a string [repl]: every match, from left to right, is replaced;
    the search resumes after a match.  [before] is the text of the
    subject before [s]. *)
Fixpoint replaceMatches (fuel : nat) (regex : string -> option (string * string * string))
  (repl before s : string) : string :=
  match fuel with
  | O => s
  | S fuel' =>
      match regex s with
      | Some (matched, group, after) =>
          getSubstitutionGroup matched before after group repl
          ++ replaceMatches fuel' regex repl (before ++ matched) after
      | None =>
          match s with
          | EmptyString => EmptyString
          | String c s' =>
              String c (replaceMatches fuel' regex repl (before ++ String c "") s')
          end
      end
  end.

(** Lines 85-91. *)
Definition prepareI18nSelectors (prefix template : string) : string :=
  let template1 :=
    replaceMatches (S (String.length template)) i18nRegexCommon "{{email.$1}}" "" template in
  replaceMatches (S (String.length template1)) i18nRegex ("{{email." ++ prefix ++ ".$1}}")
                 "" template1.

(** [s.split(sep)] for a separator of one code unit. *)
Fixpoint splitOn (sep : ascii) (s : string) : list string :=
  match s with
  | EmptyString => [EmptyString]
  | String c s' =>
      if Ascii.eqb c sep then EmptyString :: splitOn sep s'
      else
        match splitOn sep s' with
        | k :: ks => String c k :: ks
        | [] => [String c EmptyString]
        end
  end.

(** Lines 93-95. *)
Definition splitSelector (selector : string) : list string := splitOn "." selector.

Section JsValues.

(** The values of JavaScript. *)
Variable JsValue : Type.

(** The property read [value[key]]; [None] when the read throws, as it
    does on [undefined] and [null]. *)
Variable getProp : JsValue -> string -> option JsValue.

(** The value as a string, when it is one.  What
    [String.prototype.replace] does with another value (it converts it,
    or calls it when it is a function) is left out of the model: [None]. *)
Variable asString : JsValue -> option string.

(** Lines 97-103. *)
Fixpoint getValue (keys : list string) (context : JsValue) : option JsValue :=
  match keys with
  | [] => Some context
  | key :: keys' =>
      match getProp context key with
      | Some value => getValue keys' value
      | None => None
      end
  end.

(** The loop of lines 32-36 of [resolve]. *)
Fixpoint replaceSelectors (selectors : list string) (context : JsValue)
  (template : string) : option string :=
  match selectors with
  | [] => Some template
  | selector :: selectors' =>
      match getValue (splitSelector selector) context with
      | Some value =>
          match asString value with
          | Some v => replaceSelectors selectors' context (replace selector v template)
          | None => None
          end
      | None => None
      end
  end.

(** Lines 31-36 of [resolve]: the selectors are collected once, then
    replaced one after the other. *)
Definition resolveContext (context : JsValue) (template : string) : option string :=
  replaceSelectors (getContextSelectors template) context template.

End JsValues.

(** [s] holds the code unit [c]. *)
Fixpoint hasChar (c : ascii) (s : string) : bool :=
  match s with
  | EmptyString => false
  | String d s' => Ascii.eqb d c || hasChar c s'
  end.

(** [pat] occurs in [s]. *)
Definition occursIn (pat s : string) : Prop :=
  exists a b, s = a ++ pat ++ b.

(** The placeholder of a selector. *)
Definition placeholder (selector : string) : string := "{{" ++ selector ++ "}}".

(** All code units of [s] are matched by a dot. *)
Fixpoint isLine (s : string) : bool :=
  match s with
  | EmptyString => true
  | String c s' => isDot c && isLine s'
  end.

(** [s] is empty or starts with a line terminator. *)
Definition atLineEnd (s : string) : bool :=
  match s with
  | EmptyString => true
  | String c _ => isLineTerminator c
  end.

(** All code units of [s] are of the selector class. *)
Fixpoint isSelector (s : string) : bool :=
  match s with
  | EmptyString => true
  | String c s' => isSelectorChar c && isSelector s'
  end.

(** A template written as texts and placeholders: each text is followed
    by the placeholder of a selector, and [last] ends the template. *)
Fixpoint render (segments : list (string * string)) (last : string) : string :=
  match segments with
  | [] => last
  | (text, selector) :: segments' =>
      text ++ placeholder selector ++ render segments' last
  end.

(** The same template with each placeholder replaced by a value. *)
Fixpoint rendered (value : string -> string) (segments : list (string * string))
  (last : string) : string :=
  match segments with
  | [] => last
  | (text, selector) :: segments' =>
      text ++ value selector ++ rendered value segments' last
  end.

End MjmlTemplate.

(** ** A concrete context *)

(** A small instance of the values of JavaScript for the examples:
    undefined, strings, and objects given by their fields.  A field an
    object does not have reads as undefined, and reading a property of
    undefined throws.  The examples read no property of a string. *)
Inductive Json : Type :=
| JUndefined
| JString (s : string)
| JObject (fields : string -> Json).

Definition jsonProp (value : Json) (key : string) : option Json :=
  match value with
  | JUndefined => None
  | JString _ => Some JUndefined
  | JObject fields => Some (fields key)
  end.

Definition jsonString (value : Json) : option string :=
  match value with
  | JString s => Some s
  | _ => None
  end.

(** The context with [user.name] Bob and [site] Paris. *)
Definition welcomeContext : Json :=
  JObject (fun key =>
    if String.eqb key "user" then
      JObject (fun key' => if String.eqb key' "name" then JString "Bob" else JUndefined)
    else if String.eqb key "site" then JString "Paris"
    else JUndefined).

Definition welcomeSegments : list (string * string) :=
  [("Hello ", "user.name"); (", welcome to ", "site"); (". Bye ", "user.name")].

Definition welcomeValue (selector : string) : string :=
  if String.eqb selector "site" then "Paris" else "Bob".

(** ** Properties *)

(** *** The staging collection *)

Lemma deleteById_absent (id : nat) (l : list ImportedUser) :
  (forall y, In y l -> iu_id y <> id) -> deleteById id l = l.
Proof.
  induction l as [|a l IH]; intros H; simpl; [reflexivity|].
  destruct (Nat.eqb_spec (iu_id a) id) as [E|E]; simpl.
  - exfalso. apply (H a); [now left | exact E].
  - f_equal. apply IH. intros y Hy. apply H. now right.
Qed.

Lemma readyCount_deleteById_le (id : nat) (l : list ImportedUser) :
  length (readyOf (deleteById id l)) <= length (readyOf l).
Proof.
  induction l as [|a l IH]; simpl; [lia|].
  destruct (negb (iu_id a =? id)); simpl; destruct (isReady a); simpl; lia.
Qed.

Lemma readyCount_deleteById_lt (x : ImportedUser) (l : list ImportedUser) :
  In x l -> isReady x = true ->
  length (readyOf (deleteById (iu_id x) l)) < length (readyOf l).
Proof.
  induction l as [|a l IH]; simpl; [tauto|].
  intros [->|Hin] Hr.
  - rewrite Nat.eqb_refl, Hr. simpl.
    pose proof (readyCount_deleteById_le (iu_id x) l). lia.
  - specialize (IH Hin Hr).
    destruct (negb (iu_id a =? iu_id x)); simpl; destruct (isReady a); simpl; lia.
Qed.

Lemma readyCount_replace_le (iu : ImportedUser) (l : list ImportedUser) :
  isReady iu = false ->
  length (readyOf (map (fun x => if iu_id x =? iu_id iu then iu else x) l))
  <= length (readyOf l).
Proof.
  intros Hiu. induction l as [|a l IH]; simpl; [lia|].
  destruct (iu_id a =? iu_id iu); [rewrite Hiu|]; destruct (isReady a); simpl; lia.
Qed.

Lemma readyOf_app (l1 l2 : list ImportedUser) :
  readyOf (l1 ++ l2) = readyOf l1 ++ readyOf l2.
Proof. apply filter_app. Qed.

Lemma readyCount_upsert_le (iu : ImportedUser) (l : list ImportedUser) :
  isReady iu = false ->
  length (readyOf (upsertImported iu l)) <= length (readyOf l).
Proof.
  intros Hiu. unfold upsertImported.
  destruct (existsb _ l).
  - now apply readyCount_replace_le.
  - rewrite readyOf_app. simpl. rewrite Hiu. rewrite app_nil_r. lia.
Qed.

Lemma existsb_same_id (x : ImportedUser) (id : nat) (l : list ImportedUser) :
  In x l -> iu_id x = id -> existsb (fun y => iu_id y =? id) l = true.
Proof.
  intros Hin E. apply existsb_exists. exists x. split; [exact Hin|].
  now apply Nat.eqb_eq.
Qed.

Lemma readyCount_upsert_lt (x iu : ImportedUser) (l : list ImportedUser) :
  In x l -> isReady x = true -> iu_id x = iu_id iu -> isReady iu = false ->
  length (readyOf (upsertImported iu l)) < length (readyOf l).
Proof.
  intros Hin Hr E Hiu. unfold upsertImported.
  rewrite (existsb_same_id x (iu_id iu) l Hin E).
  induction l as [|a l IH]; simpl; [contradiction|].
  destruct Hin as [->|Hin].
  - rewrite E, Nat.eqb_refl, Hiu, Hr. simpl.
    pose proof (readyCount_replace_le iu l Hiu). lia.
  - specialize (IH Hin).
    destruct (iu_id a =? iu_id iu); [rewrite Hiu|]; destruct (isReady a); simpl; lia.
Qed.

Lemma readyOf_In (x : ImportedUser) (l : list ImportedUser) :
  In x (readyOf l) -> In x l /\ isReady x = true.
Proof. unfold readyOf. apply filter_In. Qed.

Lemma markError_not_ready (iu : ImportedUser) (m : string) :
  isReady (markError iu m) = false.
Proof. reflexivity. Qed.

Lemma replace_absent (id : nat) (iu : ImportedUser) (l : list ImportedUser) :
  (forall y, In y l -> iu_id y <> id) ->
  map (fun x => if iu_id x =? id then iu else x) l = l.
Proof.
  induction l as [|a l IH]; intros H; simpl; [reflexivity|].
  destruct (Nat.eqb_spec (iu_id a) id) as [E|E].
  - exfalso. apply (H a); [now left | exact E].
  - f_equal. apply IH. intros y Hy. apply H. now right.
Qed.

Lemma NoDup_ids_head (a : ImportedUser) (l : list ImportedUser) :
  NoDup (map iu_id (a :: l)) -> forall y, In y l -> iu_id y <> iu_id a.
Proof.
  simpl. intros H y Hy E. inversion H as [|? ? Hn _]; subst.
  apply Hn. rewrite <- E. now apply in_map.
Qed.

(** With unique ids, deleting the first READY record leaves exactly the
    other READY records, in order. *)
Lemma readyOf_deleteById_head (x : ImportedUser) (rest l : list ImportedUser) :
  NoDup (map iu_id l) -> readyOf l = x :: rest ->
  readyOf (deleteById (iu_id x) l) = rest.
Proof.
  induction l as [|a l IH]; simpl; [discriminate|].
  intros Hnd Hr.
  pose proof (NoDup_ids_head a l Hnd) as Hhead.
  destruct (isReady a) eqn:Ha.
  - injection Hr as -> <-. rewrite Nat.eqb_refl. simpl.
    now rewrite deleteById_absent.
  - assert (Hx : In x l).
    { apply (readyOf_In x l). rewrite Hr. now left. }
    destruct (Nat.eqb_spec (iu_id a) (iu_id x)) as [E|E].
    + exfalso. apply (Hhead x Hx). now symmetry.
    + simpl. rewrite Ha. apply IH; [|exact Hr].
      simpl in Hnd. now inversion Hnd.
Qed.

(** Likewise when the first READY record is saved back marked ERROR. *)
Lemma readyOf_upsert_head (x : ImportedUser) (m : string) (rest l : list ImportedUser) :
  NoDup (map iu_id l) -> readyOf l = x :: rest ->
  readyOf (upsertImported (markError x m) l) = rest.
Proof.
  intros Hnd Hr. unfold upsertImported.
  assert (Hx : In x l).
  { apply (readyOf_In x l). rewrite Hr. now left. }
  rewrite (existsb_same_id x (iu_id (markError x m)) l Hx eq_refl).
  clear Hx. revert Hnd Hr.
  induction l as [|a l IH]; simpl; [discriminate|].
  intros Hnd Hr.
  pose proof (NoDup_ids_head a l Hnd) as Hhead.
  destruct (isReady a) eqn:Ha.
  - injection Hr as -> <-. rewrite Nat.eqb_refl. simpl.
    now rewrite (replace_absent (iu_id x) (markError x m) l Hhead).
  - assert (Hx : In x l).
    { apply (readyOf_In x l). rewrite Hr. now left. }
    destruct (Nat.eqb_spec (iu_id a) (iu_id x)) as [E|E].
    + exfalso. apply (Hhead x Hx). now symmetry.
    + simpl. rewrite Ha. apply IH; [|exact Hr].
      simpl in Hnd. now inversion Hnd.
Qed.

Lemma NoDup_ids_deleteById (id : nat) (l : list ImportedUser) :
  NoDup (map iu_id l) -> NoDup (map iu_id (deleteById id l)).
Proof.
  induction l as [|a l IH]; simpl; intros H; [constructor|].
  inversion H as [|? ? Hn Hl]; subst.
  destruct (negb (iu_id a =? id)); simpl; [|now apply IH].
  constructor; [|now apply IH].
  intros Hin. apply Hn. apply in_map_iff in Hin as [y [E Hy]].
  apply in_map_iff. exists y. split; [exact E|].
  unfold deleteById in Hy. now apply filter_In in Hy.
Qed.

Lemma replace_ids (iu : ImportedUser) (l : list ImportedUser) :
  map iu_id (map (fun x => if iu_id x =? iu_id iu then iu else x) l) = map iu_id l.
Proof.
  rewrite map_map. apply map_ext. intros a.
  destruct (Nat.eqb_spec (iu_id a) (iu_id iu)); congruence.
Qed.

Lemma NoDup_ids_upsert (iu : ImportedUser) (l : list ImportedUser) :
  NoDup (map iu_id l) -> NoDup (map iu_id (upsertImported iu l)).
Proof.
  intros H. unfold upsertImported.
  destruct (existsb _ l) eqn:E.
  - now rewrite replace_ids.
  - rewrite map_app. simpl. apply NoDup_app; [exact H | repeat constructor; simpl; tauto |].
    intros i Hi [<-|[]].
    apply in_map_iff in Hi as [y [Ey Hy]].
    assert (existsb (fun x => iu_id x =? iu_id iu) l = true)
      by (apply (existsb_same_id y); assumption).
    congruence.
Qed.

(** *** One candidate: the loop body *)

Section CandidateStep.

Variable faults : nat -> Op -> option string.

Lemma upd_same {A : Type} (f : TenantID -> A) (t : TenantID) (v : A) :
  upd f t v t = v.
Proof. unfold upd. now rewrite String.eqb_refl. Qed.

Lemma upd_other {A : Type} (f : TenantID -> A) (t t' : TenantID) (v : A) :
  t' <> t -> upd f t v t' = f t'.
Proof. unfold upd. intros H. now destruct (String.eqb_spec t' t). Qed.

Lemma io_ok {A : Type} (op : Op) (act : World -> A * World) (w : World) :
  faults (length (trace w)) op = None ->
  io faults op act w = (Ok (fst (act (record op w))), snd (act (record op w))).
Proof. unfold io. intros ->. now destruct (act (record op w)). Qed.

Ltac unfold_ops :=
  unfold importOne, try_catch, mergeDecision, recordError, bind,
    getUserByEmail, saveUser, saveUserRole, saveUserStatus, deleteImportedUser,
    saveImportedUser, logError, io, throw, ret.

Ltac crunch :=
  repeat (simpl in *;
    match goal with
    | |- context [match faults ?n ?op with _ => _ end] => destruct (faults n op) eqn:?
    | |- context [match findByEmail ?e ?us with _ => _ end] => destruct (findByEmail e us) eqn:?
    | |- context [let (_, _) := saveUserStore ?u ?us in _] => destruct (saveUserStore u us) eqn:?
    | |- context [if ?b then _ else _] => destruct b eqn:?
    end).

Lemma importOne_trace (t : Tenant) (iu : ImportedUser) (res : ActionsResponse)
  (w : World) (out : Res ActionsResponse) (w' : World) :
  importOne faults t iu res w = (out, w') ->
  locks w' = locks w /\ out <> Diverge /\
  (forall t', t' <> tenant_id t ->
     importedusers w' t' = importedusers w t' /\ users w' t' = users w t') /\
  exists evs, trace w' = trace w ++ GetUserByEmail (tenant_id t) (iu_email iu) :: evs
              /\ forallb isAfterLookup evs = true.
Proof.
  unfold_ops. crunch.
  all: intros [= <- <-]; simpl.
  all: repeat split; try reflexivity; try discriminate.
  all: try (intros; rewrite ?upd_other by assumption; reflexivity).
  all: repeat rewrite <- app_assoc; simpl; eexists; split; reflexivity.
Qed.

Lemma importOne_staging (t : Tenant) (iu : ImportedUser) (res r : ActionsResponse)
  (w w' : World) :
  importOne faults t iu res w = (Ok r, w') ->
  (r = incSuccess res /\
   importedusers w' (tenant_id t) = deleteById (iu_id iu) (importedusers w (tenant_id t)))
  \/
  (r = incError res /\ exists m,
   importedusers w' (tenant_id t)
   = upsertImported (markError iu m) (importedusers w (tenant_id t))).
Proof.
  unfold_ops. crunch.
  all: intros [= <- <-]; simpl; rewrite ?upd_same.
  all: first [ left; split; reflexivity
             | right; split; [reflexivity | eexists; reflexivity] ].
Qed.

Lemma importOne_confined (t : Tenant) (iu : ImportedUser) (res : ActionsResponse)
  (w : World) :
  confined faults ->
  exists r w', importOne faults t iu res w = (Ok r, w').
Proof.
  intros Hc. unfold_ops. crunch.
  all: try match goal with
       | H : faults ?n ?op = Some _ |- _ =>
           rewrite (Hc n op eq_refl) in H; discriminate
       end.
  all: eexists; eexists; reflexivity.
Qed.

End CandidateStep.

(** *** The monad, the [for] loop and the do-while loop *)

Section Loop.

Variable faults : nat -> Op -> option string.

Lemma bind_inv {A B : Type} (c : M A) (k : A -> M B) (w : World) (out : Res B) (w' : World) :
  bind c k w = (out, w') ->
  (exists a w1, c w = (Ok a, w1) /\ k a w1 = (out, w')) \/
  (exists e, c w = (Throw e, w') /\ out = Throw e) \/
  (c w = (Diverge, w') /\ out = Diverge).
Proof.
  unfold bind. destruct (c w) as [[a|e|] w1]; intros H.
  - left. now exists a, w1.
  - right. left. exists e. now inversion H.
  - right. right. now inversion H.
Qed.

Lemma bind_ok {A B : Type} (c : M A) (k : A -> M B) (w w1 : World) (a : A) :
  c w = (Ok a, w1) -> bind c k w = k a w1.
Proof. unfold bind. now intros ->. Qed.

Lemma issues_ret {A : Type} (P : Op -> bool) (a : A) : issues P (ret a).
Proof.
  intros w out w' [= <- <-]. split; [reflexivity|].
  exists []. now rewrite app_nil_r.
Qed.

Lemma issues_io_pure {A : Type} (P : Op -> bool) (op : Op) (f : World -> A) :
  P op = true -> issues P (io faults op (fun w => (f w, w))).
Proof.
  intros HP w out w'. unfold io.
  destruct (faults _ op); intros [= <- <-]; simpl.
  all: split; [reflexivity|]; exists [op]; simpl; now rewrite HP.
Qed.

Lemma issues_bind {A B : Type} (P : Op -> bool) (c : M A) (k : A -> M B) :
  issues P c -> (forall a, issues P (k a)) -> issues P (bind c k).
Proof.
  intros Hc Hk w out w' H.
  apply bind_inv in H as [(a & w1 & H1 & H2) | [(e & H1 & ->) | (H1 & ->)]].
  - destruct (Hc _ _ _ H1) as (L1 & evs1 & T1 & F1).
    destruct (Hk a _ _ _ H2) as (L2 & evs2 & T2 & F2).
    split; [congruence|].
    exists (evs1 ++ evs2). split.
    + now rewrite T2, T1, app_assoc.
    + now rewrite forallb_app, F1, F2.
  - exact (Hc _ _ _ H1).
  - exact (Hc _ _ _ H1).
Qed.

Lemma issues_mono {A : Type} (P Q : Op -> bool) (c : M A) :
  (forall op, P op = true -> Q op = true) -> issues P c -> issues Q c.
Proof.
  intros HPQ Hc w out w' H.
  destruct (Hc _ _ _ H) as (L & evs & T & F).
  split; [exact L|]. exists evs. split; [exact T|].
  rewrite forallb_forall in *. auto.
Qed.

Lemma terminates_ret {A : Type} (a : A) : terminates (ret a).
Proof. now intros w out w' [= <- <-]. Qed.

Lemma terminates_io {A : Type} (op : Op) (act : World -> A * World) :
  terminates (io faults op act).
Proof.
  intros w out w'. unfold io.
  destruct (faults _ op); [|destruct (act _)]; now intros [= <- <-].
Qed.

Lemma terminates_bind {A B : Type} (c : M A) (k : A -> M B) :
  terminates c -> (forall a, terminates (k a)) -> terminates (bind c k).
Proof.
  intros Hc Hk w out w' H.
  apply bind_inv in H as [(a & w1 & H1 & H2) | [(e & H1 & ->) | (H1 & ->)]].
  - exact (Hk a _ _ _ H2).
  - discriminate.
  - now apply Hc in H1.
Qed.

Lemma importOne_issues (t : Tenant) (iu : ImportedUser) (res : ActionsResponse) :
  issues isPerRecord (importOne faults t iu res).
Proof.
  intros w out w' H.
  destruct (importOne_trace faults t iu res w out w' H) as (L & _ & _ & evs & T & F).
  split; [exact L|]. eexists. split; [exact T|].
  simpl. rewrite forallb_forall in *. intros op Hop.
  specialize (F op Hop). now destruct op.
Qed.

Lemma importOne_terminates (t : Tenant) (iu : ImportedUser) (res : ActionsResponse) :
  terminates (importOne faults t iu res).
Proof. intros w out w' H. now apply (importOne_trace faults t iu res w out w' H). Qed.

Lemma forEach_issues (t : Tenant) (page : list ImportedUser) (res : ActionsResponse) :
  issues isPerRecord (forEach faults t page res).
Proof.
  revert res. induction page as [|iu page IH]; intros res; simpl.
  - apply issues_ret.
  - apply issues_bind; [apply importOne_issues | intros a; apply IH].
Qed.

Lemma forEach_terminates (t : Tenant) (page : list ImportedUser) (res : ActionsResponse) :
  terminates (forEach faults t page res).
Proof.
  revert res. induction page as [|iu page IH]; intros res; simpl.
  - apply terminates_ret.
  - apply terminates_bind; [apply importOne_terminates | intros a; apply IH].
Qed.

Lemma importOne_readyCount (t : Tenant) (iu : ImportedUser) (res r : ActionsResponse)
  (w w' : World) :
  importOne faults t iu res w = (Ok r, w') ->
  length (readyOf (importedusers w' (tenant_id t)))
  <= length (readyOf (importedusers w (tenant_id t))) /\
  (In iu (importedusers w (tenant_id t)) -> isReady iu = true ->
   length (readyOf (importedusers w' (tenant_id t)))
   < length (readyOf (importedusers w (tenant_id t)))).
Proof.
  intros H.
  destruct (importOne_staging faults t iu res r w w' H) as [[_ ->] | [_ [m ->]]].
  - split; [apply readyCount_deleteById_le | apply readyCount_deleteById_lt].
  - split; [now apply readyCount_upsert_le|].
    intros Hin Hr. now apply (readyCount_upsert_lt iu).
Qed.

Lemma forEach_readyCount (t : Tenant) (page : list ImportedUser) (res r : ActionsResponse)
  (w w' : World) :
  forEach faults t page res w = (Ok r, w') ->
  length (readyOf (importedusers w' (tenant_id t)))
  <= length (readyOf (importedusers w (tenant_id t))).
Proof.
  revert res w. induction page as [|iu page IH]; intros res w; simpl.
  - now intros [= <- <-].
  - intros H.
    apply bind_inv in H as [(a & w1 & H1 & H2) | [(e & _ & [=]) | (_ & [=])]].
    apply importOne_readyCount in H1 as [H1 _]. apply IH in H2. lia.
Qed.

(** A page whose first record is a READY staged record, once processed
    to its end, leaves strictly fewer READY records. *)
Lemma forEach_progress (t : Tenant) (iu : ImportedUser) (page : list ImportedUser)
  (res r : ActionsResponse) (w w' : World) :
  In iu (importedusers w (tenant_id t)) -> isReady iu = true ->
  forEach faults t (iu :: page) res w = (Ok r, w') ->
  length (readyOf (importedusers w' (tenant_id t)))
  < length (readyOf (importedusers w (tenant_id t))).
Proof.
  intros Hin Hr H. simpl in H.
  apply bind_inv in H as [(a & w1 & H1 & H2) | [(e & _ & [=]) | (_ & [=])]].
  apply importOne_readyCount in H1 as [_ H1]. apply forEach_readyCount in H2.
  specialize (H1 Hin Hr). lia.
Qed.

Lemma doWhile_S (fuel : nat) (t : Tenant) (p : DbParams) (total : nat)
  (res : ActionsResponse) :
  doWhile faults (S fuel) t p total res =
  (importedUsers <- getImportedUsers faults (tenant_id t) READY p ;;
   res' <- forEach faults t (result importedUsers) res ;;
   (if (0 <? length (result importedUsers)) && (0 <? inError res' + inSuccess res')
    then logDebug faults (tenant_id t) (inError res' + inSuccess res') total
    else ret tt) ;;
   if negb (isEmptyArray (result importedUsers))
   then doWhile faults fuel t p total res'
   else ret res').
Proof. reflexivity. Qed.

Lemma getImportedUsers_inv (t : TenantID) (p : DbParams) (w : World)
  (d : DataResult ImportedUser) (w1 : World) :
  getImportedUsers faults t READY p w = (Ok d, w1) ->
  w1 = record (GetImportedUsers t READY p) w /\
  result d = firstn (limit p) (skipn (skip p) (readyOf (importedusers w t))) /\
  faults (length (trace w)) (GetImportedUsers t READY p) = None.
Proof.
  unfold getImportedUsers, io.
  destruct (faults _ _); [discriminate|]. now intros [= <- <-].
Qed.

Lemma In_firstn {A : Type} (n : nat) (l : list A) (x : A) :
  In x (firstn n l) -> In x l.
Proof. intros H. rewrite <- (firstn_skipn n l). apply in_or_app. now left. Qed.

Lemma In_skipn {A : Type} (n : nat) (l : list A) (x : A) :
  In x (skipn n l) -> In x l.
Proof. intros H. rewrite <- (firstn_skipn n l). apply in_or_app. now right. Qed.

Lemma page_head_ready (p : DbParams) (l : list ImportedUser) (x : ImportedUser)
  (rest : list ImportedUser) :
  firstn (limit p) (skipn (skip p) (readyOf l)) = x :: rest ->
  In x l /\ isReady x = true.
Proof.
  intros H. apply readyOf_In.
  apply (In_skipn (skip p)). apply (In_firstn (limit p)). rewrite H. now left.
Qed.

Lemma logDebug_cond_inv (b : bool) (t : TenantID) (n total : nat) (w : World)
  (out : Res unit) (w' : World) :
  (if b then logDebug faults t n total else ret tt) w = (out, w') ->
  out <> Diverge /\ importedusers w' = importedusers w /\ users w' = users w.
Proof.
  destruct b; [unfold logDebug, io; destruct (faults _ _)|]; now intros [= <- <-].
Qed.

(** The loop never runs out of fuel when it is given more than the
    number of READY records. *)
Lemma doWhile_terminates (t : Tenant) (p : DbParams) (total : nat) (fuel : nat) :
  forall (res : ActionsResponse) (w : World) (out : Res ActionsResponse) (w' : World),
    length (readyOf (importedusers w (tenant_id t))) < fuel ->
    doWhile faults fuel t p total res w = (out, w') -> out <> Diverge.
Proof.
  induction fuel as [|fuel IH]; intros res w out w' Hlt H; [lia|].
  rewrite doWhile_S in H.
  apply bind_inv in H as [(d & w1 & H1 & H2) | [(e & _ & ->) | (H1 & _)]];
    [|discriminate|now apply terminates_io in H1].
  apply getImportedUsers_inv in H1 as (-> & Hd & _).
  apply bind_inv in H2 as [(r1 & w2 & H2 & H3) | [(e & _ & ->) | (H2 & _)]];
    [|discriminate|now apply forEach_terminates in H2].
  apply bind_inv in H3 as [([] & w3 & H3 & H4) | [(e & _ & ->) | (H3 & _)]];
    [|discriminate|now apply logDebug_cond_inv in H3].
  apply logDebug_cond_inv in H3 as (_ & E3 & _).
  destruct (result d) as [|x rest] eqn:Hpage; simpl in H4.
  - now inversion H4.
  - symmetry in Hd. apply page_head_ready in Hd as [Hin Hr].
    apply forEach_progress in H2; [|exact Hin|exact Hr]. simpl in H2.
    apply (IH r1 w3 out w'); [|exact H4]. rewrite E3. lia.
Qed.

(** More fuel does not change the outcome of a loop that finished. *)
Lemma doWhile_fuel_mono (t : Tenant) (p : DbParams) (total : nat) (fuel : nat) :
  forall (fuel' : nat) (res : ActionsResponse) (w : World)
         (out : Res ActionsResponse) (w' : World),
    fuel <= fuel' -> out <> Diverge ->
    doWhile faults fuel t p total res w = (out, w') ->
    doWhile faults fuel' t p total res w = (out, w').
Proof.
  induction fuel as [|fuel IH]; intros fuel' res w out w' Hle Hout H.
  - simpl in H. inversion H. congruence.
  - destruct fuel' as [|fuel']; [lia|].
    rewrite doWhile_S in *. unfold bind in *.
    destruct (getImportedUsers faults (tenant_id t) READY p w) as [[d| |] w1];
      try exact H.
    destruct (forEach faults t (result d) res w1) as [[r1| |] w2]; try exact H.
    match type of H with
    | context [match ?c w2 with _ => _ end] => destruct (c w2) as [[[]| |] w3]
    end; try exact H.
    destruct (negb (isEmptyArray (result d))); [|exact H].
    apply IH; [lia | exact Hout | exact H].
Qed.

End Loop.

(** *** Draining the READY records page by page *)

Lemma pageCount_0 (P : nat) : 0 < P -> pageCount P 0 = 0.
Proof. intros H. unfold pageCount. apply Nat.div_small. lia. Qed.

Lemma pageCount_step (P N : nat) :
  0 < P -> 0 < N -> pageCount P N = S (pageCount P (N - P)).
Proof.
  intros HP HN. unfold pageCount.
  destruct (Nat.le_gt_cases N P) as [Hle|Hgt].
  - replace (N - P) with 0 by lia.
    replace (N + P - 1) with ((N - 1) + 1 * P) by lia.
    rewrite Nat.div_add by lia.
    rewrite (Nat.div_small (N - 1)) by lia.
    rewrite (Nat.div_small (0 + P - 1)) by lia. reflexivity.
  - replace (N + P - 1) with ((N - P + P - 1) + 1 * P) by lia.
    rewrite Nat.div_add by lia. lia.
Qed.

Lemma lookups_app (a b : list Op) : lookups (a ++ b) = lookups a ++ lookups b.
Proof. apply flat_map_app. Qed.

Lemma fetches_app (a b : list Op) : fetches (a ++ b) = fetches a + fetches b.
Proof. unfold fetches. now rewrite filter_app, length_app. Qed.

Lemma afterLookup_quiet (evs : list Op) :
  forallb isAfterLookup evs = true -> lookups evs = [] /\ fetches evs = 0.
Proof.
  induction evs as [|op evs IH]; simpl; [easy|].
  intros H. apply andb_prop in H as [Hop H]. destruct (IH H) as [IH1 IH2].
  unfold fetches in *. destruct op; simpl in *; try discriminate; easy.
Qed.

Section Pagination.

Variable faults : nat -> Op -> option string.

Lemma doWhile_issues (t : Tenant) (p : DbParams) (total : nat) (fuel : nat) :
  forall res, issues isLoopOp (doWhile faults fuel t p total res).
Proof.
  induction fuel as [|fuel IH]; intros res.
  - intros w out w' [= <- <-]. split; [reflexivity|]. exists []. now rewrite app_nil_r.
  - rewrite doWhile_S.
    apply issues_bind.
    { unfold getImportedUsers.
      apply (issues_io_pure faults isLoopOp _
               (fun w => mkDataResult _ _)). reflexivity. }
    intros d. apply issues_bind.
    { apply (issues_mono isPerRecord); [|apply forEach_issues].
      intros op H. unfold isLoopOp. rewrite H. now rewrite orb_true_r. }
    intros r1. apply issues_bind.
    { destruct (_ && _); [|apply issues_ret].
      apply issues_io_pure. reflexivity. }
    intros _. destruct (negb _); [apply IH | apply issues_ret].
Qed.

(** When the loop returns, the page it last fetched was empty: no READY
    record is left within reach of the query. *)
Lemma doWhile_exit (t : Tenant) (p : DbParams) (total : nat) (fuel : nat) :
  forall (res r : ActionsResponse) (w w' : World),
    doWhile faults fuel t p total res w = (Ok r, w') ->
    firstn (limit p) (skipn (skip p) (readyOf (importedusers w' (tenant_id t)))) = [].
Proof.
  induction fuel as [|fuel IH]; intros res r w w' H; [discriminate|].
  rewrite doWhile_S in H.
  apply bind_inv in H as [(d & w1 & H1 & H2) | [(e & _ & [=]) | (_ & [=])]].
  apply getImportedUsers_inv in H1 as (-> & Hd & _).
  apply bind_inv in H2 as [(r1 & w2 & H2 & H3) | [(e & _ & [=]) | (_ & [=])]].
  apply bind_inv in H3 as [([] & w3 & H3 & H4) | [(e & _ & [=]) | (_ & [=])]].
  destruct (result d) as [|x rest] eqn:Hpage; simpl in H4.
  - simpl in H2, H3. inversion H2; subst. inversion H3; subst. inversion H4; subst.
    simpl. now rewrite <- Hd.
  - now apply IH in H4.
Qed.

Section Confined.
Hypothesis Hconf : confined faults.

Lemma getImportedUsers_confined (t : TenantID) (p : DbParams) (w : World) :
  getImportedUsers faults t READY p w
  = (Ok (mkDataResult (length (readyOf (importedusers w t)))
                      (firstn (limit p) (skipn (skip p) (readyOf (importedusers w t))))),
     record (GetImportedUsers t READY p) w).
Proof.
  unfold getImportedUsers, io.
  now rewrite (Hconf _ (GetImportedUsers t READY p) eq_refl).
Qed.

Lemma logDebug_cond_confined (b : bool) (t : TenantID) (n total : nat) (w : World) :
  exists w', (if b then logDebug faults t n total else ret tt) w = (Ok tt, w') /\
             importedusers w' = importedusers w /\ users w' = users w /\
             locks w' = locks w /\
             lookups (trace w') = lookups (trace w) /\
             fetches (trace w') = fetches (trace w).
Proof.
  destruct b.
  - unfold logDebug, io. rewrite (Hconf _ (LogDebug t n total) eq_refl).
    eexists. split; [reflexivity|]. simpl.
    rewrite lookups_app, fetches_app. simpl. rewrite app_nil_r.
    unfold fetches. simpl. repeat split; lia.
  - exists w. repeat split.
Qed.

(** Processing a prefix of the READY records, in order, disposes of
    exactly that prefix. *)
Lemma forEach_complete (t : Tenant) (page : list ImportedUser) :
  forall (rest : list ImportedUser) (res : ActionsResponse) (w : World),
    NoDup (map iu_id (importedusers w (tenant_id t))) ->
    readyOf (importedusers w (tenant_id t)) = page ++ rest ->
    exists r w',
      forEach faults t page res w = (Ok r, w') /\
      readyOf (importedusers w' (tenant_id t)) = rest /\
      NoDup (map iu_id (importedusers w' (tenant_id t))) /\
      lookups (trace w') = lookups (trace w) ++ map iu_email page /\
      inError r + inSuccess r = inError res + inSuccess res + length page /\
      fetches (trace w') = fetches (trace w) /\
      locks w' = locks w.
Proof.
  induction page as [|x page IH]; intros rest res w Hnd Hr.
  - exists res, w. simpl. rewrite app_nil_r. repeat split; auto.
  - destruct (importOne_confined faults t x res w Hconf) as (r1 & w1 & H1).
    destruct (importOne_trace faults t x res w _ _ H1) as (L1 & _ & _ & evs & T1 & F1).
    apply afterLookup_quiet in F1 as [Q1 Q2].
    assert (Hst : readyOf (importedusers w1 (tenant_id t)) = page ++ rest /\
                  NoDup (map iu_id (importedusers w1 (tenant_id t))) /\
                  inError r1 + inSuccess r1 = S (inError res + inSuccess res)).
    { destruct (importOne_staging faults t x res r1 w w1 H1) as [[-> ->] | [-> [m ->]]].
      - split; [now apply readyOf_deleteById_head|].
        split; [now apply NoDup_ids_deleteById | simpl; lia].
      - split; [now apply readyOf_upsert_head|].
        split; [now apply NoDup_ids_upsert | simpl; lia]. }
    destruct Hst as (Hr1 & Hnd1 & Hc1).
    destruct (IH rest r1 w1 Hnd1 Hr1) as (r & w' & H2 & Hr2 & Hnd2 & Lk & Hc & Hf & L2).
    exists r, w'. simpl. rewrite (bind_ok _ _ _ _ _ H1).
    split; [exact H2|]. split; [exact Hr2|]. split; [exact Hnd2|].
    split; [|split; [|split]].
    + rewrite Lk, T1, lookups_app. simpl. rewrite Q1. now rewrite <- app_assoc.
    + lia.
    + rewrite Hf, T1, fetches_app. unfold fetches at 2. simpl.
      fold (fetches evs). lia.
    + congruence.
Qed.

(** Pagination completeness of the loop. *)
Lemma doWhile_complete (t : Tenant) (p : DbParams) (total : nat) :
  0 < limit p -> skip p = 0 ->
  forall (fuel : nat) (res : ActionsResponse) (w : World),
    NoDup (map iu_id (importedusers w (tenant_id t))) ->
    length (readyOf (importedusers w (tenant_id t))) < fuel ->
    exists r w',
      doWhile faults fuel t p total res w = (Ok r, w') /\
      readyOf (importedusers w' (tenant_id t)) = [] /\
      lookups (trace w')
      = lookups (trace w) ++ map iu_email (readyOf (importedusers w (tenant_id t))) /\
      inError r + inSuccess r
      = inError res + inSuccess res + length (readyOf (importedusers w (tenant_id t))) /\
      fetches (trace w')
      = fetches (trace w)
        + pageCount (limit p) (length (readyOf (importedusers w (tenant_id t)))) + 1 /\
      locks w' = locks w.
Proof.
  intros Hlim Hskip.
  induction fuel as [|fuel IH]; intros res w Hnd Hlt; [lia|].
  rewrite doWhile_S.
  rewrite (bind_ok _ _ _ _ _ (getImportedUsers_confined (tenant_id t) p w)).
  simpl result. rewrite Hskip. simpl skipn.
  set (ready := readyOf (importedusers w (tenant_id t))) in *.
  set (w0 := record (GetImportedUsers (tenant_id t) READY p) w).
  destruct (forEach_complete t (firstn (limit p) ready) (skipn (limit p) ready) res w0)
    as (r1 & w1 & H1 & Hr1 & Hnd1 & Lk1 & Hc1 & Hf1 & L1).
  { exact Hnd. }
  { symmetry. apply firstn_skipn. }
  rewrite (bind_ok _ _ _ _ _ H1).
  destruct (logDebug_cond_confined
              ((0 <? length (firstn (limit p) ready)) && (0 <? inError r1 + inSuccess r1))
              (tenant_id t) (inError r1 + inSuccess r1) total w1)
    as (w2 & H2 & S2 & _ & L2 & Lk2 & Hf2).
  rewrite (bind_ok _ _ _ _ _ H2).
  assert (Hf0 : fetches (trace w0) = fetches (trace w) + 1).
  { unfold w0. simpl. now rewrite fetches_app. }
  assert (Hl0 : lookups (trace w0) = lookups (trace w)).
  { unfold w0. simpl. rewrite lookups_app. simpl. now rewrite app_nil_r. }
  destruct (firstn (limit p) ready) as [|x page] eqn:Hpage.
  - assert (Hready : ready = []).
    { destruct ready as [|y ready']; [reflexivity|].
      destruct (limit p); [lia | discriminate]. }
    exists r1, w2. simpl. rewrite S2, Lk2, Hf2, Lk1, Hf1, Hl0, Hf0, Hr1, Hc1, Hready.
    simpl. rewrite pageCount_0 by exact Hlim.
    repeat split; try lia; [apply skipn_nil | now rewrite L2, L1].
  - simpl negb. cbv iota.
    assert (Hlen : length (skipn (limit p) ready) = length ready - limit p)
      by apply length_skipn.
    assert (Hpos : 0 < length ready).
    { destruct ready; [destruct (limit p); discriminate | simpl; lia]. }
    destruct (IH r1 w2) as (r & w' & H3 & Hr3 & Lk3 & Hc3 & Hf3 & L3).
    { now rewrite S2. }
    { rewrite S2, Hr1, Hlen. lia. }
    exists r, w'. split; [exact H3|]. split; [exact Hr3|].
    rewrite S2, Hr1 in Lk3, Hc3, Hf3.
    split; [|split; [|split]].
    + rewrite Lk3, Lk2, Lk1, Hl0, <- app_assoc, <- map_app.
      rewrite <- Hpage. now rewrite firstn_skipn.
    + rewrite Hc3, Hc1, Hlen.
      assert (length (x :: page) = Nat.min (limit p) (length ready))
        by (rewrite <- Hpage; apply length_firstn).
      lia.
    + rewrite Hf3, Hf2, Hf1, Hf0, Hlen.
      rewrite (pageCount_step (limit p) (length ready)) by assumption. lia.
    + now rewrite L3, L2, L1.
Qed.

End Confined.
End Pagination.

(** *** The run: lock, pass, exception log, release *)

Lemma readyCount_le (l : list ImportedUser) : length (readyOf l) <= length l.
Proof.
  induction l as [|a l IH]; simpl; [lia|]. destruct (isReady a); simpl; lia.
Qed.

Lemma lock_eqb_refl (l : Lock) : lock_eqb l l = true.
Proof. unfold lock_eqb. now rewrite !String.eqb_refl. Qed.

Lemma held_released (l : Lock) (ls : list Lock) :
  held l (filter (fun x => negb (lock_eqb l x)) ls) = false.
Proof.
  unfold held. induction ls as [|a ls IH]; simpl; [reflexivity|].
  destruct (lock_eqb l a) eqn:E; simpl; [exact IH|]. now rewrite E.
Qed.

Section Run.

Variable IMPORT_PAGE_SIZE : nat.
Variable faults : nat -> Op -> option string.

Lemma fetchFaultAborts_issues {A : Type} (c : M A) :
  issues (fun op => negb (isFetch op)) c -> fetchFaultAborts faults c.
Proof.
  intros Hc w out w' H. destruct (Hc _ _ _ H) as (_ & evs & T & F).
  exists evs. split; [exact T|]. intros i op m Hi Hop _.
  apply nth_error_In in Hi. rewrite forallb_forall in F.
  specialize (F op Hi). rewrite Hop in F. discriminate.
Qed.

Lemma fetchFaultAborts_bind {A B : Type} (c : M A) (k : A -> M B) :
  fetchFaultAborts faults c -> (forall a, fetchFaultAborts faults (k a)) ->
  fetchFaultAborts faults (bind c k).
Proof.
  intros Hc Hk w out w' H.
  apply bind_inv in H as [(a & w1 & H1 & H2) | [(e & H1 & ->) | (H1 & ->)]].
  - destruct (Hc _ _ _ H1) as (evs1 & T1 & F1).
    destruct (Hk a _ _ _ H2) as (evs2 & T2 & F2).
    exists (evs1 ++ evs2). split; [now rewrite T2, T1, app_assoc|].
    intros i op m Hi Hop Hf.
    destruct (Nat.lt_ge_cases i (length evs1)) as [Hlt|Hge].
    + rewrite nth_error_app1 in Hi by exact Hlt.
      destruct (F1 i op m Hi Hop Hf) as [[=] _].
    + rewrite nth_error_app2 in Hi by exact Hge.
      destruct (F2 (i - length evs1) op m Hi Hop) as [-> E].
      { rewrite T1, length_app.
        replace (length (trace w) + length evs1 + (i - length evs1))
          with (length (trace w) + i) by lia.
        exact Hf. }
      split; [reflexivity|]. rewrite length_app. lia.
  - destruct (Hc _ _ _ H1) as (evs1 & T1 & F1).
    exists evs1. split; [exact T1|]. intros i op m Hi Hop Hf.
    destruct (F1 i op m Hi Hop Hf) as [[= ->] E]. now split.
  - destruct (Hc _ _ _ H1) as (evs1 & T1 & F1).
    exists evs1. split; [exact T1|]. intros i op m Hi Hop Hf.
    destruct (F1 i op m Hi Hop Hf) as [[=] _].
Qed.

Lemma fetchFaultAborts_ret {A : Type} (a : A) : fetchFaultAborts faults (ret a).
Proof. apply fetchFaultAborts_issues, issues_ret. Qed.

Lemma fetchFaultAborts_getImportedUsers (t : TenantID) (s : ImportStatus) (p : DbParams) :
  fetchFaultAborts faults (getImportedUsers faults t s p).
Proof.
  intros w out w'. unfold getImportedUsers, io.
  destruct (faults (length (trace w)) _) eqn:E; intros [= <- <-]; simpl.
  all: eexists; split; [reflexivity|]; intros [|i] op m Hi Hop Hf; simpl in Hi.
  all: try (destruct i; discriminate).
  all: injection Hi as <-; rewrite Nat.add_0_r in Hf.
  - split; [congruence | reflexivity].
  - congruence.
Qed.

Lemma fetchFaultAborts_doWhile (t : Tenant) (p : DbParams) (total : nat) (fuel : nat) :
  forall res, fetchFaultAborts faults (doWhile faults fuel t p total res).
Proof.
  induction fuel as [|fuel IH]; intros res.
  - intros w out w' [= <- <-]. exists []. rewrite app_nil_r. split; [reflexivity|].
    intros [|i] op m Hi; discriminate.
  - rewrite doWhile_S.
    apply fetchFaultAborts_bind; [apply fetchFaultAborts_getImportedUsers|].
    intros d. apply fetchFaultAborts_bind.
    { apply fetchFaultAborts_issues.
      apply (issues_mono isPerRecord); [|apply forEach_issues].
      intros op H. now destruct op. }
    intros r1. apply fetchFaultAborts_bind.
    { destruct (_ && _); [|apply fetchFaultAborts_ret].
      apply fetchFaultAborts_issues. now apply issues_io_pure. }
    intros _. destruct (negb _); [apply IH | apply fetchFaultAborts_ret].
Qed.

Lemma fetchFaultAborts_importUsers (t : Tenant) :
  fetchFaultAborts faults (importUsers IMPORT_PAGE_SIZE faults t).
Proof.
  unfold importUsers.
  apply fetchFaultAborts_bind.
  { apply fetchFaultAborts_issues. now apply issues_io_pure. }
  intros total. apply fetchFaultAborts_bind.
  { destruct (0 <? total); [|apply fetchFaultAborts_ret].
    apply fetchFaultAborts_issues. now apply issues_io_pure. }
  intros _. apply fetchFaultAborts_bind.
  { intros w out w' H. exact (fetchFaultAborts_doWhile _ _ _ _ _ _ _ _ H). }
  intros r. apply fetchFaultAborts_issues. now apply issues_io_pure.
Qed.

Lemma importUsers_issues (t : Tenant) :
  issues isPassOp (importUsers IMPORT_PAGE_SIZE faults t).
Proof.
  unfold importUsers.
  apply issues_bind; [now apply issues_io_pure|].
  intros total. apply issues_bind.
  { destruct (0 <? total); [now apply issues_io_pure | apply issues_ret]. }
  intros _. apply issues_bind.
  { intros w out w' H. revert H.
    apply (issues_mono isLoopOp); [|apply (doWhile_issues faults)].
    intros op Hop. now destruct op. }
  intros r. now apply issues_io_pure.
Qed.

(** The pass always returns or throws: the fuel given to the loop is enough. *)
Lemma importUsers_terminates (t : Tenant) :
  terminates (importUsers IMPORT_PAGE_SIZE faults t).
Proof.
  unfold importUsers.
  apply terminates_bind; [apply terminates_io|].
  intros total. apply terminates_bind.
  { destruct (0 <? total); [apply terminates_io | apply terminates_ret]. }
  intros _. apply terminates_bind.
  { intros w out w' H. apply doWhile_terminates in H; [exact H|].
    pose proof (readyCount_le (importedusers w (tenant_id t))). lia. }
  intros r. apply terminates_io.
Qed.

Lemma processTenant_acquired (t : Tenant) (w : World) :
  held (importLock t) (locks w) = false ->
  processTenant IMPORT_PAGE_SIZE faults t w =
  try_finally
    (try_catch (importUsers IMPORT_PAGE_SIZE faults t)
               (fun error => logActionExceptionMessage faults (tenant_id t) error))
    (release (importLock t))
    (setLocks (importLock t :: locks w) (record (CreateImportUsersLock (importLock t)) w)).
Proof.
  intros H. unfold processTenant, bind, createImportUsersLock. simpl.
  unfold importLock in H. now rewrite H.
Qed.

Lemma processTenant_denied (t : Tenant) (w : World) :
  held (importLock t) (locks w) = true ->
  processTenant IMPORT_PAGE_SIZE faults t w =
  (Ok tt, record (CreateImportUsersLock (importLock t)) w).
Proof.
  intros H. unfold processTenant, bind, createImportUsersLock. simpl.
  unfold importLock in H. now rewrite H.
Qed.

(** The shape of every run that acquired the lock: the pass runs from
    the world [w0] reached by the acquisition to some world [w1]; a
    thrown error is handed to the exception log; the release is the
    last call, and the lock is free afterwards. *)
Lemma processTenant_shape (t : Tenant) (w : World) (out : Res unit) (w' : World) :
  held (importLock t) (locks w) = false ->
  processTenant IMPORT_PAGE_SIZE faults t w = (out, w') ->
  exists o1 w1 tail,
    importUsers IMPORT_PAGE_SIZE faults t
      (setLocks (importLock t :: locks w)
                (record (CreateImportUsersLock (importLock t)) w)) = (o1, w1) /\
    match o1 with
    | Ok _ => tail = []
    | Throw e => tail = [LogActionExceptionMessage (tenant_id t) e]
    | Diverge => False
    end /\
    trace w' = trace w1 ++ tail ++ [Release (importLock t)] /\
    importedusers w' = importedusers w1 /\ users w' = users w1 /\
    out = match o1 with
          | Ok _ => Ok tt
          | Throw e =>
              match faults (length (trace w1))
                           (LogActionExceptionMessage (tenant_id t) e) with
              | Some m => Throw m
              | None => Ok tt
              end
          | Diverge => Diverge
          end /\
    held (importLock t) (locks w') = false.
Proof.
  intros Hfree H. rewrite (processTenant_acquired t w Hfree) in H.
  unfold try_finally, try_catch in H.
  destruct (importUsers _ _ _ _) as [o1 w1] eqn:H1.
  pose proof (importUsers_terminates t _ _ _ H1) as Hterm.
  destruct (importUsers_issues t _ _ _ H1) as (L1 & _).
  simpl in L1.
  exists o1, w1.
  destruct o1 as [[]|e|]; [| |contradiction].
  - exists []. simpl in H. inversion H; subst; simpl.
    repeat split. rewrite L1. apply held_released.
  - exists [LogActionExceptionMessage (tenant_id t) e].
    unfold logActionExceptionMessage, io in H.
    destruct (faults _ _); simpl in H; inversion H; subst; simpl.
    all: rewrite <- app_assoc; simpl.
    all: repeat split; rewrite L1; apply held_released.
Qed.

(** Every run returns or throws: the loop never runs out of fuel. *)
Lemma processTenant_terminates (t : Tenant) :
  terminates (processTenant IMPORT_PAGE_SIZE faults t).
Proof.
  intros w out w' H.
  destruct (held (importLock t) (locks w)) eqn:Hheld.
  - rewrite (processTenant_denied t w Hheld) in H. now inversion H.
  - destruct (processTenant_shape t w out w' Hheld H)
      as (o1 & w1 & tail & _ & Htail & _ & _ & _ & -> & _).
    destruct o1 as [a|e|]; [discriminate| |contradiction].
    destruct (faults _ _); discriminate.
Qed.

End Run.

(** *** Properties of every run *)

Section RunProperties.

Variable IMPORT_PAGE_SIZE : nat.
Variable faults : nat -> Op -> option string.

(** Claim C1.  In every run of [processTenant] that acquires the import
    lock, whichever calls fault (a merge call, a page fetch, the result
    report or any other), the run returns or throws, its last call is the
    release of that lock, the lock is free afterwards, and a subsequent
    acquisition for the same tenant and purpose succeeds. *)
Theorem lock_released_on_every_exit (t : Tenant) (w : World) (out : Res unit) (w' : World) :
  held (importLock t) (locks w) = false ->
  processTenant IMPORT_PAGE_SIZE faults t w = (out, w') ->
  out <> Diverge /\
  (exists tr, trace w' = tr ++ [Release (importLock t)]) /\
  held (importLock t) (locks w') = false /\
  fst (createImportUsersLock (tenant_id t) w') = Ok (Some (importLock t)).
Proof.
  intros Hfree H.
  destruct (processTenant_shape IMPORT_PAGE_SIZE faults t w out w' Hfree H)
    as (o1 & w1 & tail & H1 & Htail & T & _ & _ & Hout & Hheld).
  split; [|split; [|split]].
  - subst out. destruct o1 as [a|e|]; [discriminate| |contradiction].
    destruct (faults _ _); discriminate.
  - exists (trace w1 ++ tail). now rewrite T, app_assoc.
  - exact Hheld.
  - unfold createImportUsersLock. simpl. unfold importLock in Hheld.
    now rewrite Hheld.
Qed.

(** Claim C2.  When the acquisition returns no lock, [processTenant]
    returns normally at once: the acquisition attempt is the only call it
    issues (no store call, no error log), and the staging store, the
    canonical store and the lock table are unchanged. *)
Theorem lock_denied_no_writes (t : Tenant) (w : World) :
  fst (createImportUsersLock (tenant_id t) w) = Ok None ->
  exists w',
    processTenant IMPORT_PAGE_SIZE faults t w = (Ok tt, w') /\
    trace w' = trace w ++ [CreateImportUsersLock (importLock t)] /\
    importedusers w' = importedusers w /\
    users w' = users w /\
    locks w' = locks w.
Proof.
  intros H.
  assert (Hheld : held (importLock t) (locks w) = true).
  { unfold createImportUsersLock in H. simpl in H. unfold importLock.
    destruct (held _ _); [reflexivity | discriminate]. }
  rewrite (processTenant_denied IMPORT_PAGE_SIZE faults t w Hheld).
  eexists. split; [reflexivity|]. simpl. repeat split.
Qed.

(** Claim C9, as amended.  Whenever a page fetch faults during a run, at any
    position [n] of the call history and with any message [m], the run
    issues exactly two more calls: the hand-over of [m] to the generic
    exception log of the catch block (lines 126-128) and the release of
    the lock.  No candidate is looked up or written after the fault, the
    lock is free afterwards, and the run returns normally unless the
    exception log itself faults. *)
Theorem page_fetch_fault_aborts (t : Tenant) (w : World) (out : Res unit) (w' : World)
  (n : nat) (op : Op) (m : string) :
  processTenant IMPORT_PAGE_SIZE faults t w = (out, w') ->
  length (trace w) <= n ->
  nth_error (trace w') n = Some op -> isFetch op = true ->
  faults n op = Some m ->
  trace w' = firstn (S n) (trace w')
             ++ [LogActionExceptionMessage (tenant_id t) m; Release (importLock t)] /\
  held (importLock t) (locks w') = false /\
  out = match faults (S n) (LogActionExceptionMessage (tenant_id t) m) with
        | Some m' => Throw m'
        | None => Ok tt
        end.
Proof.
  intros H Hn Hop Hfetch Hfault.
  destruct (held (importLock t) (locks w)) eqn:Hheld.
  - rewrite (processTenant_denied IMPORT_PAGE_SIZE faults t w Hheld) in H.
    inversion H; subst. simpl in Hop.
    rewrite nth_error_app2 in Hop by exact Hn.
    destruct (n - length (trace w)) as [|k]; simpl in Hop.
    + inversion Hop; subst. discriminate.
    + destruct k; discriminate.
  - destruct (processTenant_shape IMPORT_PAGE_SIZE faults t w out w' Hheld H)
      as (o1 & w1 & tail & H1 & Htail & T & _ & _ & Hout & Hfree).
    destruct (fetchFaultAborts_importUsers IMPORT_PAGE_SIZE faults t _ _ _ H1)
      as (evs & T1 & F).
    simpl in T1.
    assert (Hlen : length (trace w1) = length (trace w) + 1 + length evs).
    { rewrite T1, !length_app. simpl. lia. }
    rewrite T in Hop.
    destruct (Nat.lt_ge_cases n (length (trace w1))) as [Hlt|Hge].
    + rewrite nth_error_app1 in Hop by exact Hlt.
      rewrite T1 in Hop.
      destruct (Nat.eq_dec n (length (trace w))) as [->|Hne].
      * rewrite nth_error_app1 in Hop by (rewrite length_app; simpl; lia).
        rewrite nth_error_app2 in Hop by lia.
        rewrite Nat.sub_diag in Hop. inversion Hop; subst. discriminate.
      * rewrite nth_error_app2 in Hop by (rewrite length_app; simpl; lia).
        rewrite length_app in Hop. simpl in Hop.
        destruct (F _ op m Hop Hfetch) as [-> Hlast].
        { simpl. rewrite length_app. simpl.
          replace (length (trace w) + 1 + (n - (length (trace w) + 1))) with n by lia.
          exact Hfault. }
        assert (HSn : S n = length (trace w1)) by lia.
        subst tail. split; [|split].
        -- rewrite T, HSn. rewrite firstn_app, firstn_all, Nat.sub_diag.
           simpl. now rewrite app_nil_r.
        -- exact Hfree.
        -- now rewrite Hout, HSn.
    + rewrite nth_error_app2 in Hop by exact Hge.
      destruct o1 as [a|e|]; [| |contradiction]; subst tail; simpl in Hop.
      * destruct (n - length (trace w1)) as [|k]; simpl in Hop.
        -- inversion Hop; subst. discriminate.
        -- destruct k; discriminate.
      * destruct (n - length (trace w1)) as [|[|k]]; simpl in Hop.
        -- inversion Hop; subst. discriminate.
        -- inversion Hop; subst. discriminate.
        -- destruct k; discriminate.
Qed.

Section Confined.
Hypothesis Hconf : confined faults.

Lemma forEach_confined (t : Tenant) (page : list ImportedUser) :
  forall (res : ActionsResponse) (w : World),
  exists r w', forEach faults t page res w = (Ok r, w').
Proof.
  induction page as [|x page IH]; intros res w; simpl.
  - now exists res, w.
  - destruct (importOne_confined faults t x res w Hconf) as (r1 & w1 & H1).
    rewrite (bind_ok _ _ _ _ _ H1). apply IH.
Qed.

(** With faults confined to the merge calls the loop returns normally. *)
Lemma doWhile_confined (t : Tenant) (p : DbParams) (total : nat) (fuel : nat) :
  forall (res : ActionsResponse) (w : World),
    length (readyOf (importedusers w (tenant_id t))) < fuel ->
    exists r w', doWhile faults fuel t p total res w = (Ok r, w').
Proof.
  induction fuel as [|fuel IH]; intros res w Hlt; [lia|].
  rewrite doWhile_S.
  rewrite (bind_ok _ _ _ _ _ (getImportedUsers_confined faults Hconf (tenant_id t) p w)).
  simpl result.
  destruct (forEach_confined t
              (firstn (limit p) (skipn (skip p) (readyOf (importedusers w (tenant_id t)))))
              res (record (GetImportedUsers (tenant_id t) READY p) w))
    as (r1 & w1 & H1).
  rewrite (bind_ok _ _ _ _ _ H1).
  match goal with
  | |- context [bind (if ?b then _ else _)] =>
      destruct (logDebug_cond_confined faults Hconf b (tenant_id t)
                  (inError r1 + inSuccess r1) total w1)
        as (w2 & H2 & S2 & _)
  end.
  rewrite (bind_ok _ _ _ _ _ H2).
  destruct (firstn _ _) as [|x page] eqn:Hpage.
  - now exists r1, w2.
  - simpl negb. cbv iota.
    apply page_head_ready in Hpage as [Hin Hr].
    apply forEach_progress in H1; [|exact Hin|exact Hr]. simpl in H1.
    apply IH. rewrite S2. lia.
Qed.

(** A pass whose first page is empty: one count, one fetch, the report
    of zero processed, and nothing else. *)
Lemma importUsers_drained (t : Tenant) (w : World) :
  firstn IMPORT_PAGE_SIZE (readyOf (importedusers w (tenant_id t))) = [] ->
  exists w',
    importUsers IMPORT_PAGE_SIZE faults t w = (Ok tt, w') /\
    importedusers w' = importedusers w /\ users w' = users w /\ locks w' = locks w /\
    exists evs, trace w' = trace w ++ evs /\ forallb isIdle evs = true /\
                In (LogActionsResponse (tenant_id t) (mkActionsResponse 0 0)) evs.
Proof.
  intros Hpage. unfold importUsers, getImportedUsersCount.
  rewrite (bind_ok _ _ _ _ _ (io_ok faults _ _ w (Hconf _ (GetImportedUsersCount _) eq_refl))).
  simpl fst. simpl snd.
  set (total := length _).
  set (w0 := record (GetImportedUsersCount (tenant_id t)) w).
  assert (Hinfo : exists w1 pre,
             (if 0 <? total then logInfo faults (tenant_id t) total else ret tt) w0
             = (Ok tt, w1) /\
             importedusers w1 = importedusers w /\ users w1 = users w /\
             locks w1 = locks w /\ trace w1 = trace w ++ pre /\ forallb isIdle pre = true).
  { destruct (0 <? total).
    - unfold logInfo.
      rewrite (io_ok faults _ _ w0 (Hconf _ (LogInfo _ _) eq_refl)). simpl.
      exists (record (LogInfo (tenant_id t) total) w0).
      exists [GetImportedUsersCount (tenant_id t); LogInfo (tenant_id t) total].
      split; [reflexivity|]. unfold w0. simpl. rewrite <- app_assoc.
      repeat split.
    - exists w0, [GetImportedUsersCount (tenant_id t)].
      split; [reflexivity|]. unfold w0. simpl. repeat split. }
  destruct Hinfo as (w1 & pre & H1 & S1 & U1 & L1 & T1 & F1).
  rewrite (bind_ok _ _ _ _ _ H1).
  assert (H2 : doWhile faults (S (length (importedusers w1 (tenant_id t)))) t
                 (mkDbParams IMPORT_PAGE_SIZE 0) total (mkActionsResponse 0 0) w1
               = (Ok (mkActionsResponse 0 0),
                  record (GetImportedUsers (tenant_id t) READY
                            (mkDbParams IMPORT_PAGE_SIZE 0)) w1)).
  { rewrite doWhile_S.
    rewrite (bind_ok _ _ _ _ _ (getImportedUsers_confined faults Hconf _ _ w1)).
    simpl. rewrite S1, Hpage. reflexivity. }
  rewrite (bind_ok
             (fun w => doWhile faults (S (length (importedusers w (tenant_id t)))) t
                               (mkDbParams IMPORT_PAGE_SIZE 0) total
                               (mkActionsResponse 0 0) w) _ w1 _ _ H2).
  unfold logActionsResponse.
  rewrite (io_ok faults _ _ _ (Hconf _ (LogActionsResponse _ _) eq_refl)). simpl.
  eexists. split; [reflexivity|]. simpl.
  split; [exact S1|]. split; [exact U1|]. split; [exact L1|].
  eexists. split.
  - rewrite T1. rewrite <- !app_assoc. reflexivity.
  - split.
    + rewrite forallb_app, F1. reflexivity.
    + apply in_or_app. right. simpl. tauto.
Qed.

(** Every pass returns normally, its report being the last call, and
    leaves no READY record within reach of the query. *)
Lemma importUsers_confined (t : Tenant) (w : World) :
  exists wa r wb,
    importedusers wa = importedusers w /\ locks wa = locks w /\
    lookups (trace wa) = lookups (trace w) /\
    fetches (trace wa) = fetches (trace w) /\
    doWhile faults (S (length (importedusers wa (tenant_id t)))) t
            (mkDbParams IMPORT_PAGE_SIZE 0)
            (length (importedusers w (tenant_id t))) (mkActionsResponse 0 0) wa
    = (Ok r, wb) /\
    importUsers IMPORT_PAGE_SIZE faults t w
    = (Ok tt, record (LogActionsResponse (tenant_id t) r) wb).
Proof.
  unfold importUsers, getImportedUsersCount.
  rewrite (bind_ok _ _ _ _ _ (io_ok faults _ _ w (Hconf _ (GetImportedUsersCount _) eq_refl))).
  simpl fst. simpl snd.
  set (total := length _).
  set (w0 := record (GetImportedUsersCount (tenant_id t)) w).
  assert (Hinfo : exists w1,
             (if 0 <? total then logInfo faults (tenant_id t) total else ret tt) w0
             = (Ok tt, w1) /\
             importedusers w1 = importedusers w /\ locks w1 = locks w /\
             lookups (trace w1) = lookups (trace w) /\
             fetches (trace w1) = fetches (trace w)).
  { destruct (0 <? total).
    - unfold logInfo.
      rewrite (io_ok faults _ _ w0 (Hconf _ (LogInfo _ _) eq_refl)). simpl.
      eexists. split; [reflexivity|]. simpl.
      rewrite !lookups_app, !fetches_app. simpl. rewrite !app_nil_r.
      unfold fetches. simpl. repeat split; lia.
    - exists w0. split; [reflexivity|]. simpl.
      rewrite !lookups_app, !fetches_app. simpl. rewrite !app_nil_r.
      unfold fetches. simpl. repeat split; lia. }
  destruct Hinfo as (w1 & H1 & S1 & L1 & Lk1 & Hf1).
  rewrite (bind_ok _ _ _ _ _ H1).
  destruct (doWhile_confined t (mkDbParams IMPORT_PAGE_SIZE 0) total
              (S (length (importedusers w1 (tenant_id t)))) (mkActionsResponse 0 0) w1)
    as (r & wb & H2).
  { pose proof (readyCount_le (importedusers w1 (tenant_id t))). lia. }
  rewrite (bind_ok
             (fun w => doWhile faults (S (length (importedusers w (tenant_id t)))) t
                               (mkDbParams IMPORT_PAGE_SIZE 0) total
                               (mkActionsResponse 0 0) w) _ w1 _ _ H2).
  unfold logActionsResponse.
  rewrite (io_ok faults _ _ _ (Hconf _ (LogActionsResponse _ _) eq_refl)). simpl.
  exists w1, r, wb. repeat split; assumption.
Qed.

End Confined.
End RunProperties.

(** *** Runs that drain the staging store *)

Lemma firstn_nil_inv {A : Type} (n : nat) (l : list A) :
  0 < n -> firstn n l = [] -> l = [].
Proof. destruct n; [lia|]. now destruct l. Qed.

Lemma readyOf_nil_all_error (l : list ImportedUser) :
  readyOf l = [] -> forall x, In x l -> iu_status x = ERROR.
Proof.
  intros H x Hx.
  destruct (iu_status x) eqn:E; [|reflexivity].
  assert (Hin : In x (readyOf l)).
  { apply filter_In. split; [exact Hx|]. unfold isReady. now rewrite E. }
  rewrite H in Hin. contradiction.
Qed.

Lemma pageCount_two (P N : nat) : 0 < P -> P < N -> 2 <= pageCount P N.
Proof.
  intros HP HN.
  rewrite (pageCount_step P N) by lia.
  rewrite (pageCount_step P (N - P)) by lia. lia.
Qed.

Section Draining.

Variable IMPORT_PAGE_SIZE : nat.
Variable faults : nat -> Op -> option string.

(** Claim C7.  With faults confined to the merge calls, a positive page
    size, unique staging ids and the lock free, a run over N READY
    candidates with N greater than the page size returns normally; the
    keys it looks up are exactly those of the READY candidates, each once
    and in staging order; no READY candidate is left; it issues one fetch
    per non-empty page (at least two) plus the final fetch of the empty
    page that ends the loop; and its last two calls are the report, with
    counters adding up to N, and the release of the lock. *)
Theorem pagination_complete (t : Tenant) (w : World) :
  confined faults ->
  0 < IMPORT_PAGE_SIZE ->
  NoDup (map iu_id (importedusers w (tenant_id t))) ->
  held (importLock t) (locks w) = false ->
  IMPORT_PAGE_SIZE < length (readyOf (importedusers w (tenant_id t))) ->
  exists w' r,
    processTenant IMPORT_PAGE_SIZE faults t w = (Ok tt, w') /\
    lookups (trace w')
    = lookups (trace w) ++ map iu_email (readyOf (importedusers w (tenant_id t))) /\
    readyOf (importedusers w' (tenant_id t)) = [] /\
    fetches (trace w')
    = fetches (trace w)
      + pageCount IMPORT_PAGE_SIZE (length (readyOf (importedusers w (tenant_id t)))) + 1 /\
    2 <= pageCount IMPORT_PAGE_SIZE (length (readyOf (importedusers w (tenant_id t)))) /\
    (exists pre, trace w' = pre ++ [LogActionsResponse (tenant_id t) r;
                                    Release (importLock t)]) /\
    inError r + inSuccess r = length (readyOf (importedusers w (tenant_id t))).
Proof.
  intros Hconf Hpos Hnd Hfree Hmany.
  rewrite (processTenant_acquired IMPORT_PAGE_SIZE faults t w Hfree).
  set (w0 := setLocks _ _).
  destruct (importUsers_confined IMPORT_PAGE_SIZE faults Hconf t w0)
    as (wa & r & wb & Sa & La & Lka & Hfa & Hloop & Hpass).
  destruct (doWhile_complete faults Hconf t (mkDbParams IMPORT_PAGE_SIZE 0)
              (length (importedusers w0 (tenant_id t))) Hpos eq_refl
              (S (length (importedusers wa (tenant_id t)))) (mkActionsResponse 0 0) wa)
    as (r' & wb' & Hloop' & Hdone & Hlk & Hcnt & Hft & _).
  { now rewrite Sa. }
  { apply Nat.lt_succ_r, readyCount_le. }
  rewrite Hloop in Hloop'. injection Hloop' as <- <-.
  assert (Hl0 : lookups (trace w0) = lookups (trace w)).
  { unfold w0. simpl. rewrite lookups_app. apply app_nil_r. }
  assert (Hf0 : fetches (trace w0) = fetches (trace w)).
  { unfold w0. simpl. rewrite fetches_app. unfold fetches. simpl. lia. }
  assert (Hs0 : importedusers w0 = importedusers w) by reflexivity.
  rewrite Sa in Hlk, Hcnt, Hft. rewrite Hs0 in Hlk, Hcnt, Hft.
  cbn [limit inError inSuccess] in Hcnt, Hft.
  unfold try_finally, try_catch. rewrite Hpass.
  eexists. exists r. split; [reflexivity|].
  cbn [release record setLocks trace importedusers fst snd].
  rewrite !lookups_app, !fetches_app.
  change (lookups [LogActionsResponse (tenant_id t) r]) with (@nil string).
  change (lookups [Release (importLock t)]) with (@nil string).
  change (fetches [LogActionsResponse (tenant_id t) r]) with 0.
  change (fetches [Release (importLock t)]) with 0.
  rewrite !app_nil_r.
  split; [congruence|]. split; [exact Hdone|]. split; [lia|].
  split; [now apply pageCount_two|]. split; [|simpl in Hcnt; lia].
  exists (trace wb). now rewrite <- app_assoc.
Qed.

(** Claim C8.  With faults confined to the merge calls, a positive page
    size and the lock free, two runs in succession both return normally;
    every record the first run leaves in staging is marked ERROR, so the
    READY query of the second run selects none of them; the second run
    issues no merge call and no store write, leaves both stores as they
    were, and reports inSuccess = 0 and inError = 0. *)
Theorem second_run_is_idle (t : Tenant) (w : World) :
  confined faults ->
  0 < IMPORT_PAGE_SIZE ->
  held (importLock t) (locks w) = false ->
  exists w1 w2,
    processTenant IMPORT_PAGE_SIZE faults t w = (Ok tt, w1) /\
    processTenant IMPORT_PAGE_SIZE faults t w1 = (Ok tt, w2) /\
    (forall x, In x (importedusers w1 (tenant_id t)) -> iu_status x = ERROR) /\
    importedusers w2 = importedusers w1 /\
    users w2 = users w1 /\
    exists evs,
      trace w2 = trace w1 ++ evs /\ forallb isIdle evs = true /\
      In (LogActionsResponse (tenant_id t) (mkActionsResponse 0 0)) evs.
Proof.
  intros Hconf Hpos Hfree.
  pose proof (processTenant_acquired IMPORT_PAGE_SIZE faults t w Hfree) as Hrun1.
  set (w0 := setLocks _ _) in Hrun1.
  destruct (importUsers_confined IMPORT_PAGE_SIZE faults Hconf t w0)
    as (wa & r & wb & Sa & La & _ & _ & Hloop & Hpass).
  pose proof (doWhile_exit faults _ _ _ _ _ _ _ _ Hloop) as Hexit.
  simpl in Hexit.
  unfold try_finally, try_catch in Hrun1. rewrite Hpass in Hrun1.
  cbn [release record setLocks trace importedusers users locks fst snd] in Hrun1.
  match type of Hrun1 with _ = (_, ?x) => set (w1 := x) in * end.
  assert (Hfree1 : held (importLock t) (locks w1) = false).
  { unfold w1. simpl. apply held_released. }
  pose proof (processTenant_acquired IMPORT_PAGE_SIZE faults t w1 Hfree1) as Hrun2.
  set (w1' := setLocks _ _) in Hrun2.
  destruct (importUsers_drained IMPORT_PAGE_SIZE faults Hconf t w1')
    as (w2 & Hpass2 & S2 & U2 & L2 & evs & T2 & F2 & I2).
  { exact Hexit. }
  unfold try_finally, try_catch in Hrun2. rewrite Hpass2 in Hrun2.
  cbn [release record setLocks trace importedusers users locks fst snd] in Hrun2.
  exists w1. eexists. split; [exact Hrun1|]. split; [exact Hrun2|].
  cbn [record setLocks trace importedusers users].
  split; [|split; [exact S2|split; [exact U2|]]].
  - apply readyOf_nil_all_error. now apply (firstn_nil_inv IMPORT_PAGE_SIZE).
  - exists ([CreateImportUsersLock (importLock t)] ++ evs ++ [Release (importLock t)]).
    split; [|split].
    + rewrite T2. unfold w1'. simpl. now rewrite <- !app_assoc.
    + simpl. rewrite forallb_app, F2. reflexivity.
    + simpl. right. apply in_or_app. now left.
Qed.

End Draining.

(** *** The merge decision *)

Lemma idOf_le_max (x : User) (us : list User) :
  In x us -> idOf x <= list_max (map idOf us).
Proof.
  induction us as [|a us IH]; simpl; [tauto|].
  intros [->|H]; [lia|]. specialize (IH H). lia.
Qed.

Lemma freshId_fresh (x : User) (us : list User) :
  In x us -> hasId (freshId us) x = false.
Proof.
  intros H. apply idOf_le_max in H. unfold hasId, freshId, idOf in *.
  destruct (u_id x); [|reflexivity]. apply Nat.eqb_neq. lia.
Qed.

Lemma map_fresh (f : User -> User) (us : list User) :
  map (fun x => if hasId (freshId us) x then f x else x) us = us.
Proof.
  transitivity (map (fun x : User => x) us); [|apply map_id].
  apply map_ext_in. intros x Hx. now rewrite (freshId_fresh x us Hx).
Qed.

Lemma findByEmail_none_count (e : string) (us : list User) :
  findByEmail e us = None ->
  filter (fun x => String.eqb (u_email x) e) us = [].
Proof.
  unfold findByEmail. induction us as [|a us IH]; simpl; [reflexivity|].
  destruct (String.eqb (u_email a) e); [discriminate | exact IH].
Qed.

Lemma findByEmail_In (e : string) (us : list User) (u : User) :
  findByEmail e us = Some u -> In u us /\ u_email u = e.
Proof.
  unfold findByEmail. intros H. apply find_some in H as [H1 H2].
  split; [exact H1 | now apply String.eqb_eq].
Qed.

Lemma findByEmail_snoc (e : string) (us : list User) (u : User) :
  findByEmail e us = None -> u_email u = e -> findByEmail e (us ++ [u]) = Some u.
Proof.
  unfold findByEmail. intros H E. induction us as [|a us IH]; simpl in *.
  - now rewrite E, String.eqb_refl.
  - destruct (String.eqb (u_email a) e); [discriminate | now apply IH].
Qed.

Lemma upsertImported_In (iu : ImportedUser) (l : list ImportedUser) :
  In iu (upsertImported iu l).
Proof.
  unfold upsertImported. destruct (existsb _ l) eqn:E.
  - apply existsb_exists in E as [x [Hx Hid]].
    apply in_map_iff. exists x. now rewrite Hid.
  - apply in_or_app. right. now left.
Qed.

Lemma deleteById_not_In (iu : ImportedUser) (l : list ImportedUser) :
  ~ In iu (deleteById (iu_id iu) l).
Proof.
  unfold deleteById. intros H. apply filter_In in H as [_ H].
  now rewrite Nat.eqb_refl in H.
Qed.

Lemma NoDup_map_inj {A B : Type} (f : A -> B) (l : list A) (x y : A) :
  NoDup (map f l) -> In x l -> In y l -> f x = f y -> x = y.
Proof.
  induction l as [|a l IH]; simpl; [tauto|].
  intros Hnd Hx Hy E. inversion Hnd as [|? ? Hn Hl]; subst.
  destruct Hx as [->|Hx], Hy as [->|Hy]; auto.
  - exfalso. apply Hn. rewrite E. now apply in_map.
  - exfalso. apply Hn. rewrite <- E. now apply in_map.
Qed.

Section MergeDecision.

Variable IMPORT_PAGE_SIZE : nat.
Variable faults : nat -> Op -> option string.

Ltac unfold_ops :=
  unfold importOne, try_catch, mergeDecision, recordError, bind,
    getUserByEmail, saveUser, saveUserRole, saveUserStatus, deleteImportedUser,
    saveImportedUser, logError, io, throw, ret.

Ltac norm :=
  repeat (progress (simpl; rewrite ?length_app; simpl length;
                    rewrite ?Nat.add_1_r, ?upd_same)).

(** The create path of one candidate: when no entity has the candidate's email and
    no merge call faults, the candidate's merge appends exactly one
    entity to the canonical store, with a fresh id, the candidate's
    names, email and provenance, issuer = true, deleted = false, role
    BASIC and status ACTIVE; exactly one entity then has that email; the
    candidate is deleted from staging; inSuccess grows by one and inError
    is unchanged. *)
Theorem create_path (t : Tenant) (iu : ImportedUser) (res : ActionsResponse) (w : World) :
  mergesCleanly faults ->
  findByEmail (iu_email iu) (users w (tenant_id t)) = None ->
  exists w',
    importOne faults t iu res w = (Ok (incSuccess res), w') /\
    users w' (tenant_id t)
    = users w (tenant_id t) ++ [createdUser (freshId (users w (tenant_id t))) iu] /\
    length (filter (fun x => String.eqb (u_email x) (iu_email iu)) (users w' (tenant_id t)))
    = 1 /\
    importedusers w' (tenant_id t) = deleteById (iu_id iu) (importedusers w (tenant_id t)) /\
    ~ In iu (importedusers w' (tenant_id t)) /\
    inSuccess (incSuccess res) = S (inSuccess res) /\
    inError (incSuccess res) = inError res.
Proof.
  intros Hm Hnone. unfold_ops. simpl. rewrite (Hm _ (GetUserByEmail _ _) eq_refl).
  simpl. rewrite Hnone.
  rewrite (Hm _ (SaveUser _ _) eq_refl).
  unfold saveUserStore. simpl.
  rewrite (Hm _ (SaveUserRole _ _ _) eq_refl). simpl.
  rewrite (Hm _ (SaveUserStatus _ _ _) eq_refl). simpl.
  rewrite (Hm _ (DeleteImportedUser _ _) eq_refl). simpl.
  eexists. split; [reflexivity|]. simpl. rewrite !upd_same.
  assert (Hus : setStatusStore (freshId (users w (tenant_id t))) ACTIVE
                  (setRoleStore (freshId (users w (tenant_id t))) BASIC
                     (users w (tenant_id t)
                      ++ [withId (freshId (users w (tenant_id t)))
                                 (withRole None (withStatus None (newUser iu)))]))
                = users w (tenant_id t)
                  ++ [createdUser (freshId (users w (tenant_id t))) iu]).
  { unfold setStatusStore, setRoleStore. rewrite !map_app, !map_fresh. simpl.
    unfold hasId. simpl. rewrite Nat.eqb_refl. simpl. rewrite Nat.eqb_refl.
    reflexivity. }
  rewrite Hus.
  split; [reflexivity|]. split.
  { rewrite filter_app, (findByEmail_none_count _ _ Hnone). simpl.
    now rewrite String.eqb_refl. }
  split; [reflexivity|]. split; [apply deleteById_not_In|]. now split.
Qed.

(** The update path rejecting an entity: the entity is left alone and
    the candidate is saved back marked ERROR. *)
Lemma importOne_rejected (t : Tenant) (iu : ImportedUser) (res : ActionsResponse)
  (w : World) (foundUser : User) :
  recordsErrors faults ->
  faults (length (trace w)) (GetUserByEmail (tenant_id t) (iu_email iu)) = None ->
  findByEmail (iu_email iu) (users w (tenant_id t)) = Some foundUser ->
  u_issuer foundUser = false \/ u_deleted foundUser = true
  \/ u_status foundUser <> Some PENDING ->
  exists w',
    importOne faults t iu res w = (Ok (incError res), w') /\
    users w' = users w /\
    importedusers w' (tenant_id t)
    = upsertImported (markError iu (rejection foundUser)) (importedusers w (tenant_id t)).
Proof.
  intros Hr Hlook Hfound Hviol. unfold_ops. simpl.
  rewrite Hlook. simpl. rewrite Hfound.
  assert (Hcase : (if negb (u_issuer foundUser)
                   then true
                   else if u_deleted foundUser then true
                        else notPending (u_status foundUser)) = true).
  { destruct Hviol as [-> | [-> | Hs]]; [reflexivity | now destruct (u_issuer foundUser) |].
    destruct (u_issuer foundUser), (u_deleted foundUser); try reflexivity.
    simpl. destruct (u_status foundUser) as [[]|]; try reflexivity. now elim Hs. }
  unfold rejection.
  destruct (negb (u_issuer foundUser)) eqn:Hi;
    [|destruct (u_deleted foundUser) eqn:Hd;
      [|destruct (notPending (u_status foundUser)) eqn:Hp; [|discriminate]]].
  all: simpl; rewrite (Hr _ (SaveImportedUser _ _) eq_refl); simpl.
  all: rewrite (Hr _ (LogError _ _) eq_refl); simpl.
  all: eexists; split; [reflexivity|]; simpl; rewrite upd_same.
  all: now split.
Qed.

(** The update path of one candidate, precondition violated: when the lookup finds
    an entity with issuer = false, or deleted = true, or a status other
    than PENDING (and neither the lookup nor the recording of the error
    faults), the canonical store is unchanged, the candidate is saved
    back in staging with status ERROR and the check's message as error
    description ("User account is no longer pending" when the entity is
    a local, non-deleted one), inError grows by one and inSuccess is
    unchanged. *)
Theorem update_rejected (t : Tenant) (iu : ImportedUser) (res : ActionsResponse)
  (w : World) (foundUser : User) :
  mergesCleanly faults -> recordsErrors faults ->
  findByEmail (iu_email iu) (users w (tenant_id t)) = Some foundUser ->
  u_issuer foundUser = false \/ u_deleted foundUser = true
  \/ u_status foundUser <> Some PENDING ->
  exists w',
    importOne faults t iu res w = (Ok (incError res), w') /\
    users w' = users w /\
    importedusers w' (tenant_id t)
    = upsertImported (markError iu (rejection foundUser)) (importedusers w (tenant_id t)) /\
    In (markError iu (rejection foundUser)) (importedusers w' (tenant_id t)) /\
    iu_status (markError iu (rejection foundUser)) = ERROR /\
    iu_errorDescription (markError iu (rejection foundUser)) = Some (rejection foundUser) /\
    (u_issuer foundUser = true -> u_deleted foundUser = false ->
     rejection foundUser = ("User account is " ++ "no longer pending")%string) /\
    inError (incError res) = S (inError res) /\
    inSuccess (incError res) = inSuccess res.
Proof.
  intros Hm Hr Hfound Hviol.
  destruct (importOne_rejected t iu res w foundUser Hr
              (Hm _ (GetUserByEmail _ _) eq_refl) Hfound Hviol)
    as (w' & H1 & H2 & H3).
  exists w'. split; [exact H1|]. split; [exact H2|]. split; [exact H3|].
  split; [rewrite H3; apply upsertImported_In|].
  repeat split.
  intros Hi Hd. unfold rejection. now rewrite Hi, Hd.
Qed.

(** The update path of one candidate, preconditions met: when the lookup finds an
    entity with issuer = true, deleted = false and status PENDING, in a
    canonical store with unique ids, and no merge call faults, the merge
    replaces the name and firstName of that entity by the candidate's and
    leaves every other field of it (its status stays PENDING) and every
    other entity unchanged; the candidate is deleted from staging;
    inSuccess grows by one and inError is unchanged. *)
Theorem update_path (t : Tenant) (iu : ImportedUser) (res : ActionsResponse)
  (w : World) (foundUser : User) (id : nat) :
  mergesCleanly faults ->
  NoDup (map u_id (users w (tenant_id t))) ->
  findByEmail (iu_email iu) (users w (tenant_id t)) = Some foundUser ->
  u_id foundUser = Some id ->
  u_issuer foundUser = true -> u_deleted foundUser = false ->
  u_status foundUser = Some PENDING ->
  exists w',
    importOne faults t iu res w = (Ok (incSuccess res), w') /\
    users w' (tenant_id t)
    = map (fun x =>
             if hasId id x
             then mkUser (u_id x) (iu_firstName iu) (iu_name iu) (u_email x) (u_locale x)
                         (u_issuer x) (u_deleted x) (u_role x) (u_status x)
                         (u_createdBy x) (u_createdOn x) (u_notificationsActive x)
             else x)
          (users w (tenant_id t)) /\
    (forall x, In x (users w (tenant_id t)) -> hasId id x = true -> x = foundUser) /\
    findByEmail (iu_email iu) (users w' (tenant_id t))
    = Some (mkUser (Some id) (iu_firstName iu) (iu_name iu) (u_email foundUser)
                   (u_locale foundUser) true false (u_role foundUser) (Some PENDING)
                   (u_createdBy foundUser) (u_createdOn foundUser)
                   (u_notificationsActive foundUser)) /\
    importedusers w' (tenant_id t) = deleteById (iu_id iu) (importedusers w (tenant_id t)) /\
    ~ In iu (importedusers w' (tenant_id t)) /\
    inSuccess (incSuccess res) = S (inSuccess res) /\
    inError (incSuccess res) = inError res.
Proof.
  intros Hm Hnd Hfound Hid Hi Hd Hs.
  destruct (findByEmail_In _ _ _ Hfound) as [Hin Hemail].
  assert (Huniq : forall x, In x (users w (tenant_id t)) -> hasId id x = true ->
                            x = foundUser).
  { intros x Hx Hx'. apply (NoDup_map_inj u_id (users w (tenant_id t))); auto.
    unfold hasId in Hx'. destruct (u_id x) as [i|]; [|discriminate].
    apply Nat.eqb_eq in Hx'. congruence. }
  unfold_ops. simpl.
  rewrite (Hm _ (GetUserByEmail _ _) eq_refl). simpl. rewrite Hfound, Hi, Hd, Hs. simpl.
  rewrite (Hm _ (SaveUser _ _) eq_refl).
  unfold saveUserStore. simpl. rewrite Hid.
  assert (Hex : existsb (hasId id) (users w (tenant_id t)) = true).
  { apply existsb_exists. exists foundUser. split; [exact Hin|].
    unfold hasId. rewrite Hid. apply Nat.eqb_refl. }
  rewrite Hex. simpl.
  rewrite (Hm _ (DeleteImportedUser _ _) eq_refl). simpl.
  eexists. split; [reflexivity|]. simpl. rewrite !upd_same.
  assert (Hmap : map (fun x =>
                        if hasId id x
                        then withRole (u_role x)
                               (withStatus (u_status x)
                                  (withNames (iu_name iu) (iu_firstName iu) foundUser))
                        else x) (users w (tenant_id t))
                 = map (fun x =>
                          if hasId id x
                          then mkUser (u_id x) (iu_firstName iu) (iu_name iu) (u_email x)
                                 (u_locale x) (u_issuer x) (u_deleted x) (u_role x)
                                 (u_status x) (u_createdBy x) (u_createdOn x)
                                 (u_notificationsActive x)
                          else x) (users w (tenant_id t))).
  { apply map_ext_in. intros x Hx. destruct (hasId id x) eqn:E; [|reflexivity].
    now rewrite (Huniq x Hx E). }
  rewrite Hmap.
  split; [reflexivity|]. split; [exact Huniq|].
  split; [|split; [reflexivity|split; [apply deleteById_not_In|now split]]].
  clear Hmap Hex. unfold findByEmail in *.
  induction (users w (tenant_id t)) as [|a us IH]; simpl in *; [discriminate|].
  destruct (hasId id a) eqn:Ea.
  - assert (a = foundUser) by (apply Huniq; auto). subst a. simpl.
    rewrite Hemail, String.eqb_refl. now rewrite Hid, Hi, Hd, Hs.
  - destruct (String.eqb (u_email a) (iu_email iu)) eqn:Ee.
    + injection Hfound as ->. unfold hasId in Ea. rewrite Hid, Nat.eqb_refl in Ea.
      discriminate.
    + apply IH; auto.
      * now inversion Hnd.
      * destruct Hin as [->|Hin]; [|exact Hin].
        rewrite Hemail, String.eqb_refl in Ee. discriminate.
Qed.


(** Claim C10, as amended.  When the create path persists the new entity
    and then faults on the role or on the status write (the recording of
    the error not faulting), the candidate is marked ERROR with the
    fault's message and inError grows by one, and the entity stays in the
    canonical store with its status unset.  A later retry of the same
    candidate, from any world with that canonical store, does not
    succeed: the update path rejects the entity since its status is not
    PENDING, the canonical store is left as it was, and the candidate is
    marked ERROR again. *)
Theorem partial_create_not_recovered (t : Tenant) (iu : ImportedUser)
  (res : ActionsResponse) (w : World) (m : string) :
  recordsErrors faults ->
  findByEmail (iu_email iu) (users w (tenant_id t)) = None ->
  faults (length (trace w)) (GetUserByEmail (tenant_id t) (iu_email iu)) = None ->
  faults (S (length (trace w))) (SaveUser (tenant_id t) (newUser iu)) = None ->
  faults (S (S (length (trace w))))
         (SaveUserRole (tenant_id t) (freshId (users w (tenant_id t))) BASIC) = Some m
  \/ (faults (S (S (length (trace w))))
             (SaveUserRole (tenant_id t) (freshId (users w (tenant_id t))) BASIC) = None /\
      faults (S (S (S (length (trace w)))))
             (SaveUserStatus (tenant_id t) (freshId (users w (tenant_id t))) ACTIVE)
      = Some m) ->
  exists w1 partial,
    importOne faults t iu res w = (Ok (incError res), w1) /\
    users w1 (tenant_id t) = users w (tenant_id t) ++ [partial] /\
    u_id partial = Some (freshId (users w (tenant_id t))) /\
    u_email partial = iu_email iu /\
    u_issuer partial = true /\ u_deleted partial = false /\
    u_status partial = None /\
    In (markError iu m) (importedusers w1 (tenant_id t)) /\
    forall w2 res2,
      users w2 (tenant_id t) = users w1 (tenant_id t) ->
      faults (length (trace w2)) (GetUserByEmail (tenant_id t) (iu_email iu)) = None ->
      exists w3,
        importOne faults t iu res2 w2 = (Ok (incError res2), w3) /\
        users w3 = users w2 /\
        In (markError iu "User account is no longer pending")
           (importedusers w3 (tenant_id t)).
Proof.
  intros Hr Hnone Hlook Hsave Hsub.
  assert (Hretry : forall partial,
             u_email partial = iu_email iu -> u_issuer partial = true ->
             u_deleted partial = false -> u_status partial = None ->
             forall w2 res2,
               users w2 (tenant_id t) = users w (tenant_id t) ++ [partial] ->
               faults (length (trace w2)) (GetUserByEmail (tenant_id t) (iu_email iu))
               = None ->
               exists w3,
                 importOne faults t iu res2 w2 = (Ok (incError res2), w3) /\
                 users w3 = users w2 /\
                 In (markError iu "User account is no longer pending")
                    (importedusers w3 (tenant_id t))).
  { intros partial He Hi Hd Hs w2 res2 Hsame Hlook2.
    assert (Hfound : findByEmail (iu_email iu) (users w2 (tenant_id t)) = Some partial).
    { rewrite Hsame. now apply findByEmail_snoc. }
    destruct (importOne_rejected t iu res2 w2 partial Hr Hlook2 Hfound)
      as (w3 & H1 & H2 & H3).
    { right. right. rewrite Hs. discriminate. }
    exists w3. split; [exact H1|]. split; [exact H2|].
    rewrite H3. unfold rejection. rewrite Hi, Hd. simpl. apply upsertImported_In. }
  assert (Hus : setRoleStore (freshId (users w (tenant_id t))) BASIC
                  (users w (tenant_id t)
                   ++ [withId (freshId (users w (tenant_id t)))
                              (withRole None (withStatus None (newUser iu)))])
                = users w (tenant_id t)
                  ++ [withId (freshId (users w (tenant_id t)))
                             (withRole (Some BASIC) (withStatus None (newUser iu)))]).
  { unfold setRoleStore. rewrite map_app, map_fresh. simpl.
    unfold hasId. simpl. now rewrite Nat.eqb_refl. }
  unfold_ops. unfold saveUserStore. norm. rewrite Hlook. norm. rewrite Hnone.
  norm. rewrite Hsave. norm.
  destruct Hsub as [Hrole | [Hrole Hstatus]].
  - rewrite Hrole. norm.
    rewrite (Hr _ (SaveImportedUser _ _) eq_refl). norm.
    rewrite (Hr _ (LogError _ _) eq_refl). norm.
    eexists. eexists. split; [reflexivity|]. norm.
    split; [reflexivity|]. repeat (split; [reflexivity|]).
    split; [apply upsertImported_In|].
    now apply Hretry.
  - rewrite Hrole. norm. rewrite Hstatus. norm.
    rewrite (Hr _ (SaveImportedUser _ _) eq_refl). norm.
    rewrite (Hr _ (LogError _ _) eq_refl). norm.
    eexists. eexists. split; [reflexivity|]. norm.
    rewrite Hus.
    split; [reflexivity|]. repeat (split; [reflexivity|]).
    split; [apply upsertImported_In|].
    now apply Hretry.
Qed.

End MergeDecision.

(** ** The theorems at concrete inputs *)

Lemma lock_released_on_every_exit_witness :
  held (importLock tenantT) (locks (world [alice; bob; carol] [])) = false /\
  exists out w',
    processTenant 2 laterFetchFaults tenantT (world [alice; bob; carol] []) = (out, w') /\
    out <> Diverge /\
    (exists tr, trace w' = tr ++ [Release (importLock tenantT)]) /\
    held (importLock tenantT) (locks w') = false /\
    fst (createImportUsersLock (tenant_id tenantT) w') = Ok (Some (importLock tenantT)).
Proof.
  split; [reflexivity|].
  eexists. eexists. split; [vm_compute; reflexivity|].
  apply (lock_released_on_every_exit 2 laterFetchFaults tenantT
           (world [alice; bob; carol] [])); [reflexivity | vm_compute; reflexivity].
Defined.

Lemma lock_denied_no_writes_witness :
  fst (createImportUsersLock (tenant_id tenantT) (lockedWorld [alice] [])) = Ok None /\
  exists w',
    processTenant 2 noFaults tenantT (lockedWorld [alice] []) = (Ok tt, w') /\
    trace w' = trace (lockedWorld [alice] []) ++ [CreateImportUsersLock (importLock tenantT)] /\
    importedusers w' = importedusers (lockedWorld [alice] []) /\
    users w' = users (lockedWorld [alice] []) /\
    locks w' = locks (lockedWorld [alice] []).
Proof.
  split; [reflexivity|].
  apply (lock_denied_no_writes 2 noFaults tenantT (lockedWorld [alice] [])).
  reflexivity.
Defined.

Lemma create_path_witness :
  mergesCleanly noFaults /\
  findByEmail (iu_email alice) (users (world [alice] []) (tenant_id tenantT)) = None /\
  exists w',
    importOne noFaults tenantT alice (mkActionsResponse 0 0) (world [alice] [])
    = (Ok (incSuccess (mkActionsResponse 0 0)), w') /\
    users w' (tenant_id tenantT)
    = users (world [alice] []) (tenant_id tenantT)
      ++ [createdUser (freshId (users (world [alice] []) (tenant_id tenantT))) alice] /\
    length (filter (fun x => String.eqb (u_email x) (iu_email alice))
                   (users w' (tenant_id tenantT))) = 1 /\
    importedusers w' (tenant_id tenantT)
    = deleteById (iu_id alice) (importedusers (world [alice] []) (tenant_id tenantT)) /\
    ~ In alice (importedusers w' (tenant_id tenantT)) /\
    inSuccess (incSuccess (mkActionsResponse 0 0)) = S (inSuccess (mkActionsResponse 0 0)) /\
    inError (incSuccess (mkActionsResponse 0 0)) = inError (mkActionsResponse 0 0).
Proof.
  split; [intros n op _; reflexivity|]. split; [reflexivity|].
  apply (create_path noFaults tenantT alice (mkActionsResponse 0 0) (world [alice] [])).
  - intros n op _. reflexivity.
  - reflexivity.
Defined.

Lemma update_rejected_witness :
  mergesCleanly noFaults /\ recordsErrors noFaults /\
  findByEmail (iu_email alice) (users (world [alice] [activeAlice]) (tenant_id tenantT))
  = Some activeAlice /\
  (u_issuer activeAlice = false \/ u_deleted activeAlice = true
   \/ u_status activeAlice <> Some PENDING) /\
  exists w',
    importOne noFaults tenantT alice (mkActionsResponse 0 0) (world [alice] [activeAlice])
    = (Ok (incError (mkActionsResponse 0 0)), w') /\
    users w' = users (world [alice] [activeAlice]) /\
    importedusers w' (tenant_id tenantT)
    = upsertImported (markError alice (rejection activeAlice))
        (importedusers (world [alice] [activeAlice]) (tenant_id tenantT)) /\
    In (markError alice (rejection activeAlice)) (importedusers w' (tenant_id tenantT)) /\
    iu_status (markError alice (rejection activeAlice)) = ERROR /\
    iu_errorDescription (markError alice (rejection activeAlice))
    = Some (rejection activeAlice) /\
    (u_issuer activeAlice = true -> u_deleted activeAlice = false ->
     rejection activeAlice = ("User account is " ++ "no longer pending")%string) /\
    inError (incError (mkActionsResponse 0 0)) = S (inError (mkActionsResponse 0 0)) /\
    inSuccess (incError (mkActionsResponse 0 0)) = inSuccess (mkActionsResponse 0 0).
Proof.
  split; [intros n op _; reflexivity|]. split; [intros n op _; reflexivity|].
  split; [reflexivity|]. split; [right; right; discriminate|].
  apply (update_rejected noFaults tenantT alice (mkActionsResponse 0 0)
           (world [alice] [activeAlice]) activeAlice).
  - intros n op _. reflexivity.
  - intros n op _. reflexivity.
  - reflexivity.
  - right. right. discriminate.
Defined.

Lemma update_path_witness :
  mergesCleanly noFaults /\
  NoDup (map u_id (users (world [alice] [pendingAlice]) (tenant_id tenantT))) /\
  findByEmail (iu_email alice) (users (world [alice] [pendingAlice]) (tenant_id tenantT))
  = Some pendingAlice /\
  u_id pendingAlice = Some 7 /\
  u_issuer pendingAlice = true /\ u_deleted pendingAlice = false /\
  u_status pendingAlice = Some PENDING /\
  exists w',
    importOne noFaults tenantT alice (mkActionsResponse 0 0) (world [alice] [pendingAlice])
    = (Ok (incSuccess (mkActionsResponse 0 0)), w') /\
    users w' (tenant_id tenantT)
    = map (fun x =>
             if hasId 7 x
             then mkUser (u_id x) (iu_firstName alice) (iu_name alice) (u_email x)
                         (u_locale x) (u_issuer x) (u_deleted x) (u_role x) (u_status x)
                         (u_createdBy x) (u_createdOn x) (u_notificationsActive x)
             else x)
          (users (world [alice] [pendingAlice]) (tenant_id tenantT)) /\
    (forall x, In x (users (world [alice] [pendingAlice]) (tenant_id tenantT)) ->
               hasId 7 x = true -> x = pendingAlice) /\
    findByEmail (iu_email alice) (users w' (tenant_id tenantT))
    = Some (mkUser (Some 7) (iu_firstName alice) (iu_name alice) (u_email pendingAlice)
                   (u_locale pendingAlice) true false (u_role pendingAlice) (Some PENDING)
                   (u_createdBy pendingAlice) (u_createdOn pendingAlice)
                   (u_notificationsActive pendingAlice)) /\
    importedusers w' (tenant_id tenantT)
    = deleteById (iu_id alice)
        (importedusers (world [alice] [pendingAlice]) (tenant_id tenantT)) /\
    ~ In alice (importedusers w' (tenant_id tenantT)) /\
    inSuccess (incSuccess (mkActionsResponse 0 0)) = S (inSuccess (mkActionsResponse 0 0)) /\
    inError (incSuccess (mkActionsResponse 0 0)) = inError (mkActionsResponse 0 0).
Proof.
  assert (Hnd : NoDup (map u_id (users (world [alice] [pendingAlice]) (tenant_id tenantT)))).
  { simpl. constructor; [simpl; tauto | constructor]. }
  split; [intros n op _; reflexivity|]. split; [exact Hnd|].
  repeat (split; [reflexivity|]).
  apply (update_path noFaults tenantT alice (mkActionsResponse 0 0)
           (world [alice] [pendingAlice]) pendingAlice 7); try reflexivity.
  - intros n op _. reflexivity.
  - exact Hnd.
Defined.


Lemma pagination_complete_witness :
  confined noFaults /\ 0 < 2 /\
  NoDup (map iu_id (importedusers (world [alice; bob; carol] []) (tenant_id tenantT))) /\
  held (importLock tenantT) (locks (world [alice; bob; carol] [])) = false /\
  2 < length (readyOf (importedusers (world [alice; bob; carol] []) (tenant_id tenantT))) /\
  exists w' r,
    processTenant 2 noFaults tenantT (world [alice; bob; carol] []) = (Ok tt, w') /\
    lookups (trace w')
    = lookups (trace (world [alice; bob; carol] []))
      ++ map iu_email
           (readyOf (importedusers (world [alice; bob; carol] []) (tenant_id tenantT))) /\
    readyOf (importedusers w' (tenant_id tenantT)) = [] /\
    fetches (trace w')
    = fetches (trace (world [alice; bob; carol] []))
      + pageCount 2
          (length (readyOf (importedusers (world [alice; bob; carol] [])
                                          (tenant_id tenantT)))) + 1 /\
    2 <= pageCount 2
           (length (readyOf (importedusers (world [alice; bob; carol] [])
                                           (tenant_id tenantT)))) /\
    (exists pre, trace w' = pre ++ [LogActionsResponse (tenant_id tenantT) r;
                                    Release (importLock tenantT)]) /\
    inError r + inSuccess r
    = length (readyOf (importedusers (world [alice; bob; carol] []) (tenant_id tenantT))).
Proof.
  assert (Hnd : NoDup (map iu_id (importedusers (world [alice; bob; carol] [])
                                                (tenant_id tenantT)))).
  { simpl.
    constructor; [simpl; intuition discriminate|].
    constructor; [simpl; intuition discriminate|].
    constructor; [simpl; tauto | constructor]. }
  split; [intros n op _; reflexivity|]. split; [lia|]. split; [exact Hnd|].
  split; [reflexivity|]. split; [simpl; lia|].
  apply (pagination_complete 2 noFaults tenantT (world [alice; bob; carol] [])).
  - intros n op _. reflexivity.
  - lia.
  - exact Hnd.
  - reflexivity.
  - simpl. lia.
Defined.

Lemma second_run_is_idle_witness :
  confined noFaults /\ 0 < 2 /\
  held (importLock tenantT) (locks (world [alice; bob; carol] [activeAlice])) = false /\
  exists w1 w2,
    processTenant 2 noFaults tenantT (world [alice; bob; carol] [activeAlice]) = (Ok tt, w1) /\
    processTenant 2 noFaults tenantT w1 = (Ok tt, w2) /\
    (forall x, In x (importedusers w1 (tenant_id tenantT)) -> iu_status x = ERROR) /\
    importedusers w2 = importedusers w1 /\
    users w2 = users w1 /\
    exists evs,
      trace w2 = trace w1 ++ evs /\ forallb isIdle evs = true /\
      In (LogActionsResponse (tenant_id tenantT) (mkActionsResponse 0 0)) evs.
Proof.
  split; [intros n op _; reflexivity|]. split; [lia|]. split; [reflexivity|].
  apply (second_run_is_idle 2 noFaults tenantT (world [alice; bob; carol] [activeAlice])).
  - intros n op _. reflexivity.
  - lia.
  - reflexivity.
Defined.

Lemma page_fetch_fault_aborts_witness :
  exists out w',
    processTenant 2 laterFetchFaults tenantT (world [alice; bob; carol] []) = (out, w') /\
    length (trace (world [alice; bob; carol] [])) <= 15 /\
    nth_error (trace w') 15 = Some (GetImportedUsers "T" READY (mkDbParams 2 0)) /\
    isFetch (GetImportedUsers "T" READY (mkDbParams 2 0)) = true /\
    laterFetchFaults 15 (GetImportedUsers "T" READY (mkDbParams 2 0))
    = Some "connection lost" /\
    trace w' = firstn 16 (trace w')
               ++ [LogActionExceptionMessage (tenant_id tenantT) "connection lost";
                   Release (importLock tenantT)] /\
    held (importLock tenantT) (locks w') = false /\
    out = match laterFetchFaults 16
                  (LogActionExceptionMessage (tenant_id tenantT) "connection lost") with
          | Some m' => Throw m'
          | None => Ok tt
          end.
Proof.
  eexists. eexists. split; [vm_compute; reflexivity|].
  split; [simpl; lia|]. split; [reflexivity|]. split; [reflexivity|].
  split; [reflexivity|].
  apply (page_fetch_fault_aborts 2 laterFetchFaults tenantT (world [alice; bob; carol] [])
           _ _ 15 (GetImportedUsers "T" READY (mkDbParams 2 0)) "connection lost").
  - vm_compute. reflexivity.
  - simpl. lia.
  - reflexivity.
  - reflexivity.
  - reflexivity.
Defined.

Lemma partial_create_not_recovered_witness :
  recordsErrors roleFaultsOnce /\
  findByEmail (iu_email alice) (users (world [alice] []) (tenant_id tenantT)) = None /\
  roleFaultsOnce (length (trace (world [alice] [])))
                 (GetUserByEmail (tenant_id tenantT) (iu_email alice)) = None /\
  roleFaultsOnce (S (length (trace (world [alice] []))))
                 (SaveUser (tenant_id tenantT) (newUser alice)) = None /\
  roleFaultsOnce (S (S (length (trace (world [alice] [])))))
                 (SaveUserRole (tenant_id tenantT)
                    (freshId (users (world [alice] []) (tenant_id tenantT))) BASIC)
  = Some "role write failed" /\
  exists w1 partial,
    importOne roleFaultsOnce tenantT alice (mkActionsResponse 0 0) (world [alice] [])
    = (Ok (incError (mkActionsResponse 0 0)), w1) /\
    users w1 (tenant_id tenantT)
    = users (world [alice] []) (tenant_id tenantT) ++ [partial] /\
    u_id partial = Some (freshId (users (world [alice] []) (tenant_id tenantT))) /\
    u_email partial = iu_email alice /\
    u_issuer partial = true /\ u_deleted partial = false /\
    u_status partial = None /\
    In (markError alice "role write failed") (importedusers w1 (tenant_id tenantT)) /\
    forall w2 res2,
      users w2 (tenant_id tenantT) = users w1 (tenant_id tenantT) ->
      roleFaultsOnce (length (trace w2))
                     (GetUserByEmail (tenant_id tenantT) (iu_email alice)) = None ->
      exists w3,
        importOne roleFaultsOnce tenantT alice res2 w2 = (Ok (incError res2), w3) /\
        users w3 = users w2 /\
        In (markError alice "User account is no longer pending")
           (importedusers w3 (tenant_id tenantT)).
Proof.
  split; [intros n op H; destruct op; try discriminate; reflexivity|].
  repeat (split; [reflexivity|]).
  apply (partial_create_not_recovered roleFaultsOnce tenantT alice (mkActionsResponse 0 0)
           (world [alice] []) "role write failed").
  - intros n op H. destruct op; try discriminate; reflexivity.
  - reflexivity.
  - reflexivity.
  - reflexivity.
  - left. reflexivity.
Defined.

(** ** Counterexamples and scenarios *)


Lemma partial_create_retry_rejected :
  users (snd (processTenant 10 roleFaultsOnce tenantT (world [alice] []))) "T"
  = [partialAlice] /\
  importedusers (snd (processTenant 10 roleFaultsOnce tenantT (world [alice] []))) "T"
  = [markError alice "role write failed"] /\
  lookups (trace (snd (processTenant 10 roleFaultsOnce tenantT
                         (snd (processTenant 10 roleFaultsOnce tenantT (world [alice] []))))))
  = ["a@x.com"] /\
  users (snd (processTenant 10 roleFaultsOnce tenantT
                (setImportedUsers "T" [alice]
                   (snd (processTenant 10 roleFaultsOnce tenantT (world [alice] [])))))) "T"
  = [partialAlice] /\
  importedusers
    (snd (processTenant 10 roleFaultsOnce tenantT
            (setImportedUsers "T" [alice]
               (snd (processTenant 10 roleFaultsOnce tenantT (world [alice] [])))))) "T"
  = [markError alice "User account is no longer pending"] /\
  lookups
    (trace (snd (processTenant 10 roleFaultsOnce tenantT
                   (setImportedUsers "T" [alice]
                      (snd (processTenant 10 roleFaultsOnce tenantT (world [alice] [])))))))
  = ["a@x.com"; "a@x.com"].
Proof. vm_compute. repeat split. Qed.

Example scenario_create :
  let w' := snd (processTenant 10 noFaults tenantT (world [alice] [])) in
  users w' "T" = [createdUser 1 alice] /\
  importedusers w' "T" = [] /\
  In (LogActionsResponse "T" (mkActionsResponse 0 1)) (trace w').
Proof. vm_compute. repeat split. tauto. Qed.

Example scenario_not_pending :
  let w' := snd (processTenant 10 noFaults tenantT (world [alice] [activeAlice])) in
  users w' "T" = [activeAlice] /\
  importedusers w' "T" = [markError alice "User account is no longer pending"] /\
  In (LogActionsResponse "T" (mkActionsResponse 1 0)) (trace w').
Proof. vm_compute. repeat split. tauto. Qed.

(** ** What a run keeps *)

Section Keeps.

Variable faults : nat -> Op -> option string.

Lemma keeps_ret {A : Type} (Inv : World -> Prop) (a : A) : keeps Inv (ret a).
Proof. intros w out w' H [= <- <-]. exact H. Qed.

Lemma keeps_bind {A B : Type} (Inv : World -> Prop) (c : M A) (k : A -> M B) :
  keeps Inv c -> (forall a, keeps Inv (k a)) -> keeps Inv (bind c k).
Proof.
  intros Hc Hk w out w' HI H.
  apply bind_inv in H as [(a & w1 & H1 & H2) | [(e & H1 & ->) | (H1 & ->)]].
  - exact (Hk a _ _ _ (Hc _ _ _ HI H1) H2).
  - exact (Hc _ _ _ HI H1).
  - exact (Hc _ _ _ HI H1).
Qed.

Lemma keeps_io_pure {A : Type} (Inv : World -> Prop) (op : Op) (f : World -> A) :
  (forall w, Inv w -> Inv (record op w)) ->
  keeps Inv (io faults op (fun w => (f w, w))).
Proof.
  intros Hrec w out w' HI. unfold io.
  destruct (faults _ op); intros [= <- <-]; now apply Hrec.
Qed.

Lemma keeps_try_catch {A : Type} (Inv : World -> Prop) (c : M A) (h : string -> M A) :
  keeps Inv c -> (forall e, keeps Inv (h e)) -> keeps Inv (try_catch c h).
Proof.
  intros Hc Hh w out w' HI. unfold try_catch.
  destruct (c w) as [[a|e|] w1] eqn:H1; intros H.
  - inversion H; subst. exact (Hc _ _ _ HI H1).
  - exact (Hh e _ _ _ (Hc _ _ _ HI H1) H).
  - inversion H; subst. exact (Hc _ _ _ HI H1).
Qed.

Lemma keeps_try_finally {A B : Type} (Inv : World -> Prop) (c : M A) (fin : M B) :
  keeps Inv c -> keeps Inv fin -> keeps Inv (try_finally c fin).
Proof.
  intros Hc Hf w out w' HI. unfold try_finally.
  destruct (c w) as [[a|e|] w1] eqn:H1.
  3: { intros H. inversion H; subst. exact (Hc _ _ _ HI H1). }
  all: destruct (fin w1) as [[b|e'|] w2] eqn:H2; intros H; inversion H; subst.
  all: exact (Hf _ _ _ (Hc _ _ _ HI H1) H2).
Qed.

(** An invariant kept by the recording of a call, by the processing of
    every candidate a page can hold, and by changes of the lock table is
    kept by the whole run. *)
Section Invariant.

Variable IMPORT_PAGE_SIZE : nat.
Variable t : Tenant.
Variable Inv : World -> Prop.
Variable Q : ImportedUser -> Prop.

Hypothesis Inv_record : forall w op, Inv w -> Inv (record op w).
Hypothesis Inv_step : forall iu res, Q iu -> keeps Inv (importOne faults t iu res).
Hypothesis Inv_page :
  forall w x, Inv w -> In x (importedusers w (tenant_id t)) -> isReady x = true -> Q x.
Hypothesis Inv_locks : forall w ls, Inv w -> Inv (setLocks ls w).

Lemma forEach_keeps (page : list ImportedUser) :
  forall res, (forall x, In x page -> Q x) -> keeps Inv (forEach faults t page res).
Proof.
  induction page as [|x page IH]; intros res HQ; simpl.
  - apply keeps_ret.
  - apply keeps_bind.
    + apply Inv_step. apply HQ. now left.
    + intros r. apply IH. intros y Hy. apply HQ. now right.
Qed.

Lemma doWhile_keeps (p : DbParams) (total : nat) (fuel : nat) :
  forall res, keeps Inv (doWhile faults fuel t p total res).
Proof.
  induction fuel as [|fuel IH]; intros res w out w' HI H.
  - inversion H; subst. exact HI.
  - rewrite doWhile_S in H.
    apply bind_inv in H as [(d & w1 & H1 & H2) | [(e & H1 & ->) | (H1 & _)]].
    + apply getImportedUsers_inv in H1 as (-> & Hd & _).
      assert (HI1 : Inv (record (GetImportedUsers (tenant_id t) READY p) w))
        by now apply Inv_record.
      revert H2. apply keeps_bind; [| |exact HI1].
      * apply forEach_keeps. intros x Hx. rewrite Hd in Hx.
        apply In_firstn, In_skipn, readyOf_In in Hx as [Hx Hr].
        exact (Inv_page _ x HI1 Hx Hr).
      * intros r1. apply keeps_bind.
        { destruct (_ && _); [|apply keeps_ret]. apply keeps_io_pure; intros; now apply Inv_record. }
        intros _. destruct (negb _); [apply IH | apply keeps_ret].
    + unfold getImportedUsers, io in H1.
      destruct (faults _ _); inversion H1; subst. now apply Inv_record.
    + now apply terminates_io in H1.
Qed.

Lemma importUsers_keeps : keeps Inv (importUsers IMPORT_PAGE_SIZE faults t).
Proof.
  unfold importUsers.
  apply keeps_bind; [apply keeps_io_pure; intros; now apply Inv_record|].
  intros total. apply keeps_bind.
  { destruct (0 <? total); [apply keeps_io_pure; intros; now apply Inv_record | apply keeps_ret]. }
  intros _. apply keeps_bind.
  { intros w out w' HI H. exact (doWhile_keeps _ _ _ _ _ _ _ HI H). }
  intros r. apply keeps_io_pure; intros; now apply Inv_record.
Qed.

Lemma processTenant_keeps : keeps Inv (processTenant IMPORT_PAGE_SIZE faults t).
Proof.
  unfold processTenant. apply keeps_bind.
  - intros w out w' HI. unfold createImportUsersLock.
    destruct (held _ _); intros [= <- <-]; [|apply Inv_locks]; now apply Inv_record.
  - intros [l|]; [|apply keeps_ret].
    apply keeps_try_finally.
    + apply keeps_try_catch; [apply importUsers_keeps|].
      intros e. apply keeps_io_pure; intros; now apply Inv_record.
    + intros w out w' HI [= <- <-]. now apply Inv_locks, Inv_record.
Qed.

End Invariant.
End Keeps.

(** *** The writes of one candidate *)

Section StepEffects.

Variable faults : nat -> Op -> option string.

Ltac unfold_ops :=
  unfold importOne, try_catch, mergeDecision, recordError, bind,
    getUserByEmail, saveUser, saveUserRole, saveUserStatus, deleteImportedUser,
    saveImportedUser, logError, io, throw, ret.

Ltac crunch :=
  repeat (simpl in *;
    match goal with
    | |- context [match faults ?n ?op with _ => _ end] => destruct (faults n op) eqn:?
    | |- context [match findByEmail ?e ?us with _ => _ end] => destruct (findByEmail e us) eqn:?
    | |- context [let (_, _) := saveUserStore ?u ?us in _] => destruct (saveUserStore u us) eqn:?
    | |- context [if ?b then _ else _] => destruct b eqn:?
    end).

(** Whatever faults, one candidate's processing writes the staging
    collection at most once: it deletes the candidate or saves it back
    marked ERROR. *)
Lemma importOne_staging_any (t : Tenant) (iu : ImportedUser) (res : ActionsResponse)
  (w : World) (out : Res ActionsResponse) (w' : World) :
  importOne faults t iu res w = (out, w') ->
  importedusers w' (tenant_id t) = importedusers w (tenant_id t) \/
  importedusers w' (tenant_id t) = deleteById (iu_id iu) (importedusers w (tenant_id t)) \/
  exists m, importedusers w' (tenant_id t)
            = upsertImported (markError iu m) (importedusers w (tenant_id t)).
Proof.
  unfold_ops. crunch.
  all: intros [= <- <-]; simpl; rewrite ?upd_same.
  all: first [ left; reflexivity
             | right; left; reflexivity
             | right; right; eexists; reflexivity ].
Qed.

(** Whatever faults, one candidate's processing changes the canonical
    collection in one of three ways: not at all; by the save of the found
    entity, which passed the three checks, under the candidate's names;
    or by the save of the new entity, followed by the role write and then
    the status write as far as they got. *)
Lemma importOne_users_any (t : Tenant) (iu : ImportedUser) (res : ActionsResponse)
  (w : World) (out : Res ActionsResponse) (w' : World) :
  importOne faults t iu res w = (out, w') ->
  users w' (tenant_id t) = users w (tenant_id t) \/
  (exists fu,
      findByEmail (iu_email iu) (users w (tenant_id t)) = Some fu /\
      negb (u_issuer fu) = false /\ u_deleted fu = false /\
      notPending (u_status fu) = false /\
      users w' (tenant_id t)
      = snd (saveUserStore (withNames (iu_name iu) (iu_firstName iu) fu)
                           (users w (tenant_id t)))) \/
  (findByEmail (iu_email iu) (users w (tenant_id t)) = None /\
   (users w' (tenant_id t) = snd (saveUserStore (newUser iu) (users w (tenant_id t))) \/
    users w' (tenant_id t)
    = setRoleStore (fst (saveUserStore (newUser iu) (users w (tenant_id t)))) BASIC
        (snd (saveUserStore (newUser iu) (users w (tenant_id t)))) \/
    users w' (tenant_id t)
    = setStatusStore (fst (saveUserStore (newUser iu) (users w (tenant_id t)))) ACTIVE
        (setRoleStore (fst (saveUserStore (newUser iu) (users w (tenant_id t)))) BASIC
           (snd (saveUserStore (newUser iu) (users w (tenant_id t))))))).
Proof.
  unfold_ops. crunch.
  all: intros [= <- <-]; simpl; rewrite ?upd_same.
  all: first [ left; reflexivity
             | right; left;
               match goal with |- exists fu, Some ?u = Some fu /\ _ => exists u end;
               match goal with H : saveUserStore _ _ = _ |- _ => rewrite H end;
               simpl; repeat split; assumption
             | right; right; split; [reflexivity|];
               first [ left; reflexivity | right; left; reflexivity
                     | right; right; reflexivity ] ].
Qed.

End StepEffects.

(** *** The collections a run leaves *)

Lemma isReady_status (x : ImportedUser) : isReady x = true <-> iu_status x = READY.
Proof. unfold isReady. destruct (iu_status x); simpl; split; congruence. Qed.

Lemma upsertImported_In_inv (z y : ImportedUser) (l : list ImportedUser) :
  In y (upsertImported z l) -> y = z \/ In y l.
Proof.
  unfold upsertImported. destruct (existsb _ l).
  - intros H. apply in_map_iff in H as [x [E Hx]].
    destruct (iu_id x =? iu_id z); [left | right]; congruence.
  - intros H. apply in_app_or in H as [H|[H|[]]]; auto.
Qed.

Lemma upsertImported_keeps (z x : ImportedUser) (l : list ImportedUser) :
  In x l -> iu_id x <> iu_id z -> In x (upsertImported z l).
Proof.
  intros Hx Hid. unfold upsertImported. destruct (existsb _ l).
  - apply in_map_iff. exists x. split; [|exact Hx].
    now destruct (Nat.eqb_spec (iu_id x) (iu_id z)).
  - apply in_or_app. now left.
Qed.

Lemma deleteById_keeps (id : nat) (x : ImportedUser) (l : list ImportedUser) :
  In x l -> iu_id x <> id -> In x (deleteById id l).
Proof.
  intros Hx Hid. apply filter_In. split; [exact Hx|].
  now destruct (Nat.eqb_spec (iu_id x) id).
Qed.

Lemma deleteById_In_inv (id : nat) (y : ImportedUser) (l : list ImportedUser) :
  In y (deleteById id l) -> In y l.
Proof. intros H. now apply filter_In in H. Qed.

Lemma filter_not_held (l : Lock) (ls : list Lock) :
  held l ls = false -> filter (fun x => negb (lock_eqb l x)) ls = ls.
Proof.
  unfold held. induction ls as [|a ls IH]; simpl; [reflexivity|].
  destruct (lock_eqb l a); simpl; [discriminate|]. intros H. now rewrite IH.
Qed.

Section StoreFrames.

Variable IMPORT_PAGE_SIZE : nat.
Variable faults : nat -> Op -> option string.

(** A run for one tenant never touches the collections of another. *)
Theorem other_tenants_untouched (t : Tenant) (w : World) (t' : TenantID) :
  t' <> tenant_id t ->
  importedusers (snd (processTenant IMPORT_PAGE_SIZE faults t w)) t' = importedusers w t' /\
  users (snd (processTenant IMPORT_PAGE_SIZE faults t w)) t' = users w t'.
Proof.
  intros Hne.
  destruct (processTenant IMPORT_PAGE_SIZE faults t w) as [out w'] eqn:H. simpl.
  apply (processTenant_keeps faults IMPORT_PAGE_SIZE t
           (fun w0 => importedusers w0 t' = importedusers w t' /\ users w0 t' = users w t')
           (fun _ => True)) with (w := w) (out := out); auto.
  intros iu res _ w0 o w1 [HS HU] H1.
  destruct (importOne_trace faults t iu res w0 o w1 H1) as (_ & _ & F & _).
  destruct (F t' Hne) as [-> ->]. now split.
Qed.

(** A run leaves the lock table exactly as it found it. *)
Theorem lock_table_restored (t : Tenant) (w : World) :
  locks (snd (processTenant IMPORT_PAGE_SIZE faults t w)) = locks w.
Proof.
  destruct (held (importLock t) (locks w)) eqn:Hheld.
  - now rewrite (processTenant_denied IMPORT_PAGE_SIZE faults t w Hheld).
  - rewrite (processTenant_acquired IMPORT_PAGE_SIZE faults t w Hheld).
    unfold try_finally, try_catch.
    destruct (importUsers _ _ _ _) as [o1 w1] eqn:H1.
    pose proof (importUsers_terminates IMPORT_PAGE_SIZE faults t _ _ _ H1) as Hterm.
    destruct (importUsers_issues IMPORT_PAGE_SIZE faults t _ _ _ H1) as (L1 & _).
    simpl in L1.
    assert (Hfin : filter (fun x => negb (lock_eqb (importLock t) x)) (locks w1) = locks w).
    { rewrite L1. simpl. rewrite lock_eqb_refl. simpl. now apply filter_not_held. }
    destruct o1 as [[]|e|]; [| |contradiction].
    + simpl. exact Hfin.
    + unfold logActionExceptionMessage, io.
      destruct (faults _ _); simpl; exact Hfin.
Qed.

(** Whatever faults, a run adds no staged record and rewrites none: each
    record it leaves is one it found, or a READY one it found marked
    ERROR. *)
Theorem staging_kept_or_marked (t : Tenant) (w : World) (y : ImportedUser) :
  In y (importedusers (snd (processTenant IMPORT_PAGE_SIZE faults t w)) (tenant_id t)) ->
  keptOrMarked (importedusers w (tenant_id t)) y.
Proof.
  destruct (processTenant IMPORT_PAGE_SIZE faults t w) as [out w'] eqn:H. simpl.
  revert y.
  apply (processTenant_keeps faults IMPORT_PAGE_SIZE t
           (fun w0 => forall y, In y (importedusers w0 (tenant_id t)) ->
                                keptOrMarked (importedusers w (tenant_id t)) y)
           (fun x => In x (importedusers w (tenant_id t)) /\ iu_status x = READY))
    with (w := w) (out := out); auto.
  - intros iu res [Hin Hr] w0 o w1 HI H1 y Hy.
    destruct (importOne_staging_any faults t iu res w0 o w1 H1) as [E | [E | [m E]]];
      rewrite E in Hy.
    + now apply HI.
    + apply HI. now apply deleteById_In_inv in Hy.
    + apply upsertImported_In_inv in Hy as [-> | Hy]; [|now apply HI].
      right. now exists iu, m.
  - intros w0 x HI Hx Hr. apply isReady_status in Hr.
    destruct (HI x Hx) as [Hin | (x0 & m & _ & _ & ->)]; [now split|discriminate].
  - intros y Hy. now left.
Qed.

(** With unique staging ids, a run never touches a record that is
    already marked ERROR: it is still there, as it was, afterwards. *)
Theorem error_records_untouched (t : Tenant) (w : World) (x : ImportedUser) :
  NoDup (map iu_id (importedusers w (tenant_id t))) ->
  In x (importedusers w (tenant_id t)) -> iu_status x = ERROR ->
  In x (importedusers (snd (processTenant IMPORT_PAGE_SIZE faults t w)) (tenant_id t)).
Proof.
  intros Hnd Hx He.
  destruct (processTenant IMPORT_PAGE_SIZE faults t w) as [out w'] eqn:H. simpl.
  apply (processTenant_keeps faults IMPORT_PAGE_SIZE t
           (fun w0 => (forall y, In y (importedusers w0 (tenant_id t)) ->
                                 keptOrMarked (importedusers w (tenant_id t)) y) /\
                      In x (importedusers w0 (tenant_id t)))
           (fun z => In z (importedusers w (tenant_id t)) /\ iu_status z = READY))
    with (w := w) (out := out); auto.
  - intros iu res [Hin Hr] w0 o w1 [HI Hx0] H1.
    assert (Hid : iu_id x <> iu_id iu).
    { intros E. assert (x = iu) by (apply (NoDup_map_inj iu_id _ _ _ Hnd); auto).
      subst. congruence. }
    destruct (importOne_staging_any faults t iu res w0 o w1 H1) as [E | [E | [m E]]];
      rewrite E.
    + now split.
    + split; [|now apply deleteById_keeps].
      intros y Hy. apply HI. now apply deleteById_In_inv in Hy.
    + split; [|now apply upsertImported_keeps].
      intros y Hy. apply upsertImported_In_inv in Hy as [-> | Hy]; [|now apply HI].
      right. now exists iu, m.
  - intros w0 z [HI _] Hz Hr. apply isReady_status in Hr.
    destruct (HI z Hz) as [Hin | (x0 & m & _ & _ & ->)]; [now split|discriminate].
  - split; [|exact Hx]. intros y Hy. now left.
Qed.

End StoreFrames.

Lemma renamed_refl (x : User) : renamed x x.
Proof. now left. Qed.

Lemma Forall2_renamed_refl (us : list User) : Forall2 renamed us us.
Proof. induction us; constructor; [apply renamed_refl | assumption]. Qed.

Lemma eligible_of_checks (u : User) :
  negb (u_issuer u) = false -> u_deleted u = false -> notPending (u_status u) = false ->
  eligible u.
Proof.
  unfold eligible. intros Hi Hd Hp. repeat split.
  - now destruct (u_issuer u).
  - exact Hd.
  - destruct (u_status u) as [[]|]; simpl in Hp; congruence.
Qed.

Lemma renamed_withNames (x y : User) (n f : string) :
  renamed x y -> eligible y -> renamed x (withNames n f y).
Proof.
  intros [-> | [He ->]] Hy.
  - right. split; [exact Hy|]. now destruct x.
  - right. split; [exact He|]. now destruct x.
Qed.

Lemma Forall2_map_r {A : Type} (R : A -> A -> Prop) (g : A -> A) (l1 l2 : list A) :
  Forall2 R l1 l2 -> (forall x y, In y l2 -> R x y -> R x (g y)) ->
  Forall2 R l1 (map g l2).
Proof.
  induction 1 as [|x y l1 l2 Hxy H IH]; intros Hg; simpl; constructor.
  - apply Hg; [now left | exact Hxy].
  - apply IH. intros a b Hb. apply Hg. now right.
Qed.

Lemma wellFormed_id (us : list User) (u : User) :
  wellFormedUsers us -> In u us -> exists i, u_id u = Some i.
Proof.
  intros [_ Hall] Hu. rewrite Forall_forall in Hall. specialize (Hall u Hu).
  destruct (u_id u) as [i|]; [now exists i | congruence].
Qed.

Lemma hasId_unique (us : list User) (u x : User) (i : nat) :
  wellFormedUsers us -> In u us -> u_id u = Some i -> In x us -> hasId i x = true ->
  x = u.
Proof.
  intros [Hnd _] Hu Hid Hx Hh.
  apply (NoDup_map_inj u_id us); auto.
  unfold hasId in Hh. destruct (u_id x) as [j|]; [|discriminate].
  apply Nat.eqb_eq in Hh. congruence.
Qed.

(** The save of a found entity under other names rewrites that entity
    alone, and only its names. *)
Lemma saveUserStore_rename (us : list User) (fu : User) (i : nat) (n f : string) :
  wellFormedUsers us -> In fu us -> u_id fu = Some i ->
  snd (saveUserStore (withNames n f fu) us)
  = map (fun x => if hasId i x then withNames n f x else x) us.
Proof.
  intros Hwf Hin Hid. unfold saveUserStore. simpl. rewrite Hid.
  assert (Hex : existsb (hasId i) us = true).
  { apply existsb_exists. exists fu. split; [exact Hin|].
    unfold hasId. rewrite Hid. apply Nat.eqb_refl. }
  rewrite Hex. simpl. apply map_ext_in. intros x Hx.
  destruct (hasId i x) eqn:E; [|reflexivity].
  rewrite (hasId_unique us fu x i Hwf Hin Hid Hx E). now destruct fu.
Qed.

Lemma map_ids_rename (us : list User) (i : nat) (n f : string) :
  map u_id (map (fun x => if hasId i x then withNames n f x else x) us) = map u_id us.
Proof.
  rewrite map_map. apply map_ext. intros x. now destruct (hasId i x).
Qed.

Lemma wellFormed_ids (us us' : list User) :
  map u_id us' = map u_id us -> wellFormedUsers us -> wellFormedUsers us'.
Proof.
  intros E [Hnd Hall]. split; [now rewrite E|].
  rewrite Forall_forall in *. intros u Hu.
  assert (Hi : In (u_id u) (map u_id us)) by (rewrite <- E; now apply in_map).
  apply in_map_iff in Hi as [x [Ex Hx]]. rewrite <- Ex. now apply Hall.
Qed.

Lemma wellFormed_snoc (us : list User) (z : User) :
  wellFormedUsers us -> u_id z = Some (freshId us) -> wellFormedUsers (us ++ [z]).
Proof.
  intros [Hnd Hall] Hz. split.
  - rewrite map_app. simpl. apply NoDup_app; [exact Hnd | repeat constructor; simpl; tauto|].
    intros o Ho [<-|[]]. apply in_map_iff in Ho as [x [Ex Hx]].
    pose proof (freshId_fresh x us Hx) as Hf. unfold hasId in Hf.
    rewrite Ex, Hz, Nat.eqb_refl in Hf. discriminate.
  - apply Forall_app. split; [exact Hall|]. constructor; [|constructor]. congruence.
Qed.

Lemma setRoleStore_snoc (us : list User) (z : User) (r : UserRole) :
  u_id z = Some (freshId us) ->
  setRoleStore (freshId us) r (us ++ [z]) = us ++ [withRole (Some r) z].
Proof.
  intros Hz. unfold setRoleStore. rewrite map_app, map_fresh. simpl.
  unfold hasId. now rewrite Hz, Nat.eqb_refl.
Qed.

Lemma setStatusStore_snoc (us : list User) (z : User) (s : UserStatus) :
  u_id z = Some (freshId us) ->
  setStatusStore (freshId us) s (us ++ [z]) = us ++ [withStatus (Some s) z].
Proof.
  intros Hz. unfold setStatusStore. rewrite map_app, map_fresh. simpl.
  unfold hasId. now rewrite Hz, Nat.eqb_refl.
Qed.

Lemma extendsUsers_snoc (us0 us : list User) (z : User) :
  extendsUsers us0 us -> extendsUsers us0 (us ++ [z]).
Proof.
  intros (kept & added & -> & H). exists kept, (added ++ [z]).
  split; [now rewrite app_assoc | exact H].
Qed.

Lemma extendsUsers_rename (us0 us : list User) (fu : User) (i : nat) (n f : string) :
  wellFormedUsers us -> In fu us -> u_id fu = Some i -> eligible fu ->
  extendsUsers us0 us ->
  extendsUsers us0 (map (fun x => if hasId i x then withNames n f x else x) us).
Proof.
  intros Hwf Hin Hid He (kept & added & E & H).
  exists (map (fun x => if hasId i x then withNames n f x else x) kept),
         (map (fun x => if hasId i x then withNames n f x else x) added).
  split; [now rewrite E, map_app|].
  apply Forall2_map_r; [exact H|].
  intros x y Hy Hxy. destruct (hasId i y) eqn:Eh; [|exact Hxy].
  assert (y = fu).
  { apply (hasId_unique us fu y i); auto. rewrite E. apply in_or_app. now left. }
  subst y. now apply renamed_withNames.
Qed.

Section CanonicalFrame.

Variable IMPORT_PAGE_SIZE : nat.
Variable faults : nat -> Op -> option string.

(** One candidate's processing keeps the canonical collection well
    formed and an extension of any collection it extended. *)
Lemma importOne_extends (t : Tenant) (us0 : list User) (iu : ImportedUser)
  (res : ActionsResponse) :
  keeps (fun w => wellFormedUsers (users w (tenant_id t)) /\
                  extendsUsers us0 (users w (tenant_id t)))
        (importOne faults t iu res).
Proof.
  intros w out w' [Hwf Hext] H.
  destruct (importOne_users_any faults t iu res w out w' H)
    as [E | [(fu & Hf & Hi & Hd & Hp & E) | (Hnone & [E | [E | E]])]]; rewrite E.
  - now split.
  - destruct (findByEmail_In _ _ _ Hf) as [Hin _].
    destruct (wellFormed_id _ _ Hwf Hin) as [i Hid].
    rewrite (saveUserStore_rename _ fu i _ _ Hwf Hin Hid). split.
    + apply (wellFormed_ids (users w (tenant_id t))); [apply map_ids_rename | exact Hwf].
    + apply (extendsUsers_rename _ _ fu); auto. now apply eligible_of_checks.
  - unfold saveUserStore. simpl. split.
    + now apply wellFormed_snoc.
    + now apply extendsUsers_snoc.
  - unfold saveUserStore. simpl. rewrite setRoleStore_snoc by reflexivity. split.
    + now apply wellFormed_snoc.
    + now apply extendsUsers_snoc.
  - unfold saveUserStore. simpl. rewrite setRoleStore_snoc by reflexivity.
    rewrite setStatusStore_snoc by reflexivity. split.
    + now apply wellFormed_snoc.
    + now apply extendsUsers_snoc.
Qed.

(** Whatever faults, a run neither deletes nor reorders canonical
    entities; an entity it found is left as it was or, only if it is
    local, not deleted and PENDING, renamed; what it adds comes after
    them, and ids stay unique. *)
Theorem canonical_store_frame (t : Tenant) (w : World) :
  wellFormedUsers (users w (tenant_id t)) ->
  wellFormedUsers (users (snd (processTenant IMPORT_PAGE_SIZE faults t w)) (tenant_id t)) /\
  extendsUsers (users w (tenant_id t))
               (users (snd (processTenant IMPORT_PAGE_SIZE faults t w)) (tenant_id t)).
Proof.
  intros Hwf.
  destruct (processTenant IMPORT_PAGE_SIZE faults t w) as [out w'] eqn:H. simpl.
  apply (processTenant_keeps faults IMPORT_PAGE_SIZE t
           (fun w0 => wellFormedUsers (users w0 (tenant_id t)) /\
                      extendsUsers (users w (tenant_id t)) (users w0 (tenant_id t)))
           (fun _ => True)) with (w := w) (out := out); auto.
  - intros iu res _. apply importOne_extends.
  - split; [exact Hwf|]. exists (users w (tenant_id t)), [].
    split; [now rewrite app_nil_r | apply Forall2_renamed_refl].
Qed.

End CanonicalFrame.

Lemma findByEmail_none_notin (e : string) (us : list User) :
  findByEmail e us = None -> ~ In e (map u_email us).
Proof.
  unfold findByEmail. intros H Hin. apply in_map_iff in Hin as [x [E Hx]].
  apply (find_none _ _ H) in Hx. rewrite E, String.eqb_refl in Hx. discriminate.
Qed.

Lemma NoDup_snoc {A : Type} (l : list A) (a : A) :
  NoDup l -> ~ In a l -> NoDup (l ++ [a]).
Proof.
  intros Hl Ha. apply NoDup_app; [exact Hl | repeat constructor; simpl; tauto|].
  intros x Hx [<-|[]]. contradiction.
Qed.

Lemma map_emails_rename (us : list User) (i : nat) (n f : string) :
  map u_email (map (fun x => if hasId i x then withNames n f x else x) us)
  = map u_email us.
Proof.
  rewrite map_map. apply map_ext. intros x. now destruct (hasId i x).
Qed.

Lemma importedFrom_not_eligible (x : ImportedUser) (u : User) :
  importedFrom x u -> ~ eligible u.
Proof.
  intros (_ & _ & _ & _ & _ & _ & [Hs|Hs] & _) (_ & _ & He); congruence.
Qed.

Section Provenance.

Variable IMPORT_PAGE_SIZE : nat.
Variable faults : nat -> Op -> option string.

(** One candidate's processing keeps the e-mail addresses of a well
    formed canonical collection distinct. *)
Lemma importOne_emails (t : Tenant) (iu : ImportedUser) (res : ActionsResponse) :
  keeps (fun w => wellFormedUsers (users w (tenant_id t)) /\
                  NoDup (map u_email (users w (tenant_id t))))
        (importOne faults t iu res).
Proof.
  intros w out w' [Hwf Hnd] H.
  assert (Hwf' : wellFormedUsers (users w' (tenant_id t))).
  { apply (importOne_extends faults t (users w (tenant_id t)) iu res w out w'); [|exact H].
    split; [exact Hwf|]. exists (users w (tenant_id t)), [].
    split; [now rewrite app_nil_r | apply Forall2_renamed_refl]. }
  split; [exact Hwf'|]. clear Hwf'.
  destruct (importOne_users_any faults t iu res w out w' H)
    as [E | [(fu & Hf & Hi & Hd & Hp & E) | (Hnone & [E | [E | E]])]]; rewrite E.
  - exact Hnd.
  - destruct (findByEmail_In _ _ _ Hf) as [Hin _].
    destruct (wellFormed_id _ _ Hwf Hin) as [i Hid].
    rewrite (saveUserStore_rename _ fu i _ _ Hwf Hin Hid).
    now rewrite map_emails_rename.
  - unfold saveUserStore. simpl. rewrite map_app. simpl.
    apply NoDup_snoc; [exact Hnd | now apply findByEmail_none_notin].
  - unfold saveUserStore. simpl. rewrite setRoleStore_snoc by reflexivity.
    rewrite map_app. simpl.
    apply NoDup_snoc; [exact Hnd | now apply findByEmail_none_notin].
  - unfold saveUserStore. simpl. rewrite setRoleStore_snoc by reflexivity.
    rewrite setStatusStore_snoc by reflexivity. rewrite map_app. simpl.
    apply NoDup_snoc; [exact Hnd | now apply findByEmail_none_notin].
Qed.

(** Whatever faults, a run never gives two canonical entities the same
    e-mail address: in a well formed collection whose addresses are
    distinct, they are distinct afterwards. *)
Theorem emails_stay_unique (t : Tenant) (w : World) :
  wellFormedUsers (users w (tenant_id t)) ->
  NoDup (map u_email (users w (tenant_id t))) ->
  NoDup (map u_email (users (snd (processTenant IMPORT_PAGE_SIZE faults t w)) (tenant_id t))).
Proof.
  intros Hwf Hnd.
  destruct (processTenant IMPORT_PAGE_SIZE faults t w) as [out w'] eqn:H. simpl.
  apply (processTenant_keeps faults IMPORT_PAGE_SIZE t
           (fun w0 => wellFormedUsers (users w0 (tenant_id t)) /\
                      NoDup (map u_email (users w0 (tenant_id t))))
           (fun _ => True)) with (w := w) (out := out); auto.
  intros iu res _. apply importOne_emails.
Qed.

(** One candidate's processing keeps every canonical entity either an
    entity of [us0], possibly renamed, or one built from a READY record
    of [staged]. *)
Lemma importOne_provenance (t : Tenant) (us0 : list User) (staged : list ImportedUser)
  (iu : ImportedUser) (res : ActionsResponse) :
  In iu staged -> iu_status iu = READY ->
  keeps (fun w => wellFormedUsers (users w (tenant_id t)) /\
                  forall u, In u (users w (tenant_id t)) ->
                            (exists u0, In u0 us0 /\ renamed u0 u) \/
                            (exists x, In x staged /\ iu_status x = READY /\
                                       importedFrom x u))
        (importOne faults t iu res).
Proof.
  intros Hiu Hready w out w' [Hwf HP] H.
  assert (Hwf' : wellFormedUsers (users w' (tenant_id t))).
  { apply (importOne_extends faults t (users w (tenant_id t)) iu res w out w'); [|exact H].
    split; [exact Hwf|]. exists (users w (tenant_id t)), [].
    split; [now rewrite app_nil_r | apply Forall2_renamed_refl]. }
  split; [exact Hwf'|]. clear Hwf'.
  assert (Hnew : forall z, importedFrom iu z ->
                   forall u, In u (users w (tenant_id t) ++ [z]) ->
                     (exists u0, In u0 us0 /\ renamed u0 u) \/
                     (exists x, In x staged /\ iu_status x = READY /\ importedFrom x u)).
  { intros z Hz u Hu. apply in_app_or in Hu as [Hu|[<-|[]]]; [now apply HP|].
    right. now exists iu. }
  destruct (importOne_users_any faults t iu res w out w' H)
    as [E | [(fu & Hf & Hi & Hd & Hp & E) | (Hnone & [E | [E | E]])]]; rewrite E.
  - exact HP.
  - destruct (findByEmail_In _ _ _ Hf) as [Hin _].
    destruct (wellFormed_id _ _ Hwf Hin) as [i Hid].
    rewrite (saveUserStore_rename _ fu i _ _ Hwf Hin Hid).
    pose proof (eligible_of_checks fu Hi Hd Hp) as Hel.
    intros u Hu. apply in_map_iff in Hu as [y [Ey Hy]].
    destruct (hasId i y) eqn:Eh; [|subst u; now apply HP].
    assert (y = fu) by (apply (hasId_unique _ fu y i Hwf); auto). subst y u.
    destruct (HP fu Hin) as [(u0 & Hu0 & Hr) | (x & _ & _ & Hx)].
    + left. exists u0. split; [exact Hu0|]. now apply renamed_withNames.
    + exfalso. now apply (importedFrom_not_eligible x fu).
  - unfold saveUserStore. simpl. apply Hnew.
    unfold importedFrom. simpl. repeat split; auto.
  - unfold saveUserStore. simpl. rewrite setRoleStore_snoc by reflexivity. apply Hnew.
    unfold importedFrom. simpl. repeat split; auto.
  - unfold saveUserStore. simpl. rewrite setRoleStore_snoc by reflexivity.
    rewrite setStatusStore_snoc by reflexivity. apply Hnew.
    unfold importedFrom. simpl. repeat split; auto.
Qed.

(** Whatever faults, every canonical entity a run leaves is one it found,
    possibly renamed, or one built from a READY staged record: local, not
    deleted, with that record's e-mail address and names, the role unset
    or BASIC and the status unset or ACTIVE. *)
Theorem added_entities_come_from_staging (t : Tenant) (w : World) (u : User) :
  wellFormedUsers (users w (tenant_id t)) ->
  In u (users (snd (processTenant IMPORT_PAGE_SIZE faults t w)) (tenant_id t)) ->
  (exists u0, In u0 (users w (tenant_id t)) /\ renamed u0 u) \/
  (exists x, In x (importedusers w (tenant_id t)) /\ iu_status x = READY /\
             importedFrom x u).
Proof.
  intros Hwf.
  destruct (processTenant IMPORT_PAGE_SIZE faults t w) as [out w'] eqn:H. simpl.
  revert u.
  cut ((wellFormedUsers (users w' (tenant_id t)) /\
        forall u, In u (users w' (tenant_id t)) ->
                  (exists u0, In u0 (users w (tenant_id t)) /\ renamed u0 u) \/
                  (exists x, In x (importedusers w (tenant_id t)) /\ iu_status x = READY /\
                             importedFrom x u)) /\
       forall y, In y (importedusers w' (tenant_id t)) ->
                 keptOrMarked (importedusers w (tenant_id t)) y).
  { intros [[_ HP] _]. exact HP. }
  apply (processTenant_keeps faults IMPORT_PAGE_SIZE t
           (fun w0 =>
              (wellFormedUsers (users w0 (tenant_id t)) /\
               forall u, In u (users w0 (tenant_id t)) ->
                         (exists u0, In u0 (users w (tenant_id t)) /\ renamed u0 u) \/
                         (exists x, In x (importedusers w (tenant_id t)) /\
                                    iu_status x = READY /\ importedFrom x u)) /\
              forall y, In y (importedusers w0 (tenant_id t)) ->
                        keptOrMarked (importedusers w (tenant_id t)) y)
           (fun x => In x (importedusers w (tenant_id t)) /\ iu_status x = READY))
    with (w := w) (out := out); auto.
  - intros iu res [Hin Hr] w0 o w1 [HU HS] H1. split.
    + exact (importOne_provenance t _ _ iu res Hin Hr w0 o w1 HU H1).
    + intros y Hy.
      destruct (importOne_staging_any faults t iu res w0 o w1 H1) as [E | [E | [m E]]];
        rewrite E in Hy.
      * now apply HS.
      * apply HS. now apply deleteById_In_inv in Hy.
      * apply upsertImported_In_inv in Hy as [-> | Hy]; [|now apply HS].
        right. now exists iu, m.
  - intros w0 x [_ HS] Hx Hr. apply isReady_status in Hr.
    destruct (HS x Hx) as [Hin | (x0 & m & _ & _ & ->)]; [now split|discriminate].
  - split; [split; [exact Hwf|]|].
    + intros u Hu. left. exists u. split; [exact Hu | apply renamed_refl].
    + intros y Hy. now left.
Qed.

End Provenance.

(** *** Faults outside the merge calls *)

Section UnprotectedFaults.

Variable IMPORT_PAGE_SIZE : nat.
Variable faults : nat -> Op -> option string.
Variable P : Op -> bool.

Lemma faultAborts_issues {A : Type} (c : M A) :
  issues (fun op => negb (P op)) c -> faultAborts faults P c.
Proof.
  intros Hc w out w' H. destruct (Hc _ _ _ H) as (_ & evs & T & F).
  exists evs. split; [exact T|]. intros i op m Hi Hop _.
  apply nth_error_In in Hi. rewrite forallb_forall in F.
  specialize (F op Hi). rewrite Hop in F. discriminate.
Qed.

Lemma faultAborts_ret {A : Type} (a : A) : faultAborts faults P (ret a).
Proof. apply faultAborts_issues, issues_ret. Qed.

Lemma faultAborts_bind {A B : Type} (c : M A) (k : A -> M B) :
  faultAborts faults P c -> (forall a, faultAborts faults P (k a)) ->
  faultAborts faults P (bind c k).
Proof.
  intros Hc Hk w out w' H.
  apply bind_inv in H as [(a & w1 & H1 & H2) | [(e & H1 & ->) | (H1 & ->)]].
  - destruct (Hc _ _ _ H1) as (evs1 & T1 & F1).
    destruct (Hk a _ _ _ H2) as (evs2 & T2 & F2).
    exists (evs1 ++ evs2). split; [now rewrite T2, T1, app_assoc|].
    intros i op m Hi Hop Hf.
    destruct (Nat.lt_ge_cases i (length evs1)) as [Hlt|Hge].
    + rewrite nth_error_app1 in Hi by exact Hlt.
      destruct (F1 i op m Hi Hop Hf) as [[=] _].
    + rewrite nth_error_app2 in Hi by exact Hge.
      destruct (F2 (i - length evs1) op m Hi Hop) as [-> E].
      { rewrite T1, length_app.
        replace (length (trace w) + length evs1 + (i - length evs1))
          with (length (trace w) + i) by lia.
        exact Hf. }
      split; [reflexivity|]. rewrite length_app. lia.
  - destruct (Hc _ _ _ H1) as (evs1 & T1 & F1).
    exists evs1. split; [exact T1|]. intros i op m Hi Hop Hf.
    destruct (F1 i op m Hi Hop Hf) as [[= ->] E]. now split.
  - destruct (Hc _ _ _ H1) as (evs1 & T1 & F1).
    exists evs1. split; [exact T1|]. intros i op m Hi Hop Hf.
    destruct (F1 i op m Hi Hop Hf) as [[=] _].
Qed.

(** A single call: if it faults, it is the last one and its fault is thrown. *)
Lemma faultAborts_io {A : Type} (op : Op) (act : World -> A * World) :
  (forall w, trace (snd (act w)) = trace w) ->
  faultAborts faults P (io faults op act).
Proof.
  intros Hact w out w'. unfold io.
  destruct (faults (length (trace w)) op) eqn:E.
  - intros [= <- <-]. exists [op]. split; [reflexivity|].
    intros [|i] o m Hi Hop Hf; simpl in Hi; [|destruct i; discriminate].
    injection Hi as <-. rewrite Nat.add_0_r in Hf. split; [congruence | reflexivity].
  - specialize (Hact (record op w)). destruct (act (record op w)) as [a w2].
    intros [= <- <-]. simpl in Hact. exists [op]. split; [now rewrite Hact|].
    intros [|i] o m Hi Hop Hf; simpl in Hi; [|destruct i; discriminate].
    injection Hi as <-. rewrite Nat.add_0_r in Hf. congruence.
Qed.

(** A handler that aborts on its own faults still does so after a body
    whose calls are all outside [P]. *)
Lemma faultAborts_try_catch {A : Type} (c : M A) (h : string -> M A) :
  issues (fun op => negb (P op)) c -> (forall e, faultAborts faults P (h e)) ->
  faultAborts faults P (try_catch c h).
Proof.
  intros Hc Hh w out w'. unfold try_catch.
  destruct (c w) as [[a|e|] w1] eqn:H1; intros H.
  1,3: inversion H; subst; exact (faultAborts_issues c Hc _ _ _ H1).
  destruct (Hc _ _ _ H1) as (_ & evs1 & T1 & F1).
  destruct (Hh e _ _ _ H) as (evs2 & T2 & F2).
  exists (evs1 ++ evs2). split; [now rewrite T2, T1, app_assoc|].
  intros i op m Hi Hop Hf.
  destruct (Nat.lt_ge_cases i (length evs1)) as [Hlt|Hge].
  - rewrite nth_error_app1 in Hi by exact Hlt.
    apply nth_error_In in Hi. rewrite forallb_forall in F1.
    specialize (F1 op Hi). rewrite Hop in F1. discriminate.
  - rewrite nth_error_app2 in Hi by exact Hge.
    destruct (F2 (i - length evs1) op m Hi Hop) as [-> E].
    { rewrite T1, length_app.
      replace (length (trace w) + length evs1 + (i - length evs1))
        with (length (trace w) + i) by lia.
      exact Hf. }
    split; [reflexivity|]. rewrite length_app. lia.
Qed.

End UnprotectedFaults.

Section UnprotectedRun.

Variable IMPORT_PAGE_SIZE : nat.
Variable faults : nat -> Op -> option string.

Ltac unfold_ops :=
  unfold importOne, try_catch, mergeDecision, recordError, bind,
    getUserByEmail, saveUser, saveUserRole, saveUserStatus, deleteImportedUser,
    saveImportedUser, logError, io, throw, ret.

Ltac crunch :=
  repeat (simpl in *;
    match goal with
    | |- context [match faults ?n ?op with _ => _ end] => destruct (faults n op) eqn:?
    | |- context [match findByEmail ?e ?us with _ => _ end] => destruct (findByEmail e us) eqn:?
    | |- context [let (_, _) := saveUserStore ?u ?us in _] => destruct (saveUserStore u us) eqn:?
    | |- context [if ?b then _ else _] => destruct b eqn:?
    end).

(** The merge decision issues merge calls only. *)
Lemma mergeDecision_issues (t : Tenant) (iu : ImportedUser) (res : ActionsResponse) :
  issues isMergeOp (mergeDecision faults t iu res).
Proof.
  intros w out w'. unfold_ops. crunch.
  all: intros [= <- <-]; simpl; split; [reflexivity|].
  all: repeat rewrite <- app_assoc; simpl; eexists; split; reflexivity.
Qed.

Lemma recordError_faultAborts (P : Op -> bool) (t : Tenant) (iu : ImportedUser)
  (res : ActionsResponse) (e : string) :
  faultAborts faults P (recordError faults t iu res e).
Proof.
  unfold recordError. cbv zeta.
  apply faultAborts_bind; [now apply faultAborts_io|].
  intros _. apply faultAborts_bind; [now apply faultAborts_io|].
  intros _. apply faultAborts_ret.
Qed.

Lemma importOne_faultAborts (t : Tenant) (iu : ImportedUser) (res : ActionsResponse) :
  faultAborts faults isUnprotected (importOne faults t iu res).
Proof.
  unfold importOne. apply faultAborts_try_catch.
  - apply (issues_mono isMergeOp); [|apply mergeDecision_issues].
    intros op H. now destruct op.
  - intros e. apply recordError_faultAborts.
Qed.

Lemma forEach_faultAborts (t : Tenant) (page : list ImportedUser) :
  forall res, faultAborts faults isUnprotected (forEach faults t page res).
Proof.
  induction page as [|x page IH]; intros res; simpl.
  - apply faultAborts_ret.
  - apply faultAborts_bind; [apply importOne_faultAborts | intros r; apply IH].
Qed.

Lemma doWhile_faultAborts (t : Tenant) (p : DbParams) (total : nat) (fuel : nat) :
  forall res, faultAborts faults isUnprotected (doWhile faults fuel t p total res).
Proof.
  induction fuel as [|fuel IH]; intros res.
  - intros w out w' [= <- <-]. exists []. rewrite app_nil_r. split; [reflexivity|].
    intros [|i] op m Hi; discriminate.
  - rewrite doWhile_S.
    apply faultAborts_bind; [now apply faultAborts_io|].
    intros d. apply faultAborts_bind; [apply forEach_faultAborts|].
    intros r1. apply faultAborts_bind.
    { destruct (_ && _); [now apply faultAborts_io | apply faultAborts_ret]. }
    intros _. destruct (negb _); [apply IH | apply faultAborts_ret].
Qed.

Lemma importUsers_faultAborts (t : Tenant) :
  faultAborts faults isUnprotected (importUsers IMPORT_PAGE_SIZE faults t).
Proof.
  unfold importUsers.
  apply faultAborts_bind; [now apply faultAborts_io|].
  intros total. apply faultAborts_bind.
  { destruct (0 <? total); [now apply faultAborts_io | apply faultAborts_ret]. }
  intros _. apply faultAborts_bind.
  { intros w out w' H. exact (doWhile_faultAborts _ _ _ _ _ _ _ _ H). }
  intros r. now apply faultAborts_io.
Qed.

(** Whenever a call of the pass other than a merge call faults (the
    initial count, the info log, a page fetch, the write or the log
    recording a candidate's error, the progress log, the final report),
    the pass ends there: the run issues exactly two more calls, the
    hand-over of the fault's message to the exception log and the release
    of the lock, and the lock is free afterwards. *)
Theorem unprotected_fault_aborts (t : Tenant) (w : World) (out : Res unit) (w' : World)
  (n : nat) (op : Op) (m : string) :
  processTenant IMPORT_PAGE_SIZE faults t w = (out, w') ->
  length (trace w) <= n ->
  nth_error (trace w') n = Some op -> isUnprotected op = true ->
  faults n op = Some m ->
  trace w' = firstn (S n) (trace w')
             ++ [LogActionExceptionMessage (tenant_id t) m; Release (importLock t)] /\
  held (importLock t) (locks w') = false /\
  out = match faults (S n) (LogActionExceptionMessage (tenant_id t) m) with
        | Some m' => Throw m'
        | None => Ok tt
        end.
Proof.
  intros H Hn Hop Hun Hfault.
  destruct (held (importLock t) (locks w)) eqn:Hheld.
  - rewrite (processTenant_denied IMPORT_PAGE_SIZE faults t w Hheld) in H.
    inversion H; subst. simpl in Hop.
    rewrite nth_error_app2 in Hop by exact Hn.
    destruct (n - length (trace w)) as [|k]; simpl in Hop.
    + inversion Hop; subst. discriminate.
    + destruct k; discriminate.
  - destruct (processTenant_shape IMPORT_PAGE_SIZE faults t w out w' Hheld H)
      as (o1 & w1 & tail & H1 & Htail & T & _ & _ & Hout & Hfree).
    destruct (importUsers_faultAborts t _ _ _ H1) as (evs & T1 & F).
    simpl in T1.
    assert (Hlen : length (trace w1) = length (trace w) + 1 + length evs).
    { rewrite T1, !length_app. simpl. lia. }
    rewrite T in Hop.
    destruct (Nat.lt_ge_cases n (length (trace w1))) as [Hlt|Hge].
    + rewrite nth_error_app1 in Hop by exact Hlt.
      rewrite T1 in Hop.
      destruct (Nat.eq_dec n (length (trace w))) as [->|Hne].
      * rewrite nth_error_app1 in Hop by (rewrite length_app; simpl; lia).
        rewrite nth_error_app2 in Hop by lia.
        rewrite Nat.sub_diag in Hop. inversion Hop; subst. discriminate.
      * rewrite nth_error_app2 in Hop by (rewrite length_app; simpl; lia).
        rewrite length_app in Hop. simpl in Hop.
        destruct (F _ op m Hop Hun) as [-> Hlast].
        { simpl. rewrite length_app. simpl.
          replace (length (trace w) + 1 + (n - (length (trace w) + 1))) with n by lia.
          exact Hfault. }
        assert (HSn : S n = length (trace w1)) by lia.
        subst tail. split; [|split].
        -- rewrite T, HSn. rewrite firstn_app, firstn_all, Nat.sub_diag.
           simpl. now rewrite app_nil_r.
        -- exact Hfree.
        -- now rewrite Hout, HSn.
    + rewrite nth_error_app2 in Hop by exact Hge.
      destruct o1 as [a|e|]; [| |contradiction]; subst tail; simpl in Hop.
      * destruct (n - length (trace w1)) as [|k]; simpl in Hop.
        -- inversion Hop; subst. discriminate.
        -- destruct k; discriminate.
      * destruct (n - length (trace w1)) as [|[|k]]; simpl in Hop.
        -- inversion Hop; subst. discriminate.
        -- inversion Hop; subst. discriminate.
        -- destruct k; discriminate.
Qed.

End UnprotectedRun.

(** *** The final report *)

Lemma length_deleteById_unique (x : ImportedUser) (l : list ImportedUser) :
  NoDup (map iu_id l) -> In x l -> S (length (deleteById (iu_id x) l)) = length l.
Proof.
  induction l as [|a l IH]; simpl; [tauto|].
  intros Hnd [->|Hin].
  - rewrite Nat.eqb_refl. simpl.
    now rewrite (deleteById_absent (iu_id x) l (NoDup_ids_head x l Hnd)).
  - assert (iu_id a <> iu_id x).
    { intros E. apply (NoDup_ids_head a l Hnd x Hin). now symmetry. }
    destruct (Nat.eqb_spec (iu_id a) (iu_id x)); [contradiction|]. simpl.
    f_equal. apply IH; [|exact Hin]. simpl in Hnd. now inversion Hnd.
Qed.

Lemma length_upsert_existing (z x : ImportedUser) (l : list ImportedUser) :
  In x l -> iu_id x = iu_id z -> length (upsertImported z l) = length l.
Proof.
  intros Hin E. unfold upsertImported.
  rewrite (existsb_same_id x (iu_id z) l Hin E). apply length_map.
Qed.

Lemma skipn_length_app {A : Type} (l r : list A) : skipn (length l) (l ++ r) = r.
Proof. induction l; simpl; auto. Qed.

Section Accounting.

Variable IMPORT_PAGE_SIZE : nat.
Variable faults : nat -> Op -> option string.

(** Whatever faults, a page processed to its end disposes of exactly its
    candidates: each is counted once, and the successes are the records
    removed. *)
Lemma forEach_accounts (t : Tenant) (page : list ImportedUser) :
  forall (rest : list ImportedUser) (res r : ActionsResponse) (w w' : World),
    NoDup (map iu_id (importedusers w (tenant_id t))) ->
    readyOf (importedusers w (tenant_id t)) = page ++ rest ->
    forEach faults t page res w = (Ok r, w') ->
    readyOf (importedusers w' (tenant_id t)) = rest /\
    NoDup (map iu_id (importedusers w' (tenant_id t))) /\
    inError r + inSuccess r = inError res + inSuccess res + length page /\
    length (importedusers w' (tenant_id t)) + inSuccess r
    = length (importedusers w (tenant_id t)) + inSuccess res.
Proof.
  induction page as [|x page IH]; intros rest res r w w' Hnd Hr H; simpl in H.
  - inversion H; subst. simpl. repeat split; auto; lia.
  - apply bind_inv in H as [(r1 & w1 & H1 & H2) | [(e & _ & [=]) | (_ & [=])]].
    assert (Hx : In x (importedusers w (tenant_id t))).
    { apply (readyOf_In x). rewrite Hr. now left. }
    assert (Hst : readyOf (importedusers w1 (tenant_id t)) = page ++ rest /\
                  NoDup (map iu_id (importedusers w1 (tenant_id t))) /\
                  inError r1 + inSuccess r1 = S (inError res + inSuccess res) /\
                  length (importedusers w1 (tenant_id t)) + inSuccess r1
                  = length (importedusers w (tenant_id t)) + inSuccess res).
    { destruct (importOne_staging faults t x res r1 w w1 H1) as [[-> ->] | [-> [m ->]]].
      - split; [now apply readyOf_deleteById_head|].
        split; [now apply NoDup_ids_deleteById|].
        pose proof (length_deleteById_unique x _ Hnd Hx). simpl. lia.
      - split; [now apply readyOf_upsert_head|].
        split; [now apply NoDup_ids_upsert|].
        rewrite (length_upsert_existing (markError x m) x) by auto. simpl. lia. }
    destruct Hst as (Hr1 & Hnd1 & Hc1 & Hl1).
    destruct (IH rest r1 r w1 w' Hnd1 Hr1 H2) as (Hr2 & Hnd2 & Hc2 & Hl2).
    simpl. repeat split; auto; lia.
Qed.

(** Whatever faults, a loop that returns has drained the READY records
    and accounted for each of them. *)
Lemma doWhile_accounts (t : Tenant) (p : DbParams) (total : nat) :
  0 < limit p -> skip p = 0 ->
  forall (fuel : nat) (res r : ActionsResponse) (w w' : World),
    NoDup (map iu_id (importedusers w (tenant_id t))) ->
    doWhile faults fuel t p total res w = (Ok r, w') ->
    readyOf (importedusers w' (tenant_id t)) = [] /\
    inError r + inSuccess r
    = inError res + inSuccess res + length (readyOf (importedusers w (tenant_id t))) /\
    length (importedusers w' (tenant_id t)) + inSuccess r
    = length (importedusers w (tenant_id t)) + inSuccess res.
Proof.
  intros Hlim Hskip.
  induction fuel as [|fuel IH]; intros res r w w' Hnd H; [discriminate|].
  rewrite doWhile_S in H.
  apply bind_inv in H as [(d & w1 & H1 & H2) | [(e & _ & [=]) | (_ & [=])]].
  apply getImportedUsers_inv in H1 as (-> & Hd & _).
  rewrite Hskip in Hd. simpl in Hd.
  apply bind_inv in H2 as [(r1 & w2 & H2 & H3) | [(e & _ & [=]) | (_ & [=])]].
  apply bind_inv in H3 as [([] & w3 & H3 & H4) | [(e & _ & [=]) | (_ & [=])]].
  apply logDebug_cond_inv in H3 as (_ & E3 & _).
  remember (readyOf (importedusers w (tenant_id t))) as ready eqn:Eready.
  rewrite Hd in H2.
  assert (Hsplit : readyOf (importedusers
                              (record (GetImportedUsers (tenant_id t) READY p) w)
                              (tenant_id t))
                   = firstn (limit p) ready ++ skipn (limit p) ready).
  { rewrite firstn_skipn. now subst ready. }
  destruct (forEach_accounts t (firstn (limit p) ready) (skipn (limit p) ready)
              res r1 (record (GetImportedUsers (tenant_id t) READY p) w) w2
              Hnd Hsplit H2)
    as (Hr2 & Hnd2 & Hc2 & Hl2).
  clear Hsplit.
  simpl in Hl2. rewrite Hd in H4.
  assert (Hfl : length (firstn (limit p) ready) = Nat.min (limit p) (length ready))
    by apply length_firstn.
  assert (Hsl : length (skipn (limit p) ready) = length ready - limit p)
    by apply length_skipn.
  destruct (firstn (limit p) ready) as [|x page] eqn:Hpage.
  - simpl in H4. inversion H4; subst r w'. rewrite E3.
    assert (Hready : ready = []) by now apply (firstn_nil_inv (limit p)).
    rewrite Hr2. subst ready. rewrite Hready in *. simpl in *. rewrite skipn_nil.
    repeat split; lia.
  - simpl in H4.
    destruct (IH r1 r w3 w') as (Hr3 & Hc3 & Hl3); [now rewrite E3 | exact H4 |].
    rewrite E3 in Hc3, Hl3. rewrite Hr2 in Hc3.
    repeat split; try assumption; lia.
Qed.

(** The report of a pass is issued only by a loop that returned. *)
Lemma importUsers_reported (t : Tenant) (w : World) (o : Res unit) (w' : World)
  (evs : list Op) (r : ActionsResponse) :
  importUsers IMPORT_PAGE_SIZE faults t w = (o, w') ->
  trace w' = trace w ++ evs ->
  In (LogActionsResponse (tenant_id t) r) evs ->
  exists wa wb,
    importedusers wa = importedusers w /\
    doWhile faults (S (length (importedusers wa (tenant_id t)))) t
            (mkDbParams IMPORT_PAGE_SIZE 0) (length (importedusers w (tenant_id t)))
            (mkActionsResponse 0 0) wa = (Ok r, wb) /\
    importedusers w' = importedusers wb.
Proof.
  intros H T Hin. unfold importUsers in H.
  assert (Hquiet : forall (c : M unit) wx ox wy,
             issues (fun op => negb (isReport op)) c -> c wx = (ox, wy) ->
             forall l, trace wy = trace wx ++ l -> forallb (fun op => negb (isReport op)) l = true).
  { intros c wx ox wy Hc Hrun l Hl. destruct (Hc _ _ _ Hrun) as (_ & l' & Hl' & F).
    rewrite Hl' in Hl. apply app_inv_head in Hl. now subst. }
  assert (Hno : forall l, forallb (fun op => negb (isReport op)) l = true ->
                          ~ In (LogActionsResponse (tenant_id t) r) l).
  { intros l F Hl. rewrite forallb_forall in F. now specialize (F _ Hl). }
  set (body := fun total : nat =>
                 (if 0 <? total then logInfo faults (tenant_id t) total else ret tt) ;;
                 (fun w0 => doWhile faults (S (length (importedusers w0 (tenant_id t)))) t
                                    (mkDbParams IMPORT_PAGE_SIZE 0) total
                                    (mkActionsResponse 0 0) w0)) in *.
  assert (Hbody : forall total, issues (fun op => negb (isReport op)) (body total)).
  { intros total. unfold body. apply issues_bind.
    - destruct (0 <? total); [now apply issues_io_pure | apply issues_ret].
    - intros _ wx ox wy Hx. revert Hx.
      apply (issues_mono isLoopOp); [|apply (doWhile_issues faults)].
      intros op Hop. now destruct op. }
  apply bind_inv in H as [(total & w1 & H1 & H2) | [(e & H1 & ->) | (H1 & _)]].
  - unfold getImportedUsersCount, io in H1.
    destruct (faults _ _); [discriminate|]. inversion H1; subst total w1. clear H1.
    apply bind_inv in H2 as [([] & w2 & H2 & H3) | [(e & H2 & ->) | (H2 & _)]].
    + apply bind_inv in H3 as [(r' & wb & H3 & H4) | [(e & H3 & ->) | (H3 & _)]].
      * unfold logActionsResponse, io in H4.
        assert (Hw' : w' = record (LogActionsResponse (tenant_id t) r') wb)
          by (destruct (faults _ _); now inversion H4).
        assert (S2 : importedusers w2 = importedusers w).
        { destruct (0 <? _); [unfold logInfo, io in H2; destruct (faults _ _)|];
            now inversion H2. }
        assert (Hpre : issues (fun op => negb (isReport op))
                         (bind (if 0 <? length (importedusers w (tenant_id t))
                                then logInfo faults (tenant_id t)
                                       (length (importedusers w (tenant_id t)))
                                else ret tt)
                               (fun _ w0 =>
                                  doWhile faults (S (length (importedusers w0 (tenant_id t))))
                                    t (mkDbParams IMPORT_PAGE_SIZE 0)
                                    (length (importedusers w (tenant_id t)))
                                    (mkActionsResponse 0 0) w0))) by apply Hbody.
        assert (Hrun : bind (if 0 <? length (importedusers w (tenant_id t))
                             then logInfo faults (tenant_id t)
                                    (length (importedusers w (tenant_id t)))
                             else ret tt)
                            (fun _ w0 =>
                               doWhile faults (S (length (importedusers w0 (tenant_id t))))
                                 t (mkDbParams IMPORT_PAGE_SIZE 0)
                                 (length (importedusers w (tenant_id t)))
                                 (mkActionsResponse 0 0) w0)
                            (record (GetImportedUsersCount (tenant_id t)) w)
                       = (Ok r', wb)).
        { unfold bind. simpl in H2. rewrite H2. exact H3. }
        destruct (Hpre _ _ _ Hrun) as (_ & l & Hl & F).
        subst w'. simpl in T. rewrite Hl in T. simpl in T.
        rewrite <- !app_assoc in T. apply app_inv_head in T. subst evs.
        simpl in Hin. destruct Hin as [[=]|Hin].
        apply in_app_or in Hin as [Hin|[Hin|[]]]; [now apply Hno in Hin|].
        injection Hin as <-.
        exists w2, wb. rewrite S2. rewrite S2 in H3. repeat split; auto.
      * exfalso.
        assert (Hrun : body (length (importedusers w (tenant_id t)))
                            (record (GetImportedUsersCount (tenant_id t)) w)
                       = (Throw e, w')).
        { unfold body, bind. simpl in H2. rewrite H2. exact H3. }
        destruct (Hbody _ _ _ _ Hrun) as (_ & l & Hl & F).
        simpl in Hl. rewrite Hl in T. rewrite <- app_assoc in T.
        apply app_inv_head in T. subst evs. simpl in Hin.
        destruct Hin as [[=]|Hin]. now apply Hno in Hin.
      * exfalso.
        assert (Hrun : body (length (importedusers w (tenant_id t)))
                            (record (GetImportedUsersCount (tenant_id t)) w)
                       = (Diverge, w')).
        { unfold body, bind. simpl in H2. rewrite H2. exact H3. }
        destruct (Hbody _ _ _ _ Hrun) as (_ & l & Hl & F).
        simpl in Hl. rewrite Hl in T. rewrite <- app_assoc in T.
        apply app_inv_head in T. subst evs. simpl in Hin.
        destruct Hin as [[=]|Hin]. now apply Hno in Hin.
    + exfalso. destruct (0 <? _); [|discriminate].
      unfold logInfo, io in H2. destruct (faults _ _); inversion H2; subst.
      simpl in T. rewrite <- app_assoc in T. apply app_inv_head in T. subst evs.
      simpl in Hin. destruct Hin as [[=]|[[=]|[]]].
    + exfalso. destruct (0 <? _); [|discriminate].
      now apply terminates_io in H2.
  - exfalso. unfold getImportedUsersCount, io in H1.
    destruct (faults _ _); inversion H1; subst.
    simpl in T. apply app_inv_head in T. subst evs.
    simpl in Hin. destruct Hin as [[=]|[]].
  - now apply terminates_io in H1.
Qed.

(** Whatever faulted before it, the report a run issues is exact: with
    unique staging ids and a positive page size, inSuccess is the number
    of records the run removed from staging, inError + inSuccess is the
    number of READY records it started from, and no READY record is left. *)
Theorem report_is_exact (t : Tenant) (w : World) (r : ActionsResponse) :
  NoDup (map iu_id (importedusers w (tenant_id t))) ->
  0 < IMPORT_PAGE_SIZE ->
  In (LogActionsResponse (tenant_id t) r)
     (skipn (length (trace w)) (trace (snd (processTenant IMPORT_PAGE_SIZE faults t w)))) ->
  length (importedusers (snd (processTenant IMPORT_PAGE_SIZE faults t w)) (tenant_id t))
  + inSuccess r = length (importedusers w (tenant_id t)) /\
  inError r + inSuccess r = length (readyOf (importedusers w (tenant_id t))) /\
  readyOf (importedusers (snd (processTenant IMPORT_PAGE_SIZE faults t w)) (tenant_id t)) = [].
Proof.
  intros Hnd Hpos.
  destruct (processTenant IMPORT_PAGE_SIZE faults t w) as [out w'] eqn:H. simpl.
  intros Hin.
  destruct (held (importLock t) (locks w)) eqn:Hheld.
  - rewrite (processTenant_denied IMPORT_PAGE_SIZE faults t w Hheld) in H.
    inversion H; subst. simpl in Hin. rewrite skipn_length_app in Hin.
    destruct Hin as [[=]|[]].
  - destruct (processTenant_shape IMPORT_PAGE_SIZE faults t w out w' Hheld H)
      as (o1 & w1 & tail & H1 & Htail & T & S1 & _ & _ & _).
    destruct (importUsers_issues IMPORT_PAGE_SIZE faults t _ _ _ H1) as (_ & evs & T1 & _).
    rewrite T, T1 in Hin. simpl in Hin. rewrite <- !app_assoc in Hin.
    rewrite skipn_length_app in Hin. simpl in Hin.
    destruct Hin as [[=]|Hin].
    apply in_app_or in Hin as [Hin|Hin].
    + destruct (importUsers_reported t _ _ _ evs r H1 T1 Hin)
        as (wa & wb & Sa & Hloop & Sb).
      simpl in Sa.
      destruct (doWhile_accounts t (mkDbParams IMPORT_PAGE_SIZE 0) _ Hpos eq_refl
                  _ _ _ _ _ (eq_ind_r (fun f => NoDup (map iu_id (f (tenant_id t))))
                                      Hnd Sa) Hloop)
        as (Hdone & Hsum & Hlen).
      rewrite S1, Sb. rewrite Sa in Hsum, Hlen. simpl in Hsum, Hlen.
      repeat split; [lia | lia | exact Hdone].
    + exfalso. apply in_app_or in Hin as [Hin|[[=]|[]]].
      destruct o1 as [a|e|]; [| |contradiction]; subst tail.
      * destruct Hin.
      * destruct Hin as [[=]|[]].
Qed.

End Accounting.

(** ** What a pass does with one candidate *)

Section Pass.

Variable IMPORT_PAGE_SIZE : nat.
Variable faults : nat -> Op -> option string.
Variable t : Tenant.

Hypothesis Hconf : confined faults.

(** The READY candidates the pass starts from, in staging order, and a
    property [J done w] of the world reached when the candidates [done]
    have been processed. *)
Variable ready0 : list ImportedUser.
Variable J : list ImportedUser -> World -> Prop.

Hypothesis J_record : forall done w op, J done w -> J done (record op w).
Hypothesis J_locks : forall done w ls, J done w -> J done (setLocks ls w).
Hypothesis J_step :
  forall done y rest res w,
    ready0 = done ++ y :: rest ->
    readyOf (importedusers w (tenant_id t)) = y :: rest ->
    NoDup (map iu_id (importedusers w (tenant_id t))) ->
    J done w ->
    J (done ++ [y]) (snd (importOne faults t y res w)).

(** The [for] loop processes its page to the end, candidate by
    candidate. *)
Lemma forEach_pass (page : list ImportedUser) :
  forall (done rest : list ImportedUser) (res : ActionsResponse) (w : World),
    ready0 = done ++ page ++ rest ->
    readyOf (importedusers w (tenant_id t)) = page ++ rest ->
    NoDup (map iu_id (importedusers w (tenant_id t))) ->
    J done w ->
    exists r w',
      forEach faults t page res w = (Ok r, w') /\
      J (done ++ page) w' /\
      readyOf (importedusers w' (tenant_id t)) = rest /\
      NoDup (map iu_id (importedusers w' (tenant_id t))).
Proof.
  induction page as [|x page IH]; intros done rest res w H0 Hr Hnd HJ.
  - exists res, w. rewrite app_nil_r. now repeat split.
  - destruct (importOne_confined faults t x res w Hconf)
      as (r1 & w1 & H1).
    pose proof (J_step done x (page ++ rest) res w H0 Hr Hnd HJ) as HJ1.
    rewrite H1 in HJ1. simpl in HJ1.
    assert (Hst : readyOf (importedusers w1 (tenant_id t)) = page ++ rest /\
                  NoDup (map iu_id (importedusers w1 (tenant_id t)))).
    { destruct (importOne_staging faults t x res r1 w w1 H1) as [[_ ->] | [_ [m ->]]].
      - split; [now apply readyOf_deleteById_head | now apply NoDup_ids_deleteById].
      - split; [now apply readyOf_upsert_head | now apply NoDup_ids_upsert]. }
    destruct Hst as [Hr1 Hnd1].
    destruct (IH (done ++ [x]) rest r1 w1) as (r & w' & H2 & HJ2 & Hr2 & Hnd2); auto.
    { rewrite <- app_assoc. exact H0. }
    exists r, w'. split.
    + simpl. unfold bind. now rewrite H1.
    + rewrite <- app_assoc in HJ2. now repeat split.
Qed.

(** The loop drains the READY candidates, page after page. *)
Lemma doWhile_pass (total : nat) (fuel : nat) :
  0 < IMPORT_PAGE_SIZE ->
  forall (done rest : list ImportedUser) (res : ActionsResponse) (w : World),
    length rest < fuel ->
    ready0 = done ++ rest ->
    readyOf (importedusers w (tenant_id t)) = rest ->
    NoDup (map iu_id (importedusers w (tenant_id t))) ->
    J done w ->
    exists r w',
      doWhile faults fuel t (mkDbParams IMPORT_PAGE_SIZE 0) total res w = (Ok r, w') /\
      J ready0 w'.
Proof.
  intros Hpos. induction fuel as [|fuel IH]; intros done rest res w Hlen H0 Hr Hnd HJ; [lia|].
  rewrite doWhile_S.
  unfold bind at 1. unfold getImportedUsers, io. rewrite Hconf by reflexivity.
  cbn [result limit skip skipn].
  change (filter (fun x => status_eqb (iu_status x) READY)
                 (importedusers (record (GetImportedUsers (tenant_id t) READY
                                           (mkDbParams IMPORT_PAGE_SIZE 0)) w)
                                (tenant_id t)))
    with (readyOf (importedusers w (tenant_id t))).
  rewrite Hr.
  destruct (forEach_pass (firstn IMPORT_PAGE_SIZE rest) done (skipn IMPORT_PAGE_SIZE rest)
              res (record (GetImportedUsers (tenant_id t) READY
                             (mkDbParams IMPORT_PAGE_SIZE 0)) w))
    as (r1 & w1 & H1 & HJ1 & Hr1 & Hnd1).
  { now rewrite firstn_skipn. }
  { simpl. now rewrite firstn_skipn. }
  { exact Hnd. }
  { now apply J_record. }
  unfold bind at 1. rewrite H1.
  unfold bind at 1.
  destruct ((if (0 <? length (firstn IMPORT_PAGE_SIZE rest))
                && (0 <? inError r1 + inSuccess r1)
             then logDebug faults (tenant_id t) (inError r1 + inSuccess r1) total
             else ret tt) w1) as [o2 w2] eqn:H2.
  assert (E2 : o2 = Ok tt /\ importedusers w2 = importedusers w1 /\
               forall d, J d w1 -> J d w2).
  { destruct (_ && _).
    - unfold logDebug, io in H2. rewrite Hconf in H2 by reflexivity. inversion H2; subst.
      repeat split. intros d. apply J_record.
    - inversion H2; subst. now repeat split. }
  destruct E2 as (-> & E2 & HJ2).
  destruct (firstn IMPORT_PAGE_SIZE rest) as [|x page] eqn:Hpage.
  - simpl. exists r1, w2. split; [reflexivity|].
    assert (Hrest : rest = []) by now apply (firstn_nil_inv IMPORT_PAGE_SIZE).
    rewrite Hrest in H0. rewrite app_nil_r in H0, HJ1. rewrite H0. now apply HJ2.
  - simpl.
    apply (IH (done ++ x :: page) (skipn IMPORT_PAGE_SIZE rest) r1 w2).
    + assert (L : length (x :: page) + length (skipn IMPORT_PAGE_SIZE rest) = length rest).
      { rewrite <- Hpage, <- length_app. now rewrite firstn_skipn. }
      simpl in L. lia.
    + rewrite <- app_assoc, <- Hpage, firstn_skipn. exact H0.
    + now rewrite E2.
    + now rewrite E2.
    + now apply HJ2.
Qed.

(** A run that finds the lock free, with faults confined to the merge
    calls, returns normally, has processed every READY candidate, and
    issues an exact report. *)
Lemma processTenant_pass (w : World) :
  0 < IMPORT_PAGE_SIZE ->
  held (importLock t) (locks w) = false ->
  NoDup (map iu_id (importedusers w (tenant_id t))) ->
  ready0 = readyOf (importedusers w (tenant_id t)) ->
  J [] w ->
  exists (w' : World) (r : ActionsResponse) (evs : list Op),
    processTenant IMPORT_PAGE_SIZE faults t w = (Ok tt, w') /\
    J ready0 w' /\
    trace w' = trace w ++ evs /\
    In (LogActionsResponse (tenant_id t) r) evs /\
    inSuccess r + length (importedusers w' (tenant_id t))
    = length (importedusers w (tenant_id t)) /\
    inError r + inSuccess r = length (readyOf (importedusers w (tenant_id t))) /\
    readyOf (importedusers w' (tenant_id t)) = [].
Proof.
  intros Hpos Hfree Hnd H0 HJ.
  rewrite (processTenant_acquired IMPORT_PAGE_SIZE faults t w Hfree).
  set (w0 := setLocks (importLock t :: locks w)
                      (record (CreateImportUsersLock (importLock t)) w)).
  assert (HJ0 : J [] w0) by now apply J_locks, J_record.
  set (total := length (importedusers w (tenant_id t))).
  set (wc := record (GetImportedUsersCount (tenant_id t)) w0).
  assert (Hinfo : exists wa l,
             (if 0 <? total then logInfo faults (tenant_id t) total else ret tt) wc
             = (Ok tt, wa) /\
             importedusers wa = importedusers w /\ trace wa = trace wc ++ l /\
             J [] wa).
  { destruct (0 <? total).
    - exists (record (LogInfo (tenant_id t) total) wc), [LogInfo (tenant_id t) total].
      unfold logInfo, io. rewrite Hconf by reflexivity. repeat split.
      now apply J_record, J_record.
    - exists wc, []. repeat split; [now rewrite app_nil_r | now apply J_record]. }
  destruct Hinfo as (wa & l & Ha & Sa & Ta & HJa).
  destruct (doWhile_pass total (S (length (importedusers wa (tenant_id t)))) Hpos
              [] ready0 (mkActionsResponse 0 0) wa) as (r & wb & Hloop & HJb); auto.
  { rewrite Sa, H0. pose proof (readyCount_le (importedusers w (tenant_id t))). lia. }
  { now rewrite Sa. }
  { now rewrite Sa. }
  destruct (doWhile_accounts faults t (mkDbParams IMPORT_PAGE_SIZE 0) total Hpos eq_refl
              _ _ _ _ _ (eq_ind_r (fun f => NoDup (map iu_id (f (tenant_id t)))) Hnd Sa)
              Hloop) as (Hdone & Hsum & Hlength).
  destruct (doWhile_issues faults t _ _ _ _ _ _ _ Hloop) as (Lb & evb & Tb & _).
  assert (Hrun : importUsers IMPORT_PAGE_SIZE faults t w0
                 = (Ok tt, record (LogActionsResponse (tenant_id t) r) wb)).
  { unfold importUsers.
    rewrite (bind_ok (getImportedUsersCount faults (tenant_id t)) _ w0 wc total)
      by (unfold getImportedUsersCount, io; now rewrite Hconf by reflexivity).
    rewrite (bind_ok _ _ wc wa tt Ha).
    rewrite (bind_ok
               (fun w1 => doWhile faults (S (length (importedusers w1 (tenant_id t)))) t
                                  (mkDbParams IMPORT_PAGE_SIZE 0) total
                                  (mkActionsResponse 0 0) w1)
               _ wa wb r Hloop).
    unfold logActionsResponse, io. now rewrite Hconf by reflexivity. }
  unfold try_finally, try_catch. rewrite Hrun. unfold release.
  eexists. exists r. eexists. split; [reflexivity|].
  split; [now apply J_locks, J_record, J_record|].
  split.
  { simpl. rewrite Tb, Ta. unfold wc, w0. simpl. rewrite <- !app_assoc. reflexivity. }
  split.
  { apply in_or_app. right. simpl. right. apply in_or_app. right.
    apply in_or_app. right. simpl. now left. }
  simpl. rewrite Sa in Hsum, Hlength. simpl in Hsum, Hlength.
  repeat split; [lia | lia | exact Hdone].
Qed.

End Pass.

(** *** Lists *)



Lemma NoDup_ids_readyOf (l : list ImportedUser) :
  NoDup (map iu_id l) -> NoDup (map iu_id (readyOf l)).
Proof.
  unfold readyOf. induction l as [|a l IH]; simpl; intros H; [constructor|].
  inversion H as [|? ? Hn Hl]; subst.
  destruct (isReady a); simpl; [|now apply IH].
  constructor; [|now apply IH].
  intros Hin. apply Hn. apply in_map_iff in Hin as [y [E Hy]].
  apply in_map_iff. exists y. split; [exact E|]. now apply filter_In in Hy.
Qed.

Lemma ids_snoc (done : list ImportedUser) (y : ImportedUser) (id : nat) :
  iu_id y <> id ->
  (In id (map iu_id (done ++ [y])) <-> In id (map iu_id done)).
Proof.
  intros H. rewrite map_app, in_app_iff. simpl. tauto.
Qed.

(** *** The staging collection *)




(** *** The canonical collection *)

Lemma find_filter (e : string) (us : list User) :
  findByEmail e us = hd_error (filter (fun u => String.eqb (u_email u) e) us).
Proof.
  unfold findByEmail. induction us as [|a us IH]; simpl; [reflexivity|].
  now destruct (String.eqb (u_email a) e).
Qed.

Lemma filter_rename (e : string) (i : nat) (n f : string) (us : list User) :
  (forall u, In u us -> hasId i u = true -> u_email u <> e) ->
  filter (fun u => String.eqb (u_email u) e)
         (map (fun x => if hasId i x then withNames n f x else x) us)
  = filter (fun u => String.eqb (u_email u) e) us.
Proof.
  induction us as [|a us IH]; intros H; simpl; [reflexivity|].
  rewrite IH by (intros u Hu; apply H; now right).
  destruct (hasId i a) eqn:Ha; [|reflexivity].
  simpl. assert (u_email a <> e) by (apply H; [now left | exact Ha]).
  now destruct (String.eqb_spec (u_email a) e).
Qed.

Lemma filter_snoc_other (e : string) (us : list User) (z : User) :
  u_email z <> e ->
  filter (fun u => String.eqb (u_email u) e) (us ++ [z])
  = filter (fun u => String.eqb (u_email u) e) us.
Proof.
  intros H. rewrite filter_app. simpl.
  destruct (String.eqb_spec (u_email z) e); [contradiction | apply app_nil_r].
Qed.


Lemma withNames_again (a b n f : string) (u : User) :
  withNames a b (withNames n f u) = withNames a b u.
Proof. reflexivity. Qed.

Lemma withNames_names (a b : string) (u : User) :
  withNames a b u = withNames (u_name (withNames a b u)) (u_firstName (withNames a b u)) u.
Proof. reflexivity. Qed.

Lemma confined_recordsErrors (faults : nat -> Op -> option string) :
  confined faults -> recordsErrors faults.
Proof. intros H n op Hop. apply H. now destruct op. Qed.

Section CandidateFrames.

Variable faults : nat -> Op -> option string.

(** Whatever faults, the processing of a candidate leaves the entities
    under every other key as they are. *)
Lemma importOne_other_key (t : Tenant) (y : ImportedUser) (res : ActionsResponse)
  (w : World) (e : string) :
  wellFormedUsers (users w (tenant_id t)) -> iu_email y <> e ->
  filter (fun u => String.eqb (u_email u) e)
         (users (snd (importOne faults t y res w)) (tenant_id t))
  = filter (fun u => String.eqb (u_email u) e) (users w (tenant_id t)).
Proof.
  intros Hwf He.
  destruct (importOne faults t y res w) as [out w'] eqn:H. simpl.
  destruct (importOne_users_any faults t y res w out w' H)
    as [E | [(fu & Hf & Hi & Hd & Hp & E) | (Hnone & [E | [E | E]])]]; rewrite E.
  - reflexivity.
  - destruct (findByEmail_In _ _ _ Hf) as [Hin Hemail].
    destruct (wellFormed_id _ _ Hwf Hin) as [i Hid].
    rewrite (saveUserStore_rename _ fu i _ _ Hwf Hin Hid).
    apply filter_rename. intros u Hu Hh.
    rewrite (hasId_unique _ fu u i Hwf Hin Hid Hu Hh). congruence.
  - unfold saveUserStore. simpl. now apply filter_snoc_other.
  - unfold saveUserStore. simpl. rewrite setRoleStore_snoc by reflexivity.
    now apply filter_snoc_other.
  - unfold saveUserStore. simpl. rewrite setRoleStore_snoc by reflexivity.
    rewrite setStatusStore_snoc by reflexivity. now apply filter_snoc_other.
Qed.


Lemma importOne_wellFormed (t : Tenant) (y : ImportedUser) (res : ActionsResponse)
  (w : World) :
  wellFormedUsers (users w (tenant_id t)) ->
  wellFormedUsers (users (snd (importOne faults t y res w)) (tenant_id t)).
Proof.
  intros Hwf. destruct (importOne faults t y res w) as [out w'] eqn:H. simpl.
  apply (importOne_extends faults t (users w (tenant_id t)) y res w out w'); [|exact H].
  split; [exact Hwf|]. exists (users w (tenant_id t)), [].
  split; [now rewrite app_nil_r | apply Forall2_renamed_refl].
Qed.

(** Whatever faults, the processing of a candidate keeps the staged
    records with another id, and stages no other id. *)
Lemma importOne_keeps_record (t : Tenant) (y z : ImportedUser) (res : ActionsResponse)
  (w : World) :
  In z (importedusers w (tenant_id t)) -> iu_id z <> iu_id y ->
  In z (importedusers (snd (importOne faults t y res w)) (tenant_id t)).
Proof.
  intros Hz Hid. destruct (importOne faults t y res w) as [out w'] eqn:H. simpl.
  destruct (importOne_staging_any faults t y res w out w' H) as [E | [E | [m E]]];
    rewrite E.
  - exact Hz.
  - now apply deleteById_keeps.
  - now apply upsertImported_keeps.
Qed.



Ltac unfold_ops :=
  unfold importOne, try_catch, mergeDecision, recordError, bind,
    getUserByEmail, saveUser, saveUserRole, saveUserStatus, deleteImportedUser,
    saveImportedUser, logError, io, throw, ret.




End CandidateFrames.

Lemma ready_In (x : ImportedUser) (l : list ImportedUser) :
  In x l -> iu_status x = READY -> In x (readyOf l).
Proof.
  intros H E. unfold readyOf. apply filter_In. split; [exact H|].
  unfold isReady. now rewrite E.
Qed.

Section PassRejects.

Variable IMPORT_PAGE_SIZE : nat.
Variable faults : nat -> Op -> option string.

(** Claim C4.  A pass over a tenant whose lock is free, with a positive
    page size, unique staged ids and a well-formed canonical collection,
    in which only merge calls may fault and the lookup of the candidate's
    e-mail does not, given a READY candidate [x] whose lookup finds an
    entity [fu] with issuer = false, or deleted = true, or a status other
    than PENDING: the pass returns normally, whatever happens to the
    other candidates; the entities with the candidate's
    e-mail are the same as before the pass and the lookup still finds
    [fu]; the candidate is in staging with status ERROR and the check's
    message as error description ("User account is no longer pending"
    when the entity is a local, non-deleted one); the pass logs one
    report whose counters add up to the READY candidates and whose
    inSuccess is the number of records that left staging, so that the
    retained candidate is counted by inError. *)
Theorem pass_rejects_candidate (t : Tenant) (w : World) (x : ImportedUser) (fu : User) :
  confined faults ->
  (forall n, faults n (GetUserByEmail (tenant_id t) (iu_email x)) = None) ->
  0 < IMPORT_PAGE_SIZE ->
  held (importLock t) (locks w) = false ->
  NoDup (map iu_id (importedusers w (tenant_id t))) ->
  wellFormedUsers (users w (tenant_id t)) ->
  In x (importedusers w (tenant_id t)) -> iu_status x = READY ->
  findByEmail (iu_email x) (users w (tenant_id t)) = Some fu ->
  u_issuer fu = false \/ u_deleted fu = true \/ u_status fu <> Some PENDING ->
  exists (w' : World) (r : ActionsResponse) (evs : list Op),
    processTenant IMPORT_PAGE_SIZE faults t w = (Ok tt, w') /\
    filter (fun u => String.eqb (u_email u) (iu_email x)) (users w' (tenant_id t))
    = filter (fun u => String.eqb (u_email u) (iu_email x)) (users w (tenant_id t)) /\
    findByEmail (iu_email x) (users w' (tenant_id t)) = Some fu /\
    In (markError x (rejection fu)) (importedusers w' (tenant_id t)) /\
    iu_status (markError x (rejection fu)) = ERROR /\
    iu_errorDescription (markError x (rejection fu)) = Some (rejection fu) /\
    (u_issuer fu = true -> u_deleted fu = false ->
     rejection fu = ("User account is " ++ "no longer pending")%string) /\
    trace w' = trace w ++ evs /\
    In (LogActionsResponse (tenant_id t) r) evs /\
    inError r + inSuccess r = length (readyOf (importedusers w (tenant_id t))) /\
    inSuccess r + length (importedusers w' (tenant_id t))
    = length (importedusers w (tenant_id t)).
Proof.
  intros Hconf Hlook Hpos Hfree Hnd Hwf Hx Hready Hfind Hviol.
  set (e := iu_email x) in *.
  set (us0 := users w (tenant_id t)) in *.
  set (ready0 := readyOf (importedusers w (tenant_id t))).
  pose (J := fun (done : list ImportedUser) (v : World) =>
               wellFormedUsers (users v (tenant_id t)) /\
               filter (fun u => String.eqb (u_email u) e) (users v (tenant_id t))
               = filter (fun u => String.eqb (u_email u) e) us0 /\
               (In (iu_id x) (map iu_id done) ->
                In (markError x (rejection fu)) (importedusers v (tenant_id t)))).
  assert (Hx0 : In x ready0) by now apply ready_In.
  assert (Hnd0 : NoDup (map iu_id ready0)) by now apply NoDup_ids_readyOf.
  destruct (processTenant_pass IMPORT_PAGE_SIZE faults t Hconf ready0 J) with (w := w)
    as (w' & r & evs & Hrun & (HJ1 & HJ2 & HJ3) & Htr & Hrep & Hs & Hc & _).
  - intros done v op HJ. exact HJ.
  - intros done v ls HJ. exact HJ.
  - intros done y rest res v Hsplit Hry Hndv (Hwfv & Hfv & Hmv).
    assert (Hfindv : findByEmail e (users v (tenant_id t)) = Some fu)
      by (rewrite find_filter, Hfv, <- find_filter; exact Hfind).
    assert (Hy0 : In y ready0) by (rewrite Hsplit; apply in_or_app; right; now left).
    split; [now apply importOne_wellFormed|].
    destruct (Nat.eq_dec (iu_id y) (iu_id x)) as [Eid | Nid].
    + assert (y = x) by (apply (NoDup_map_inj iu_id ready0); assumption). subst y.
      destruct (importOne_rejected faults t x res v fu
                  (confined_recordsErrors faults Hconf) (Hlook _) Hfindv Hviol)
        as (v' & Hi & Hu & Hst).
      rewrite Hi. simpl. rewrite Hu. split; [exact Hfv|].
      intros _. rewrite Hst. apply upsertImported_In.
    + split.
      * destruct (string_dec (iu_email y) e) as [Ee | Ne].
        -- rewrite <- Ee in Hfindv.
           assert (Hlooky : faults (length (trace v))
                                   (GetUserByEmail (tenant_id t) (iu_email y)) = None)
             by (rewrite Ee; apply Hlook).
           destruct (importOne_rejected faults t y res v fu
                       (confined_recordsErrors faults Hconf) Hlooky Hfindv Hviol)
             as (v' & Hi & Hu & Hst).
           rewrite Hi. simpl. rewrite Hu. exact Hfv.
        -- rewrite importOne_other_key by assumption. exact Hfv.
      * intros Hin. apply ids_snoc in Hin; [|exact Nid].
        apply importOne_keeps_record; [now apply Hmv | simpl; congruence].
  - exact Hpos.
  - exact Hfree.
  - exact Hnd.
  - reflexivity.
  - split; [exact Hwf|]. split; [reflexivity|]. intros [].
  - exists w', r, evs. split; [exact Hrun|]. split; [exact HJ2|].
    split; [rewrite find_filter, HJ2, <- find_filter; exact Hfind|].
    split; [apply HJ3; now apply in_map|].
    split; [reflexivity|]. split; [reflexivity|].
    split; [intros Hi Hd; unfold rejection; now rewrite Hi, Hd|].
    split; [exact Htr|]. split; [exact Hrep|]. split; [exact Hc | exact Hs].
Qed.

End PassRejects.


Section PassCreates.

Variable IMPORT_PAGE_SIZE : nat.
Variable faults : nat -> Op -> option string.


End PassCreates.

Lemma eligible_withNames (n f : string) (u : User) :
  eligible u -> eligible (withNames n f u).
Proof. intros H. exact H. Qed.

Section PassUpdates.

Variable IMPORT_PAGE_SIZE : nat.
Variable faults : nat -> Op -> option string.


End PassUpdates.

(** ** The pass theorems at concrete inputs *)

Lemma bobLookupFaults_confined : confined bobLookupFaults.
Proof. intros n op H. destruct op; try reflexivity; discriminate H. Qed.


(** Two pages; bob's lookup faults, and the active account with alice's
    e-mail address rejects both staged records with that address. *)
Lemma pass_rejects_candidate_witness :
  confined bobLookupFaults /\
  (forall n, bobLookupFaults n (GetUserByEmail (tenant_id tenantT) (iu_email aliceAgain))
             = None) /\
  0 < 2 /\
  held (importLock tenantT) (locks (world [bob; alice; aliceAgain] [activeAlice])) = false /\
  NoDup (map iu_id (importedusers (world [bob; alice; aliceAgain] [activeAlice])
                                  (tenant_id tenantT))) /\
  wellFormedUsers (users (world [bob; alice; aliceAgain] [activeAlice]) (tenant_id tenantT)) /\
  In aliceAgain (importedusers (world [bob; alice; aliceAgain] [activeAlice])
                               (tenant_id tenantT)) /\
  iu_status aliceAgain = READY /\
  findByEmail (iu_email aliceAgain)
              (users (world [bob; alice; aliceAgain] [activeAlice]) (tenant_id tenantT))
  = Some activeAlice /\
  (u_issuer activeAlice = false \/ u_deleted activeAlice = true
   \/ u_status activeAlice <> Some PENDING) /\
  exists (w' : World) (r : ActionsResponse) (evs : list Op),
    processTenant 2 bobLookupFaults tenantT (world [bob; alice; aliceAgain] [activeAlice])
    = (Ok tt, w') /\
    filter (fun u => String.eqb (u_email u) (iu_email aliceAgain))
           (users w' (tenant_id tenantT))
    = filter (fun u => String.eqb (u_email u) (iu_email aliceAgain))
             (users (world [bob; alice; aliceAgain] [activeAlice]) (tenant_id tenantT)) /\
    findByEmail (iu_email aliceAgain) (users w' (tenant_id tenantT)) = Some activeAlice /\
    In (markError aliceAgain (rejection activeAlice))
       (importedusers w' (tenant_id tenantT)) /\
    iu_status (markError aliceAgain (rejection activeAlice)) = ERROR /\
    iu_errorDescription (markError aliceAgain (rejection activeAlice))
    = Some (rejection activeAlice) /\
    (u_issuer activeAlice = true -> u_deleted activeAlice = false ->
     rejection activeAlice = ("User account is " ++ "no longer pending")%string) /\
    trace w' = trace (world [bob; alice; aliceAgain] [activeAlice]) ++ evs /\
    In (LogActionsResponse (tenant_id tenantT) r) evs /\
    inError r + inSuccess r
    = length (readyOf (importedusers (world [bob; alice; aliceAgain] [activeAlice])
                                     (tenant_id tenantT))) /\
    inSuccess r + length (importedusers w' (tenant_id tenantT))
    = length (importedusers (world [bob; alice; aliceAgain] [activeAlice])
                            (tenant_id tenantT)).
Proof.
  assert (Hnd : NoDup (map iu_id (importedusers (world [bob; alice; aliceAgain] [activeAlice])
                                                (tenant_id tenantT)))).
  { simpl. repeat constructor; simpl; intuition discriminate. }
  assert (Hwf : wellFormedUsers (users (world [bob; alice; aliceAgain] [activeAlice])
                                       (tenant_id tenantT))).
  { split; simpl; repeat constructor; simpl; [tauto | discriminate]. }
  assert (Hin : In aliceAgain (importedusers (world [bob; alice; aliceAgain] [activeAlice])
                                             (tenant_id tenantT)))
    by (simpl; tauto).
  assert (Hviol : u_issuer activeAlice = false \/ u_deleted activeAlice = true
                  \/ u_status activeAlice <> Some PENDING)
    by (right; right; discriminate).
  split; [exact bobLookupFaults_confined|]. split; [intros n; reflexivity|].
  split; [lia|]. split; [reflexivity|].
  split; [exact Hnd|]. split; [exact Hwf|]. split; [exact Hin|].
  split; [reflexivity|]. split; [reflexivity|]. split; [exact Hviol|].
  exact (pass_rejects_candidate 2 bobLookupFaults tenantT
           (world [bob; alice; aliceAgain] [activeAlice]) aliceAgain activeAlice
           bobLookupFaults_confined (fun n => eq_refl) (Nat.lt_0_succ 1) eq_refl
           Hnd Hwf Hin eq_refl eq_refl Hviol).
Defined.


(** ** Further counterexamples *)


(** A fault of the second page fetch is logged by the catch block of
    processTenant and goes no further: the run returns normally. *)
Lemma page_fetch_fault_not_propagated :
  laterFetchFaults 15 (GetImportedUsers "T" READY (mkDbParams 2 0))
  = Some "connection lost" /\
  fst (processTenant 2 laterFetchFaults tenantT (world [alice; bob; carol] [])) = Ok tt /\
  importedusers (snd (processTenant 2 laterFetchFaults tenantT
                        (world [alice; bob; carol] []))) "T"
  = [carol] /\
  skipn 15 (trace (snd (processTenant 2 laterFetchFaults tenantT
                          (world [alice; bob; carol] []))))
  = [GetImportedUsers "T" READY (mkDbParams 2 0);
     LogActionExceptionMessage "T" "connection lost";
     Release (mkLock "T" "import")].
Proof. vm_compute. repeat split. Qed.

(** ** MjmlTemplate *)

(** *** Strings *)

Section Strings.

Import MjmlTemplate.
Local Open Scope string_scope.

Lemma append_nil_r (s : string) : s ++ "" = s.
Proof. induction s; simpl; congruence. Qed.

Lemma append_assoc (a b c : string) : (a ++ b) ++ c = a ++ b ++ c.
Proof. induction a; simpl; congruence. Qed.

Lemma length_append (a b : string) :
  String.length (a ++ b) = (String.length a + String.length b)%nat.
Proof. induction a; simpl; congruence. Qed.

Lemma append_inv_head (a b c : string) : a ++ b = a ++ c -> b = c.
Proof. induction a; simpl; intros H; [exact H | injection H; auto]. Qed.

Lemma hasChar_app (c : ascii) (a b : string) :
  hasChar c (a ++ b) = hasChar c a || hasChar c b.
Proof. induction a; simpl; [reflexivity | rewrite IHa; now rewrite orb_assoc]. Qed.

Lemma dropPrefix_sound (p s x : string) : dropPrefix p s = Some x -> s = p ++ x.
Proof.
  revert s. induction p as [|a p IH]; intros s H; simpl in H.
  - destruct s; now inversion H.
  - destruct s as [|b s]; [discriminate|].
    destruct (Ascii.eqb_spec a b); [|discriminate]. subst. simpl. f_equal. now apply IH.
Qed.

Lemma dropPrefix_app (p x : string) : dropPrefix p (p ++ x) = Some x.
Proof.
  induction p as [|a p IH]; simpl; [now destruct x|].
  now rewrite Ascii.eqb_refl.
Qed.

Lemma cutAt_sound (pat s a b : string) : cutAt pat s = Some (a, b) -> s = a ++ pat ++ b.
Proof.
  revert a. induction s as [|c s IH]; intros a H.
  - simpl in H. destruct (dropPrefix pat "") eqn:E; [|discriminate].
    inversion H; subst. simpl. now apply dropPrefix_sound.
  - cbn [cutAt] in H. destruct (dropPrefix pat (String c s)) eqn:E.
    + inversion H; subst. simpl. now apply dropPrefix_sound.
    + destruct (cutAt pat s) as [[pre post]|]; [|discriminate].
      inversion H; subst. simpl. f_equal. now apply IH.
Qed.

Lemma cutAt_complete (pat s : string) : occursIn pat s -> cutAt pat s <> None.
Proof.
  intros (a & b & ->). induction a as [|c a IH].
  - simpl. destruct b, pat; simpl; rewrite ?Ascii.eqb_refl, ?dropPrefix_app; discriminate.
  - cbn [append cutAt]. destruct (dropPrefix pat _); [discriminate|].
    destruct (cutAt pat (a ++ pat ++ b)) as [[pre post]|]; [discriminate | contradiction].
Qed.

Lemma prefix_of_longer (u x w y : string) :
  u ++ x = w ++ y -> String.length u <= String.length w -> exists z, w = u ++ z.
Proof.
  revert w. induction u as [|c u IH]; intros w H L.
  - now exists w.
  - destruct w as [|d w]; [simpl in L; lia|].
    simpl in H. injection H as -> H. simpl in L.
    destruct (IH w H) as [z ->]; [lia|]. now exists z.
Qed.

(** The cut is at the first occurrence. *)
Lemma cutAt_first (init : string) (l : ascii) (pre post : string) :
  ~ occursIn (init ++ String l "") (pre ++ init) ->
  cutAt (init ++ String l "") (pre ++ (init ++ String l "") ++ post) = Some (pre, post).
Proof.
  set (pat := init ++ String l "").
  induction pre as [|c pre IH]; intros Hno.
  - simpl. destruct (pat ++ post) eqn:E.
    + simpl. rewrite <- E, dropPrefix_app. reflexivity.
    + cbn [cutAt]. rewrite <- E, dropPrefix_app. reflexivity.
  - cbn [append cutAt]. change (String c (pre ++ pat ++ post)) with (String c pre ++ pat ++ post).
    destruct (dropPrefix pat (String c pre ++ pat ++ post)) eqn:E.
    + exfalso. apply Hno. apply dropPrefix_sound in E.
      assert (E' : pat ++ s = (String c pre ++ init) ++ (String l "" ++ post)).
      { rewrite <- E. unfold pat. now rewrite !append_assoc. }
      destruct (prefix_of_longer _ _ _ _ E') as [z Hz].
      * unfold pat. rewrite !length_append. simpl. lia.
      * exists "", z. simpl. exact Hz.
    + simpl. rewrite IH; [reflexivity|].
      intros (a & b & H). apply Hno. exists (String c a), b. simpl. now rewrite H.
Qed.

Lemma cutAt_after_text (q text rest : string) :
  hasChar "{" text = false ->
  cutAt (String "{" q) (text ++ String "{" q ++ rest) = Some (text, rest).
Proof.
  induction text as [|c text IH]; intros H.
  - cbn [append cutAt]. change (String "{" (q ++ rest)) with (String "{" q ++ rest).
    now rewrite dropPrefix_app.
  - simpl in H. apply orb_false_iff in H as [Hc H].
    cbn [append cutAt dropPrefix]. rewrite Ascii.eqb_sym, Hc.
    change (String "{" (q ++ rest)) with (String "{" q ++ rest).
    now rewrite IH.
Qed.

Lemma getSubstitution_app (m p q a r : string) :
  hasChar "$" a = false ->
  getSubstitution m p q (a ++ r) = a ++ getSubstitution m p q r.
Proof.
  induction a as [|c a IH]; intros H; [reflexivity|].
  simpl in H. apply orb_false_iff in H as [Hc H].
  cbn [append getSubstitution]. rewrite Hc. f_equal. now apply IH.
Qed.

Lemma getSubstitution_plain (m p q v : string) :
  hasChar "$" v = false -> getSubstitution m p q v = v.
Proof.
  intros H. rewrite <- (append_nil_r v) at 1.
  rewrite getSubstitution_app by exact H. simpl. apply append_nil_r.
Qed.

End Strings.

(** *** replace *)

Section Replace.

Import MjmlTemplate.
Local Open Scope string_scope.

Lemma placeholder_last (selector : string) :
  placeholder selector = ("{{" ++ selector ++ "}") ++ "}".
Proof. unfold placeholder. simpl. do 2 f_equal. induction selector; simpl; congruence. Qed.

Lemma cutAt_placeholder (selector pre post : string) :
  ~ occursIn (placeholder selector) (pre ++ "{{" ++ selector ++ "}") ->
  cutAt (placeholder selector) (pre ++ placeholder selector ++ post) = Some (pre, post).
Proof.
  rewrite placeholder_last. apply cutAt_first.
Qed.

(** MjmlTemplate.replace: a template that does not hold the placeholder
    of the selector is left as it is, whatever the value. *)
Theorem replace_without_placeholder (selector value template : string) :
  ~ occursIn (placeholder selector) template ->
  replace selector value template = template.
Proof.
  intros Hno. unfold replace, stringReplace.
  destruct (cutAt ("{{" ++ selector ++ "}}") template) as [[pre post]|] eqn:E; [|reflexivity].
  exfalso. apply Hno. exists pre, post. now apply cutAt_sound.
Qed.

(** MjmlTemplate.replace: only the first occurrence of the placeholder is
    replaced, and a value without a dollar sign is inserted as it is; the
    text after the first occurrence is kept, further occurrences
    included. *)
Theorem replace_first_occurrence (selector value pre post : string) :
  ~ occursIn (placeholder selector) (pre ++ "{{" ++ selector ++ "}") ->
  hasChar "$" value = false ->
  replace selector value (pre ++ placeholder selector ++ post) = pre ++ value ++ post.
Proof.
  intros Hfirst Hplain. unfold replace, stringReplace.
  change ("{{" ++ selector ++ "}}") with (placeholder selector).
  rewrite (cutAt_placeholder selector pre post Hfirst).
  now rewrite getSubstitution_plain.
Qed.

(** MjmlTemplate.replace: a dollar sign in the value is a pattern of
    String.prototype.replace, not text.  Two dollar signs insert one, a
    dollar sign with an ampersand inserts the placeholder again, with a
    backquote the template before the placeholder, with a quote the
    template after it; before any other code unit the dollar sign is
    kept. *)
Theorem replace_dollar_patterns (selector a b pre post : string) :
  ~ occursIn (placeholder selector) (pre ++ "{{" ++ selector ++ "}") ->
  hasChar "$" a = false ->
  hasChar "$" b = false ->
  replace selector (a ++ "$$" ++ b) (pre ++ placeholder selector ++ post)
  = pre ++ (a ++ "$" ++ b) ++ post /\
  replace selector (a ++ "$&" ++ b) (pre ++ placeholder selector ++ post)
  = pre ++ (a ++ placeholder selector ++ b) ++ post /\
  replace selector (a ++ "$`" ++ b) (pre ++ placeholder selector ++ post)
  = pre ++ (a ++ pre ++ b) ++ post /\
  replace selector (a ++ "$'" ++ b) (pre ++ placeholder selector ++ post)
  = pre ++ (a ++ post ++ b) ++ post /\
  forall c : ascii,
    c <> "$"%char -> c <> "&"%char -> c <> "`"%char -> c <> "'"%char ->
    replace selector (a ++ String "$" (String c b)) (pre ++ placeholder selector ++ post)
    = pre ++ (a ++ String "$" (String c b)) ++ post.
Proof.
  intros Hfirst Ha Hb. unfold replace, stringReplace.
  change ("{{" ++ selector ++ "}}") with (placeholder selector).
  rewrite (cutAt_placeholder selector pre post Hfirst).
  repeat split.
  - rewrite getSubstitution_app by exact Ha. simpl.
    rewrite getSubstitution_plain by exact Hb. reflexivity.
  - rewrite getSubstitution_app by exact Ha. simpl.
    rewrite getSubstitution_plain by exact Hb. reflexivity.
  - rewrite getSubstitution_app by exact Ha. simpl.
    rewrite getSubstitution_plain by exact Hb. reflexivity.
  - rewrite getSubstitution_app by exact Ha. simpl.
    rewrite getSubstitution_plain by exact Hb. reflexivity.
  - intros c H1 H2 H3 H4. rewrite getSubstitution_app by exact Ha.
    cbn [getSubstitution]. rewrite Ascii.eqb_refl.
    apply Ascii.eqb_neq in H1, H2, H3, H4. rewrite H1, H2, H3, H4.
    destruct b as [|d b].
    + reflexivity.
    + simpl in Hb. apply orb_false_iff in Hb as [Hd Hb].
      destruct (Ascii.eqb c "$") eqn:Ec; [congruence|].
      rewrite getSubstitution_plain; [reflexivity|].
      simpl. now rewrite Hd, Hb.
Qed.

End Replace.

(** *** splitSelector and getValue *)

Section Selectors.

Import MjmlTemplate.
Local Open Scope string_scope.

Lemma splitOn_nonempty (sep : ascii) (s : string) : splitOn sep s <> [].
Proof.
  destruct s as [|c s]; simpl; [discriminate|].
  destruct (Ascii.eqb c sep); [discriminate|].
  destruct (splitOn sep s); discriminate.
Qed.

Lemma concat_cons (sep k : string) (ks : list string) :
  ks <> [] -> String.concat sep (k :: ks) = k ++ sep ++ String.concat sep ks.
Proof. destruct ks; [contradiction | reflexivity]. Qed.

Lemma concat_splitOn (sep : ascii) (s : string) :
  String.concat (String sep "") (splitOn sep s) = s.
Proof.
  induction s as [|c s IH]; [reflexivity|].
  cbn [splitOn]. destruct (Ascii.eqb_spec c sep) as [->|Hc].
  - rewrite concat_cons by apply splitOn_nonempty. simpl. now rewrite IH.
  - pose proof (splitOn_nonempty sep s) as Hne.
    destruct (splitOn sep s) as [|k ks]; [contradiction|].
    destruct ks as [|k' ks].
    + simpl in *. now rewrite IH.
    + rewrite concat_cons by discriminate. rewrite concat_cons in IH by discriminate.
      simpl in IH |- *. now rewrite IH.
Qed.

Lemma splitOn_parts (sep : ascii) (s : string) :
  Forall (fun k => hasChar sep k = false) (splitOn sep s).
Proof.
  induction s as [|c s IH]; [repeat constructor|].
  cbn [splitOn]. destruct (Ascii.eqb c sep) eqn:Hc.
  - constructor; [reflexivity | exact IH].
  - destruct (splitOn sep s) as [|k ks].
    + repeat constructor. simpl. now rewrite Hc.
    + inversion IH; subst. constructor; [|assumption]. simpl. now rewrite Hc.
Qed.

Lemma splitOn_app (sep : ascii) (a b : string) :
  splitOn sep (a ++ String sep b) = (splitOn sep a ++ splitOn sep b)%list.
Proof.
  induction a as [|c a IH].
  - simpl. now rewrite Ascii.eqb_refl.
  - cbn [append splitOn]. rewrite IH. destruct (Ascii.eqb c sep); [reflexivity|].
    pose proof (splitOn_nonempty sep a) as Hne.
    destruct (splitOn sep a); [contradiction | reflexivity].
Qed.

Lemma splitOn_plain (sep : ascii) (k : string) :
  hasChar sep k = false -> splitOn sep k = [k].
Proof.
  induction k as [|c k IH]; [reflexivity|].
  simpl. intros H. apply orb_false_iff in H as [Hc H]. rewrite Hc, IH; auto.
Qed.

(** MjmlTemplate.splitSelector: the keys of a selector, joined by dots,
    give the selector back; there is at least one key, and no key holds
    a dot. *)
Theorem split_selector_joins_back (selector : string) :
  String.concat "." (splitSelector selector) = selector /\
  splitSelector selector <> [] /\
  Forall (fun key => hasChar "." key = false) (splitSelector selector).
Proof.
  unfold splitSelector. split; [apply concat_splitOn|].
  split; [apply splitOn_nonempty | apply splitOn_parts].
Qed.

(** MjmlTemplate.splitSelector: a selector written as keys without dots,
    joined by dots, is split into exactly these keys, empty keys
    included. *)
Theorem split_selector_of_joined_keys (keys : list string) :
  keys <> [] ->
  Forall (fun key => hasChar "." key = false) keys ->
  splitSelector (String.concat "." keys) = keys.
Proof.
  unfold splitSelector. induction keys as [|k ks IH]; [contradiction|].
  intros _ H. inversion H as [|? ? Hk Hks]; subst.
  destruct ks as [|k' ks].
  - simpl. now apply splitOn_plain.
  - rewrite concat_cons by discriminate.
    change (k ++ "." ++ String.concat "." (k' :: ks)) with (k ++ String "." (String.concat "." (k' :: ks))).
    rewrite splitOn_app, (splitOn_plain _ k Hk), IH; [reflexivity | discriminate | assumption].
Qed.

Section JsValues.

Variable JsValue : Type.
Variable getProp : JsValue -> string -> option JsValue.

Lemma getValue_app (keys1 keys2 : list string) (context : JsValue) :
  getValue JsValue getProp (keys1 ++ keys2)%list context
  = match getValue JsValue getProp keys1 context with
    | Some value => getValue JsValue getProp keys2 value
    | None => None
    end.
Proof.
  revert context. induction keys1 as [|k ks IH]; intros context; [reflexivity|].
  simpl. destruct (getProp context k); [apply IH | reflexivity].
Qed.

(** MjmlTemplate.splitSelector and getValue: a dot in a selector reads a
    nested property.  The selector [a.b] yields what the selector [b]
    yields in the value of the selector [a], and it throws when either
    read throws. *)
Theorem dotted_selector_reads_nested (a b : string) (context : JsValue) :
  getValue JsValue getProp (splitSelector (a ++ "." ++ b)) context
  = match getValue JsValue getProp (splitSelector a) context with
    | Some value => getValue JsValue getProp (splitSelector b) value
    | None => None
    end.
Proof.
  unfold splitSelector.
  change (a ++ "." ++ b) with (a ++ String "." b).
  rewrite splitOn_app. apply getValue_app.
Qed.

End JsValues.

End Selectors.

(** *** getContextSelectors *)

Section Scan.

Import MjmlTemplate.
Local Open Scope string_scope.

Lemma span_sound (p : ascii -> bool) (s a b : string) :
  span p s = (a, b) ->
  s = a ++ b /\ (forall c b', b = String c b' -> p c = false).
Proof.
  revert a. induction s as [|c s IH]; intros a H; simpl in H.
  - inversion H; subst. split; [reflexivity | discriminate].
  - destruct (p c) eqn:Hc.
    + destruct (span p s) as [a' b''] eqn:E. inversion H; subst.
      destruct (IH a' eq_refl) as [-> Hb]. split; [reflexivity | exact Hb].
    + inversion H; subst. split; [reflexivity|]. intros c' b' [= <- <-]. exact Hc.
Qed.

Lemma span_isSelector (s a b : string) :
  span isSelectorChar s = (a, b) -> isSelector a = true.
Proof.
  revert a. induction s as [|c s IH]; intros a H; simpl in H.
  - now inversion H.
  - destruct (isSelectorChar c) eqn:Hc.
    + destruct (span isSelectorChar s) as [a' b''] eqn:E. inversion H; subst.
      simpl. rewrite Hc. now apply IH.
    + now inversion H.
Qed.

Lemma span_selector (selector rest : string) :
  isSelector selector = true ->
  span isSelectorChar (selector ++ String "}" rest) = (selector, String "}" rest).
Proof.
  induction selector as [|c s IH]; intros H; [reflexivity|].
  simpl in H. apply andb_true_iff in H as [Hc H].
  cbn [append span]. rewrite Hc, IH; auto.
Qed.

Lemma matchContextAt_sound (s selector rest : string) :
  matchContextAt s = Some (selector, rest) ->
  s = placeholder selector ++ rest /\ isSelector selector = true.
Proof.
  unfold matchContextAt. intros H.
  destruct (dropPrefix "{{" s) as [s1|] eqn:E1; [|discriminate].
  destruct (span isSelectorChar s1) as [sel s2] eqn:E2.
  destruct (dropPrefix "}}" s2) as [s3|] eqn:E3; [|discriminate].
  inversion H; subst.
  apply dropPrefix_sound in E1, E3. subst.
  split; [|now apply span_isSelector in E2].
  apply span_sound in E2 as [-> _]. unfold placeholder.
  now rewrite !append_assoc.
Qed.

Lemma matchContextAt_placeholder (selector rest : string) :
  isSelector selector = true ->
  matchContextAt (placeholder selector ++ rest) = Some (selector, rest).
Proof.
  intros H. unfold matchContextAt, placeholder.
  rewrite !append_assoc, dropPrefix_app.
  change ("}}" ++ rest) with (String "}" (String "}" rest)).
  now rewrite span_selector.
Qed.

Lemma matchContextAt_text (c : ascii) (s : string) :
  Ascii.eqb c "{" = false -> matchContextAt (String c s) = None.
Proof.
  intros H. unfold matchContextAt. cbn [dropPrefix]. rewrite Ascii.eqb_sym, H. reflexivity.
Qed.

Lemma length_placeholder (selector : string) :
  String.length (placeholder selector) = (4 + String.length selector)%nat.
Proof. unfold placeholder. rewrite !length_append. simpl. lia. Qed.

(** The fuel of [getContextSelectors] is enough: more of it finds the
    same selectors. *)
Lemma matchAllContext_fuel (fuel1 : nat) :
  forall (s : string) (fuel2 : nat),
    (String.length s < fuel1)%nat -> (String.length s < fuel2)%nat ->
    matchAllContext fuel1 s = matchAllContext fuel2 s.
Proof.
  induction fuel1 as [|f1 IH]; intros s fuel2 H1 H2; [lia|].
  destruct fuel2 as [|f2]; [lia|]. simpl.
  destruct (matchContextAt s) as [[sel rest]|] eqn:E.
  - apply matchContextAt_sound in E as [-> _].
    rewrite length_append, length_placeholder in H1, H2.
    f_equal. apply IH; lia.
  - destruct s as [|c s]; [reflexivity|]. simpl in H1, H2. apply IH; lia.
Qed.

Lemma getContextSelectors_fuel (fuel : nat) (s : string) :
  (String.length s < fuel)%nat -> matchAllContext fuel s = getContextSelectors s.
Proof. intros H. apply matchAllContext_fuel; [exact H | lia]. Qed.

Lemma getContextSelectors_match (selector rest : string) :
  isSelector selector = true ->
  getContextSelectors (placeholder selector ++ rest)
  = selector :: getContextSelectors rest.
Proof.
  intros H. unfold getContextSelectors at 1. cbn [matchAllContext].
  rewrite (matchContextAt_placeholder selector rest H). f_equal.
  apply getContextSelectors_fuel. rewrite length_append, length_placeholder. lia.
Qed.

Lemma getContextSelectors_skip (c : ascii) (s : string) :
  matchContextAt (String c s) = None ->
  getContextSelectors (String c s) = getContextSelectors s.
Proof.
  intros H. unfold getContextSelectors at 1. cbn [matchAllContext]. rewrite H.
  apply getContextSelectors_fuel. simpl. lia.
Qed.

Lemma occursIn_later (pat a s : string) : occursIn pat s -> occursIn pat (a ++ s).
Proof. intros (x & y & ->). exists (a ++ x), y. now rewrite append_assoc. Qed.

Lemma matchAllContext_sound (fuel : nat) :
  forall (s selector : string),
    In selector (matchAllContext fuel s) ->
    isSelector selector = true /\ occursIn (placeholder selector) s.
Proof.
  induction fuel as [|f IH]; intros s selector H; [destruct H|].
  simpl in H. destruct (matchContextAt s) as [[sel rest]|] eqn:E.
  - apply matchContextAt_sound in E as [-> Hsel].
    destruct H as [<-|H].
    + split; [exact Hsel|]. now exists "", rest.
    + destruct (IH rest selector H) as [Hs Ho]. split; [exact Hs|].
      now apply occursIn_later.
  - destruct s as [|c s]; [destruct H|].
    destruct (IH s selector H) as [Hs Ho]. split; [exact Hs|].
    now apply (occursIn_later _ (String c "")).
Qed.

(** MjmlTemplate.getContextSelectors: every selector it returns is made
    of selector characters only, and its placeholder occurs in the
    template. *)
Theorem context_selectors_sound (template selector : string) :
  In selector (getContextSelectors template) ->
  isSelector selector = true /\ occursIn (placeholder selector) template.
Proof. apply matchAllContext_sound. Qed.

Lemma isSelectorChar_open : isSelectorChar "{" = false.
Proof. reflexivity. Qed.

Lemma isSelectorChar_close : isSelectorChar "}" = false.
Proof. reflexivity. Qed.

Lemma placeholder_app (selector rest : string) :
  placeholder selector ++ rest
  = String "{" (String "{" (selector ++ String "}" (String "}" rest))).
Proof. unfold placeholder. simpl. now rewrite append_assoc. Qed.

(** An opening brace after the start of a match lies after the match. *)
Lemma placeholder_no_overlap (sel' : string) :
  isSelector sel' = true ->
  forall (a y rest : string),
    a ++ String "{" y = sel' ++ String "}" (String "}" rest) ->
    exists a', rest = a' ++ String "{" y.
Proof.
  induction sel' as [|d sel' IH]; intros Hsel a y rest H.
  - simpl in H. destruct a as [|c1 a]; [discriminate|].
    simpl in H. injection H as -> H.
    destruct a as [|c2 a]; [discriminate|].
    simpl in H. injection H as -> H.
    now exists a.
  - simpl in Hsel. apply andb_true_iff in Hsel as [Hd Hsel].
    destruct a as [|c1 a].
    + simpl in H. injection H as <- _. now rewrite isSelectorChar_open in Hd.
    + simpl in H. injection H as -> H. now apply (IH Hsel a).
Qed.

Lemma getContextSelectors_complete_aux (n : nat) :
  forall (s a b selector : string),
    (String.length s <= n)%nat ->
    isSelector selector = true ->
    s = a ++ placeholder selector ++ b ->
    In selector (getContextSelectors s).
Proof.
  induction n as [|n IH]; intros s a b selector Hlen Hsel Hs.
  - exfalso. subst s. rewrite !length_append, length_placeholder in Hlen. lia.
  - destruct a as [|c a].
    + subst s. cbn [append]. rewrite getContextSelectors_match by exact Hsel. now left.
    + cbn [append] in Hs.
      destruct (matchContextAt s) as [[sel' rest]|] eqn:E.
      * apply matchContextAt_sound in E as [Hm Hsel'].
        assert (Hrest : (String.length rest <= n)%nat).
        { rewrite Hm, length_append, length_placeholder in Hlen. lia. }
        rewrite Hm. rewrite getContextSelectors_match by exact Hsel'. right.
        rewrite Hm, !placeholder_app in Hs. symmetry in Hs. injection Hs as Hc Hs.
        destruct a as [|c2 a].
        { exfalso. cbn [append] in Hs. injection Hs as Hs.
          destruct sel' as [|d sel']; simpl in Hs; [discriminate|].
          injection Hs as Hd _. simpl in Hsel'. rewrite <- Hd in Hsel'.
          now rewrite isSelectorChar_open in Hsel'. }
        cbn [append] in Hs. injection Hs as Hc2 Hs.
        destruct (placeholder_no_overlap sel' Hsel' a _ rest Hs) as [a' Ha'].
        apply (IH rest a' b selector Hrest Hsel).
        now rewrite placeholder_app.
      * subst s. rewrite getContextSelectors_skip by exact E.
        apply (IH _ a b selector); [cbn [String.length] in Hlen; lia | exact Hsel | reflexivity].
Qed.

(** MjmlTemplate.getContextSelectors: no placeholder is missed.  A
    selector made of selector characters whose placeholder occurs in the
    template is among the selectors returned. *)
Theorem context_selectors_complete (template selector : string) :
  isSelector selector = true ->
  occursIn (placeholder selector) template ->
  In selector (getContextSelectors template).
Proof.
  intros Hsel (a & b & H).
  now apply (getContextSelectors_complete_aux (String.length template) template a b).
Qed.

End Scan.

(** *** The context loop of resolve *)

Section Resolve.

Import MjmlTemplate.
Local Open Scope string_scope.

Variable JsValue : Type.
Variable getProp : JsValue -> string -> option JsValue.
Variable asString : JsValue -> option string.

Lemma getContextSelectors_text (text s : string) :
  hasChar "{" text = false ->
  getContextSelectors (text ++ s) = getContextSelectors s.
Proof.
  induction text as [|c text IH]; intros H; [reflexivity|].
  simpl in H. apply orb_false_iff in H as [Hc H].
  cbn [append]. rewrite getContextSelectors_skip by now apply matchContextAt_text.
  now apply IH.
Qed.

Lemma getContextSelectors_render (segments : list (string * string)) (last : string) :
  hasChar "{" last = false ->
  (forall text selector, In (text, selector) segments ->
     hasChar "{" text = false /\ isSelector selector = true) ->
  getContextSelectors (render segments last) = map snd segments.
Proof.
  intros Hlast. induction segments as [|[text selector] segments IH]; intros H.
  - simpl. rewrite <- (append_nil_r last).
    now rewrite getContextSelectors_text.
  - destruct (H text selector (or_introl eq_refl)) as [Ht Hs].
    cbn [render map snd].
    rewrite getContextSelectors_text by exact Ht.
    rewrite getContextSelectors_match by exact Hs.
    f_equal. apply IH. intros t s Hin. apply H. now right.
Qed.

Lemma replaceSelectors_render (context : JsValue) (value : string -> string)
  (last : string) (segments : list (string * string)) :
  (forall text selector, In (text, selector) segments ->
     hasChar "{" text = false /\
     hasChar "{" (value selector) = false /\ hasChar "$" (value selector) = false /\
     exists v, getValue JsValue getProp (splitSelector selector) context = Some v /\
               asString v = Some (value selector)) ->
  forall done : string,
    hasChar "{" done = false ->
    replaceSelectors JsValue getProp asString (map snd segments) context
      (done ++ render segments last)
    = Some (done ++ rendered value segments last).
Proof.
  induction segments as [|[text selector] segments IH]; intros H done Hdone.
  - reflexivity.
  - destruct (H text selector (or_introl eq_refl)) as (Ht & Hv1 & Hv2 & v & Hget & Hstr).
    cbn [map snd replaceSelectors render rendered].
    rewrite Hget, Hstr.
    assert (Hcut : replace selector (value selector)
                     (done ++ text ++ placeholder selector ++ render segments last)
                   = (done ++ text ++ value selector) ++ render segments last).
    { unfold replace, stringReplace.
      rewrite <- (append_assoc done text).
      change ("{{" ++ selector ++ "}}") with (String "{" ("{" ++ selector ++ "}}")).
      change (placeholder selector) with (String "{" ("{" ++ selector ++ "}}")).
      rewrite cutAt_after_text by (rewrite hasChar_app, Hdone, Ht; reflexivity).
      rewrite getSubstitution_plain by exact Hv2.
      now rewrite !append_assoc. }
    rewrite Hcut. rewrite IH.
    + now rewrite !append_assoc.
    + intros t s Hin. apply H. now right.
    + rewrite !hasChar_app, Hdone, Ht, Hv1. reflexivity.
Qed.

(** MjmlTemplate.resolve, lines 31-36: a template of brace-free texts and
    placeholders is resolved to the same texts with each placeholder
    replaced by the value its selector reads in the context, when these
    values are strings without a brace and without a dollar sign.  A
    selector that occurs several times is replaced each time. *)
Theorem resolve_context_renders (context : JsValue) (value : string -> string)
  (segments : list (string * string)) (last : string) :
  hasChar "{" last = false ->
  (forall text selector, In (text, selector) segments ->
     hasChar "{" text = false /\ isSelector selector = true /\
     hasChar "{" (value selector) = false /\ hasChar "$" (value selector) = false /\
     exists v, getValue JsValue getProp (splitSelector selector) context = Some v /\
               asString v = Some (value selector)) ->
  resolveContext JsValue getProp asString context (render segments last)
  = Some (rendered value segments last).
Proof.
  intros Hlast H. unfold resolveContext.
  rewrite getContextSelectors_render; [|exact Hlast|].
  - apply (replaceSelectors_render context value last segments) with (done := "").
    + intros t s Hin. destruct (H t s Hin) as (H1 & _ & H3 & H4 & H5). auto.
    + reflexivity.
  - intros t s Hin. destruct (H t s Hin) as (H1 & H2 & _). auto.
Qed.

End Resolve.

(** *** getI18nSelectors *)

Section I18n.

Import MjmlTemplate.
Local Open Scope string_scope.

Lemma cutAtLast_sound (pat s a b : string) :
  cutAtLast pat s = Some (a, b) -> s = a ++ pat ++ b.
Proof.
  revert a. induction s as [|c s IH]; intros a H.
  - simpl in H. destruct (dropPrefix pat "") eqn:E; [|discriminate].
    inversion H; subst. simpl. now apply dropPrefix_sound.
  - cbn [cutAtLast] in H. destruct (cutAtLast pat s) as [[pre post]|].
    + inversion H; subst. simpl. f_equal. now apply IH.
    + destruct (dropPrefix pat (String c s)) eqn:E; [|discriminate].
      inversion H; subst. simpl. now apply dropPrefix_sound.
Qed.

Lemma cutAtLast_none (pat s : string) : ~ occursIn pat s -> cutAtLast pat s = None.
Proof.
  intros Hno. destruct (cutAtLast pat s) as [[a b]|] eqn:E; [|reflexivity].
  exfalso. apply Hno. exists a, b. now apply cutAtLast_sound.
Qed.

(** The cut is at the last occurrence. *)
Lemma cutAtLast_last (p0 : ascii) (ptail x y : string) :
  ~ occursIn (String p0 ptail) (ptail ++ y) ->
  cutAtLast (String p0 ptail) (x ++ String p0 ptail ++ y) = Some (x, y).
Proof.
  intros Hno. induction x as [|c x IH].
  - cbn [append cutAtLast]. rewrite (cutAtLast_none _ _ Hno).
    change (String p0 (ptail ++ y)) with (String p0 ptail ++ y).
    now rewrite dropPrefix_app.
  - change (String c x ++ String p0 ptail ++ y)
      with (String c (x ++ String p0 ptail ++ y)).
    cbn [cutAtLast]. now rewrite IH.
Qed.

Lemma isLine_app (a b : string) : isLine (a ++ b) = isLine a && isLine b.
Proof. induction a; simpl; [reflexivity | rewrite IHa; now rewrite andb_assoc]. Qed.

Lemma span_isLine (s a b : string) : span isDot s = (a, b) -> isLine a = true.
Proof.
  revert a. induction s as [|c s IH]; intros a H; simpl in H.
  - now inversion H.
  - destruct (isDot c) eqn:Hc.
    + destruct (span isDot s) as [a' b''] eqn:E. inversion H; subst.
      simpl. rewrite Hc. now apply IH.
    + now inversion H.
Qed.

Lemma span_line (line rest : string) :
  isLine line = true -> atLineEnd rest = true ->
  span isDot (line ++ rest) = (line, rest).
Proof.
  induction line as [|c l IH]; intros H Hr.
  - simpl. destruct rest as [|d r]; [reflexivity|].
    simpl in Hr. simpl. unfold isDot. now rewrite Hr.
  - simpl in H. apply andb_true_iff in H as [Hc H].
    cbn [append span]. rewrite Hc, IH; auto.
Qed.

Lemma matchI18nAt_sound (s sel after : string) :
  matchI18nAt s = Some (sel, after) ->
  (exists c group, sel = "email" ++ String c group) /\
  isLine sel = true /\ s = placeholder sel ++ after.
Proof.
  unfold matchI18nAt. intros H.
  destruct (dropPrefix "{{email" s) as [[|c s1]|] eqn:E1; try discriminate.
  destruct (isDot c) eqn:Hc; [|discriminate].
  destruct (span isDot s1) as [line rest] eqn:E2.
  destruct (cutAtLast "}}" line) as [[group aft]|] eqn:E3; [|discriminate].
  inversion H; subst. clear H.
  apply dropPrefix_sound in E1. apply cutAtLast_sound in E3.
  pose proof (span_isLine _ _ _ E2) as Hline.
  apply span_sound in E2 as [-> _]. subst line.
  rewrite isLine_app in Hline. apply andb_true_iff in Hline as [Hg _].
  split; [now exists c, group|]. split.
  - simpl. unfold isDot in *. simpl. now rewrite Hc, Hg.
  - subst s. unfold placeholder. simpl. now rewrite !append_assoc.
Qed.

Lemma matchAllI18n_fuel (fuel1 : nat) :
  forall (s : string) (fuel2 : nat),
    (String.length s < fuel1)%nat -> (String.length s < fuel2)%nat ->
    matchAllI18n fuel1 s = matchAllI18n fuel2 s.
Proof.
  induction fuel1 as [|f1 IH]; intros s fuel2 H1 H2; [lia|].
  destruct fuel2 as [|f2]; [lia|]. simpl.
  destruct (matchI18nAt s) as [[sel rest]|] eqn:E.
  - apply matchI18nAt_sound in E as (_ & _ & ->).
    rewrite length_append, length_placeholder in H1, H2.
    f_equal. apply IH; lia.
  - destruct s as [|c s]; [reflexivity|]. simpl in H1, H2. apply IH; lia.
Qed.

Lemma matchAllI18n_sound (fuel : nat) :
  forall (s sel : string),
    In sel (matchAllI18n fuel s) ->
    (exists c group, sel = "email" ++ String c group) /\
    isLine sel = true /\ occursIn (placeholder sel) s.
Proof.
  induction fuel as [|f IH]; intros s sel H; [destruct H|].
  simpl in H. destruct (matchI18nAt s) as [[sel' rest]|] eqn:E.
  - apply matchI18nAt_sound in E as (Hshape & Hline & ->).
    destruct H as [<-|H].
    + split; [exact Hshape|]. split; [exact Hline|]. now exists "", rest.
    + destruct (IH rest sel H) as (Hs & Hl & Ho). split; [exact Hs|].
      split; [exact Hl|]. now apply occursIn_later.
  - destruct s as [|c s]; [destruct H|].
    destruct (IH s sel H) as (Hs & Hl & Ho). split; [exact Hs|].
    split; [exact Hl|]. now apply (occursIn_later _ (String c "")).
Qed.

(** MjmlTemplate.getI18nSelectors: every selector it returns starts with
    [email] and one more code unit, holds no line terminator, and its
    placeholder occurs in the template. *)
Theorem i18n_selectors_sound (template selector : string) :
  In selector (getI18nSelectors template) ->
  (exists c group, selector = "email" ++ String c group) /\
  isLine selector = true /\ occursIn (placeholder selector) template.
Proof. apply matchAllI18n_sound. Qed.

(** MjmlTemplate.getI18nSelectors: the selector is greedy.  It runs from
    the first placeholder of a line to the last pair of closing braces
    of that line, whatever lies between them, further placeholders
    included; the search goes on after that pair. *)
Theorem i18n_selector_is_greedy (c : ascii) (group after rest : string) :
  isDot c = true -> isLine group = true -> isLine after = true ->
  ~ occursIn "}}" ("}" ++ after) ->
  atLineEnd rest = true ->
  getI18nSelectors ("{{email" ++ String c group ++ "}}" ++ after ++ rest)
  = ("email" ++ String c group) :: getI18nSelectors (after ++ rest).
Proof.
  intros Hc Hg Ha Hlast Hrest.
  unfold getI18nSelectors at 1. cbn [matchAllI18n].
  assert (Hm : matchI18nAt ("{{email" ++ String c group ++ "}}" ++ after ++ rest)
               = Some ("email" ++ String c group, after ++ rest)).
  { assert (E : group ++ "}}" ++ after ++ rest = (group ++ "}}" ++ after) ++ rest)
      by now rewrite !append_assoc.
    unfold matchI18nAt. rewrite dropPrefix_app.
    change (String c group ++ "}}" ++ after ++ rest)
      with (String c (group ++ "}}" ++ after ++ rest)).
    cbv beta iota. rewrite Hc, E, span_line; [| |exact Hrest].
    - now rewrite (cutAtLast_last "}" "}" group after Hlast).
    - rewrite !isLine_app, Hg, Ha. reflexivity. }
  rewrite Hm. f_equal.
  unfold getI18nSelectors.
  apply matchAllI18n_fuel; [|lia].
  assert (L : forall u v, String.length (u ++ v) = (String.length u + String.length v)%nat)
    by apply length_append.
  rewrite (L "{{email"), (L (String c group)), (L "}}"). simpl. lia.
Qed.

End I18n.

(** *** Replacement of the matches of a regular expression *)

Section RegexReplace.

Import MjmlTemplate.
Local Open Scope string_scope.

Variable regex : string -> option (string * string * string).
Variable repl : string.
Variable out : string -> string.

Hypothesis regex_sound :
  forall s m g a, regex s = Some (m, g, a) -> s = m ++ a /\ (0 < String.length m)%nat.
Hypothesis regex_brace : forall c s, Ascii.eqb c "{" = false -> regex (String c s) = None.
Hypothesis subst_out :
  forall m pre post g, getSubstitutionGroup m pre post g repl = out g.

Lemma replaceMatches_S (fuel : nat) (before s : string) :
  replaceMatches (S fuel) regex repl before s
  = match regex s with
    | Some (matched, group, after) =>
        getSubstitutionGroup matched before after group repl
        ++ replaceMatches fuel regex repl (before ++ matched) after
    | None =>
        match s with
        | EmptyString => EmptyString
        | String c s' => String c (replaceMatches fuel regex repl (before ++ String c "") s')
        end
    end.
Proof. reflexivity. Qed.

Lemma regex_empty : regex "" = None.
Proof.
  destruct (regex "") as [[[m g] a]|] eqn:E; [|reflexivity].
  apply regex_sound in E as [E L]. destruct m; [simpl in L; lia | discriminate].
Qed.

Lemma replaceMatches_empty (fuel : nat) (before : string) :
  replaceMatches fuel regex repl before "" = "".
Proof. destruct fuel; [reflexivity|]. now rewrite replaceMatches_S, regex_empty. Qed.

(** More fuel, or another text before, replaces the same matches. *)
Lemma replaceMatches_fuel (fuel1 : nat) :
  forall (s : string) (fuel2 : nat) (before1 before2 : string),
    (String.length s < fuel1)%nat -> (String.length s < fuel2)%nat ->
    replaceMatches fuel1 regex repl before1 s = replaceMatches fuel2 regex repl before2 s.
Proof.
  induction fuel1 as [|f1 IH]; intros s fuel2 b1 b2 H1 H2; [lia|].
  destruct fuel2 as [|f2]; [lia|]. simpl.
  destruct (regex s) as [[[m g] a]|] eqn:E.
  - rewrite !subst_out. f_equal.
    apply regex_sound in E as [-> L]. rewrite length_append in H1, H2.
    apply IH; lia.
  - destruct s as [|c s]; [reflexivity|]. simpl in H1, H2. f_equal. apply IH; lia.
Qed.

Lemma replaceMatches_match (fuel : nat) (before s m g a : string) :
  regex s = Some (m, g, a) -> (String.length s < fuel)%nat ->
  replaceMatches fuel regex repl before s
  = out g ++ replaceMatches (S (String.length a)) regex repl "" a.
Proof.
  intros E H. destruct fuel as [|f]; [lia|].
  rewrite (replaceMatches_S f before s), E, subst_out. f_equal.
  apply regex_sound in E as [-> L]. rewrite length_append in H.
  apply replaceMatches_fuel; lia.
Qed.

Lemma replaceMatches_skip (fuel : nat) (before : string) (c : ascii) (s : string) :
  regex (String c s) = None -> (String.length (String c s) < fuel)%nat ->
  replaceMatches fuel regex repl before (String c s)
  = String c (replaceMatches (S (String.length s)) regex repl "" s).
Proof.
  intros E H. destruct fuel as [|f]; [lia|].
  rewrite (replaceMatches_S f before (String c s)), E. f_equal.
  simpl in H. apply replaceMatches_fuel; lia.
Qed.

Lemma replaceMatches_text (text : string) :
  forall (fuel : nat) (before s : string),
    hasChar "{" text = false -> (String.length (text ++ s) < fuel)%nat ->
    replaceMatches fuel regex repl before (text ++ s)
    = text ++ replaceMatches (S (String.length s)) regex repl "" s.
Proof.
  induction text as [|c text IH]; intros fuel before s H L.
  - cbn [append] in L |- *. apply replaceMatches_fuel; [exact L | lia].
  - simpl in H. apply orb_false_iff in H as [Hc H].
    cbn [append]. rewrite replaceMatches_skip; [|now apply regex_brace | exact L].
    f_equal. apply IH; [exact H | lia].
Qed.

Lemma replaceMatches_text_kept (text s : string) :
  hasChar "{" text = false ->
  (forall fuel before, replaceMatches fuel regex repl before s = s) ->
  forall fuel before, replaceMatches fuel regex repl before (text ++ s) = text ++ s.
Proof.
  intros H Hs. induction text as [|c text IH]; intros fuel before; [apply Hs|].
  simpl in H. apply orb_false_iff in H as [Hc H].
  destruct fuel; [reflexivity|]. cbn [append].
  rewrite replaceMatches_S, (regex_brace c _ Hc). f_equal. now apply IH.
Qed.

Lemma replaceMatches_skip_kept (c : ascii) (s : string) :
  regex (String c s) = None ->
  (forall fuel before, replaceMatches fuel regex repl before s = s) ->
  forall fuel before, replaceMatches fuel regex repl before (String c s) = String c s.
Proof.
  intros E Hs fuel before. destruct fuel; [reflexivity|].
  rewrite replaceMatches_S, E. f_equal. apply Hs.
Qed.

Lemma replaceMatches_plain (s : string) :
  forall (fuel : nat) (before : string),
    hasChar "{" s = false -> replaceMatches fuel regex repl before s = s.
Proof.
  induction s as [|c s IH]; intros fuel before H.
  - destruct fuel; simpl; [reflexivity|]. now rewrite regex_empty.
  - simpl in H. apply orb_false_iff in H as [Hc H].
    destruct fuel; simpl; [reflexivity|]. rewrite regex_brace by exact Hc.
    f_equal. now apply IH.
Qed.

Hypothesis regex_line :
  forall line nl rest,
    isLine line = true -> isLineTerminator nl = true ->
    regex (line ++ String nl rest)
    = match regex line with
      | Some (m, g, a) => Some (m, g, a ++ String nl rest)
      | None => None
      end.
Hypothesis regex_group :
  forall s m g a, regex s = Some (m, g, a) -> exists h t, m = h ++ g ++ t.
Hypothesis out_line : forall g, isLine g = true -> isLine (out g) = true.

Lemma isLineTerminator_brace (nl : ascii) :
  isLineTerminator nl = true -> Ascii.eqb nl "{" = false.
Proof.
  unfold isLineTerminator. intros H. apply orb_true_iff in H as [H|H];
    apply Ascii.eqb_eq in H; subst; reflexivity.
Qed.

Lemma replaceMatches_lines (nl : ascii) (rest : string) (n : nat) :
  forall line : string,
    (String.length line <= n)%nat ->
    isLine line = true -> isLineTerminator nl = true ->
    replaceMatches (S (String.length (line ++ String nl rest))) regex repl ""
                   (line ++ String nl rest)
    = replaceMatches (S (String.length line)) regex repl "" line
      ++ String nl (replaceMatches (S (String.length rest)) regex repl "" rest).
Proof.
  induction n as [|n IH]; intros line Hn Hline Hnl.
  - destruct line; [|simpl in Hn; lia]. cbn [append].
    rewrite replaceMatches_skip;
      [| apply regex_brace; now apply isLineTerminator_brace | lia].
    now rewrite replaceMatches_empty.
  - destruct (regex line) as [[[m g] a]|] eqn:E.
    + pose proof (regex_line line nl rest Hline Hnl) as E'. rewrite E in E'.
      rewrite (replaceMatches_match _ _ _ _ _ _ E') by lia.
      rewrite (replaceMatches_match _ _ _ _ _ _ E) by lia.
      apply regex_sound in E as [-> L].
      rewrite isLine_app in Hline. apply andb_true_iff in Hline as [_ Ha].
      rewrite length_append in Hn.
      rewrite (IH a) by (auto; lia). now rewrite append_assoc.
    + destruct line as [|c line].
      * cbn [append].
        rewrite replaceMatches_skip;
          [| apply regex_brace; now apply isLineTerminator_brace | lia].
        now rewrite replaceMatches_empty.
      * pose proof (regex_line (String c line) nl rest Hline Hnl) as E'. rewrite E in E'.
        cbn [append] in E' |- *.
        rewrite replaceMatches_skip by (auto; simpl; lia).
        rewrite (replaceMatches_skip _ _ c line E) by lia.
        simpl in Hline. apply andb_true_iff in Hline as [_ Hline].
        simpl in Hn. rewrite (IH line) by (auto; lia). reflexivity.
Qed.

Lemma replaceMatches_isLine (fuel : nat) :
  forall (before s : string),
    isLine s = true -> isLine (replaceMatches fuel regex repl before s) = true.
Proof.
  induction fuel as [|f IH]; intros before s H; [exact H|].
  simpl. destruct (regex s) as [[[m g] a]|] eqn:E.
  - rewrite subst_out, isLine_app.
    destruct (regex_group _ _ _ _ E) as (h & t & Hm).
    apply regex_sound in E as [-> _]. subst m.
    rewrite !isLine_app in H. apply andb_true_iff in H as [H Ha].
    apply andb_true_iff in H as [_ H]. apply andb_true_iff in H as [Hg _].
    rewrite out_line by exact Hg. simpl. now apply IH.
  - destruct s as [|c s]; [reflexivity|]. simpl in H |- *.
    apply andb_true_iff in H as [Hc H]. rewrite Hc. simpl. now apply IH.
Qed.

End RegexReplace.

(** *** prepareI18nSelectors *)

Section Prepare.

Import MjmlTemplate.
Local Open Scope string_scope.

Lemma dropPrefix_line (head : string) (nl : ascii) (rest : string) :
  isLine head = true -> isLineTerminator nl = true ->
  forall line : string,
    dropPrefix head (line ++ String nl rest)
    = match dropPrefix head line with
      | Some x => Some (x ++ String nl rest)
      | None => None
      end.
Proof.
  intros Hh Hnl. induction head as [|h head IH]; intros line.
  - simpl. now destruct line.
  - simpl in Hh. apply andb_true_iff in Hh as [Hc Hh].
    destruct line as [|c line].
    + cbn [append dropPrefix]. destruct (Ascii.eqb_spec h nl) as [->|_]; [|reflexivity].
      unfold isDot in Hc. now rewrite Hnl in Hc.
    + cbn [append dropPrefix]. destruct (Ascii.eqb h c); [now apply IH | reflexivity].
Qed.

Lemma dropPrefix_isLine (head s x : string) :
  dropPrefix head s = Some x -> isLine s = true -> isLine x = true.
Proof.
  intros E H. apply dropPrefix_sound in E. subst s.
  rewrite isLine_app in H. now apply andb_true_iff in H as [_ H].
Qed.

Lemma dropPrefix_none_app (d : ascii) (x : string) (p : string) :
  hasChar d p = false ->
  forall k, dropPrefix p k = None -> dropPrefix p (k ++ String d x) = None.
Proof.
  induction p as [|a p IH]; intros Hp k H; [simpl in H; destruct k; discriminate|].
  simpl in Hp. apply orb_false_iff in Hp as [Ha Hp].
  destruct k as [|b k].
  - cbn [append dropPrefix]. now rewrite Ha.
  - cbn [append dropPrefix] in H |- *. destruct (Ascii.eqb a b); [now apply IH | reflexivity].
Qed.

Lemma span_app_line (line s : string) :
  isLine line = true ->
  span isDot (line ++ s) = (line ++ fst (span isDot s), snd (span isDot s)).
Proof.
  induction line as [|c line IH]; intros H.
  - simpl. now destruct (span isDot s).
  - simpl in H. apply andb_true_iff in H as [Hc H].
    cbn [append span]. rewrite Hc, (IH H). reflexivity.
Qed.

Lemma span_whole (line : string) : isLine line = true -> span isDot line = (line, "").
Proof.
  intros H. rewrite <- (append_nil_r line) at 1. now apply span_line.
Qed.

Lemma no_close_pair (x : string) :
  hasChar "}" x = false -> ~ occursIn "}}" ("}" ++ x).
Proof.
  intros H (a & b & E). destruct a as [|c a].
  - simpl in E. injection E as ->. simpl in H. discriminate.
  - simpl in E. injection E as _ ->. rewrite hasChar_app in H.
    apply orb_false_iff in H as [_ H]. simpl in H. discriminate.
Qed.

(** The greedy group ends at the last pair of closing braces of the
    line: here the only one after [key]. *)
Lemma greedy_group (key after : string) :
  isLine key = true -> hasChar "}" after = false ->
  exists a1 a2,
    span isDot (key ++ "}}" ++ after) = (key ++ "}}" ++ a1, a2) /\
    after = a1 ++ a2 /\
    cutAtLast "}}" (key ++ "}}" ++ a1) = Some (key, a1).
Proof.
  intros Hk Ha.
  destruct (span isDot after) as [a1 a2] eqn:E.
  exists a1, a2.
  pose proof (span_sound _ _ _ _ E) as [Hafter _].
  split; [|split; [exact Hafter|]].
  - replace (key ++ "}}" ++ after) with ((key ++ "}}") ++ after)
      by now rewrite append_assoc.
    rewrite span_app_line, E; [simpl; now rewrite append_assoc|].
    rewrite isLine_app, Hk. reflexivity.
  - apply (cutAtLast_last "}" "}" key a1). apply no_close_pair.
    subst after. rewrite hasChar_app in Ha. now apply orb_false_iff in Ha as [Ha _].
Qed.

Lemma getSubstitutionGroup_app (m p q g a r : string) :
  hasChar "$" a = false ->
  getSubstitutionGroup m p q g (a ++ r) = a ++ getSubstitutionGroup m p q g r.
Proof.
  induction a as [|c a IH]; intros H; [reflexivity|].
  simpl in H. apply orb_false_iff in H as [Hc H].
  cbn [append getSubstitutionGroup]. rewrite Hc. f_equal. now apply IH.
Qed.

(** *** The two regular expressions *)

Lemma i18nRegexCommon_inv (s m g a : string) :
  i18nRegexCommon s = Some (m, g, a) ->
  exists c, isDot c = true /\ isLine g = true /\
            m = "{{i18n:common" ++ String c g ++ "}}" /\ s = m ++ a.
Proof.
  unfold i18nRegexCommon. intros H.
  destruct (dropPrefix "{{i18n:common" s) as [[|c s1]|] eqn:E1; try discriminate.
  destruct (isDot c) eqn:Hc; [|discriminate].
  destruct (span isDot s1) as [line rest] eqn:E2.
  destruct (cutAtLast "}}" line) as [[group aft]|] eqn:E3; [|discriminate].
  inversion H; subst. clear H. exists c.
  apply dropPrefix_sound in E1. apply cutAtLast_sound in E3.
  pose proof (span_isLine _ _ _ E2) as Hline.
  apply span_sound in E2 as [-> _]. subst line.
  rewrite isLine_app in Hline. apply andb_true_iff in Hline as [Hg _].
  repeat split; auto. subst s. simpl. now rewrite !append_assoc.
Qed.

Lemma i18nRegex_inv (s m g a : string) :
  i18nRegex s = Some (m, g, a) ->
  isLine g = true /\ m = "{{i18n:" ++ g ++ "}}" /\ s = m ++ a.
Proof.
  unfold i18nRegex. intros H.
  destruct (dropPrefix "{{i18n:" s) as [s1|] eqn:E1; try discriminate.
  destruct (span isDot s1) as [line rest] eqn:E2.
  destruct (cutAtLast "}}" line) as [[group aft]|] eqn:E3; [|discriminate].
  inversion H; subst. clear H.
  apply dropPrefix_sound in E1. apply cutAtLast_sound in E3.
  pose proof (span_isLine _ _ _ E2) as Hline.
  apply span_sound in E2 as [-> _]. subst line.
  rewrite isLine_app in Hline. apply andb_true_iff in Hline as [Hg _].
  repeat split; auto. subst s. simpl. now rewrite !append_assoc.
Qed.

Lemma i18nRegexCommon_sound (s m g a : string) :
  i18nRegexCommon s = Some (m, g, a) -> s = m ++ a /\ (0 < String.length m)%nat.
Proof.
  intros H. apply i18nRegexCommon_inv in H as (c & _ & _ & -> & ->).
  split; [reflexivity | simpl; lia].
Qed.

Lemma i18nRegex_sound (s m g a : string) :
  i18nRegex s = Some (m, g, a) -> s = m ++ a /\ (0 < String.length m)%nat.
Proof.
  intros H. apply i18nRegex_inv in H as (_ & -> & ->).
  split; [reflexivity | simpl; lia].
Qed.

Lemma i18nRegexCommon_brace (c : ascii) (s : string) :
  Ascii.eqb c "{" = false -> i18nRegexCommon (String c s) = None.
Proof.
  intros H. unfold i18nRegexCommon. cbn [dropPrefix]. now rewrite Ascii.eqb_sym, H.
Qed.

Lemma i18nRegex_brace (c : ascii) (s : string) :
  Ascii.eqb c "{" = false -> i18nRegex (String c s) = None.
Proof.
  intros H. unfold i18nRegex. cbn [dropPrefix]. now rewrite Ascii.eqb_sym, H.
Qed.

Lemma i18nRegexCommon_group (s m g a : string) :
  i18nRegexCommon s = Some (m, g, a) -> exists h t, m = h ++ g ++ t.
Proof.
  intros H. apply i18nRegexCommon_inv in H as (c & _ & _ & -> & _).
  exists ("{{i18n:common" ++ String c ""), "}}". simpl. reflexivity.
Qed.

Lemma i18nRegexCommon_line (line : string) (nl : ascii) (rest : string) :
  isLine line = true -> isLineTerminator nl = true ->
  i18nRegexCommon (line ++ String nl rest)
  = match i18nRegexCommon line with
    | Some (m, g, a) => Some (m, g, a ++ String nl rest)
    | None => None
    end.
Proof.
  intros Hl Hnl. unfold i18nRegexCommon.
  rewrite (dropPrefix_line "{{i18n:common" nl rest eq_refl Hnl).
  destruct (dropPrefix "{{i18n:common" line) as [x|] eqn:E; [|reflexivity].
  pose proof (dropPrefix_isLine _ _ _ E Hl) as Hx.
  destruct x as [|c s1].
  - cbn [append]. unfold isDot. now rewrite Hnl.
  - cbn [append]. destruct (isDot c); [|reflexivity].
    simpl in Hx. apply andb_true_iff in Hx as [_ Hs1].
    rewrite (span_line s1 (String nl rest) Hs1 Hnl), (span_whole s1 Hs1).
    destruct (cutAtLast "}}" s1) as [[group aft]|]; [|reflexivity].
    now rewrite append_nil_r.
Qed.

Lemma i18nRegex_line (line : string) (nl : ascii) (rest : string) :
  isLine line = true -> isLineTerminator nl = true ->
  i18nRegex (line ++ String nl rest)
  = match i18nRegex line with
    | Some (m, g, a) => Some (m, g, a ++ String nl rest)
    | None => None
    end.
Proof.
  intros Hl Hnl. unfold i18nRegex.
  rewrite (dropPrefix_line "{{i18n:" nl rest eq_refl Hnl).
  destruct (dropPrefix "{{i18n:" line) as [s1|] eqn:E; [|reflexivity].
  pose proof (dropPrefix_isLine _ _ _ E Hl) as Hs1.
  rewrite (span_line s1 (String nl rest) Hs1 Hnl), (span_whole s1 Hs1).
  destruct (cutAtLast "}}" s1) as [[group aft]|]; [|reflexivity].
  now rewrite append_nil_r.
Qed.

Lemma subst_common (m pre post g : string) :
  getSubstitutionGroup m pre post g "{{email.$1}}" = "{{email." ++ g ++ "}}".
Proof. reflexivity. Qed.

Lemma subst_prefixed (prefix m pre post g : string) :
  hasChar "$" prefix = false ->
  getSubstitutionGroup m pre post g ("{{email." ++ prefix ++ ".$1}}")
  = "{{email." ++ prefix ++ "." ++ g ++ "}}".
Proof.
  intros H.
  change ("{{email." ++ prefix ++ ".$1}}") with ("{{email." ++ (prefix ++ ".$1}}")).
  rewrite getSubstitutionGroup_app by reflexivity.
  rewrite getSubstitutionGroup_app by exact H. reflexivity.
Qed.

Lemma i18nRegexCommon_key (c : ascii) (key after : string) :
  isDot c = true -> isLine key = true -> hasChar "}" after = false ->
  i18nRegexCommon ("{{i18n:common" ++ String c key ++ "}}" ++ after)
  = Some ("{{i18n:common" ++ String c key ++ "}}", key, after).
Proof.
  intros Hc Hk Ha. unfold i18nRegexCommon. rewrite dropPrefix_app.
  change (String c key ++ "}}" ++ after) with (String c (key ++ "}}" ++ after)).
  cbv beta iota. rewrite Hc.
  destruct (greedy_group key after Hk Ha) as (a1 & a2 & -> & -> & ->). reflexivity.
Qed.

Lemma i18nRegex_key (key after : string) :
  isLine key = true -> hasChar "}" after = false ->
  i18nRegex ("{{i18n:" ++ key ++ "}}" ++ after)
  = Some ("{{i18n:" ++ key ++ "}}", key, after).
Proof.
  intros Hk Ha. unfold i18nRegex. rewrite dropPrefix_app.
  destruct (greedy_group key after Hk Ha) as (a1 & a2 & -> & -> & ->). reflexivity.
Qed.

(** MjmlTemplate.prepareI18nSelectors works line by line: with a prefix
    that holds no dollar sign, the result for a line followed by a line
    terminator and more text is the result for the line, the terminator,
    and the result for the rest. *)
Theorem prepare_line_by_line (prefix line : string) (nl : ascii) (rest : string) :
  hasChar "$" prefix = false ->
  isLine line = true -> isLineTerminator nl = true ->
  prepareI18nSelectors prefix (line ++ String nl rest)
  = prepareI18nSelectors prefix line ++ String nl (prepareI18nSelectors prefix rest).
Proof.
  intros Hp Hl Hnl. unfold prepareI18nSelectors. cbv zeta.
  rewrite (replaceMatches_lines i18nRegexCommon "{{email.$1}}"
             (fun g => "{{email." ++ g ++ "}}")
             i18nRegexCommon_sound i18nRegexCommon_brace subst_common
             i18nRegexCommon_line nl rest (String.length line) line (le_n _) Hl Hnl).
  apply (replaceMatches_lines i18nRegex ("{{email." ++ prefix ++ ".$1}}")
           (fun g => "{{email." ++ prefix ++ "." ++ g ++ "}}")
           i18nRegex_sound i18nRegex_brace
           (fun m pre post g => subst_prefixed prefix m pre post g Hp)
           i18nRegex_line nl _ _ _ (le_n _)); [|exact Hnl].
  apply (replaceMatches_isLine i18nRegexCommon "{{email.$1}}"
           (fun g => "{{email." ++ g ++ "}}")
           i18nRegexCommon_sound subst_common i18nRegexCommon_group);
    [|exact Hl].
  intros g Hg. rewrite !isLine_app, Hg. reflexivity.
Qed.

Lemma dropPrefix_app_head (h p s : string) :
  dropPrefix (h ++ p) (h ++ s) = dropPrefix p s.
Proof. induction h as [|a h IH]; [reflexivity|]. simpl. now rewrite Ascii.eqb_refl. Qed.

Lemma i18nRegexCommon_other_key (key after : string) :
  dropPrefix "common" key = None ->
  i18nRegexCommon ("{{i18n:" ++ key ++ "}}" ++ after) = None.
Proof.
  intros H. unfold i18nRegexCommon.
  change "{{i18n:common" with ("{{i18n:" ++ "common").
  rewrite dropPrefix_app_head.
  change (key ++ "}}" ++ after) with (key ++ String "}" ("}" ++ after)).
  now rewrite (dropPrefix_none_app "}" _ "common" eq_refl key H).
Qed.

(** MjmlTemplate.prepareI18nSelectors rewrites a placeholder of the
    common keys to an [email] placeholder without the prefix.  The code
    unit after [common] may be any one that is not a line terminator,
    since the dot of the regular expression is not escaped. *)
Theorem prepare_common_key (prefix text : string) (c : ascii) (key after : string) :
  hasChar "{" text = false ->
  isDot c = true -> isLine key = true -> hasChar "{" key = false ->
  hasChar "{" after = false -> hasChar "}" after = false ->
  prepareI18nSelectors prefix (text ++ "{{i18n:common" ++ String c key ++ "}}" ++ after)
  = text ++ "{{email." ++ key ++ "}}" ++ after.
Proof.
  intros Ht Hc Hk Hkb Ha1 Ha2. unfold prepareI18nSelectors. cbv zeta.
  assert (H1 : replaceMatches
                 (S (String.length
                       (text ++ "{{i18n:common" ++ String c key ++ "}}" ++ after)))
                 i18nRegexCommon "{{email.$1}}" ""
                 (text ++ "{{i18n:common" ++ String c key ++ "}}" ++ after)
               = text ++ "{{email." ++ key ++ "}}" ++ after).
  { rewrite (replaceMatches_text i18nRegexCommon "{{email.$1}}"
               (fun g => "{{email." ++ g ++ "}}")
               i18nRegexCommon_sound i18nRegexCommon_brace subst_common)
      by (auto; lia).
    rewrite (replaceMatches_match i18nRegexCommon "{{email.$1}}"
               (fun g => "{{email." ++ g ++ "}}")
               i18nRegexCommon_sound subst_common _ _ _ _ _ _
               (i18nRegexCommon_key c key after Hc Hk Ha2)) by lia.
    rewrite (replaceMatches_plain i18nRegexCommon "{{email.$1}}"
               i18nRegexCommon_sound i18nRegexCommon_brace) by exact Ha1.
    now rewrite !append_assoc. }
  rewrite H1.
  apply (replaceMatches_text_kept i18nRegex _ i18nRegex_brace); [exact Ht|].
  change ("{{email." ++ key ++ "}}" ++ after)
    with (String "{" (String "{" ("email." ++ key ++ "}}" ++ after))).
  apply replaceMatches_skip_kept; [reflexivity|].
  apply replaceMatches_skip_kept; [reflexivity|].
  intros fuel before.
  apply (replaceMatches_plain i18nRegex _ i18nRegex_sound i18nRegex_brace).
  simpl. rewrite hasChar_app, Hkb. simpl. exact Ha1.
Qed.

(** MjmlTemplate.prepareI18nSelectors rewrites any other i18n
    placeholder to an [email] placeholder under the prefix, when the
    prefix holds no dollar sign. *)
Theorem prepare_prefixed_key (prefix text key after : string) :
  hasChar "$" prefix = false ->
  hasChar "{" text = false ->
  isLine key = true -> hasChar "{" key = false -> dropPrefix "common" key = None ->
  hasChar "{" after = false -> hasChar "}" after = false ->
  prepareI18nSelectors prefix (text ++ "{{i18n:" ++ key ++ "}}" ++ after)
  = text ++ "{{email." ++ prefix ++ "." ++ key ++ "}}" ++ after.
Proof.
  intros Hp Ht Hk Hkb Hkc Ha1 Ha2. unfold prepareI18nSelectors. cbv zeta.
  assert (H1 : forall fuel before,
             replaceMatches fuel i18nRegexCommon "{{email.$1}}" before
                            (text ++ "{{i18n:" ++ key ++ "}}" ++ after)
             = text ++ "{{i18n:" ++ key ++ "}}" ++ after).
  { apply (replaceMatches_text_kept i18nRegexCommon _ i18nRegexCommon_brace); [exact Ht|].
    pose proof (i18nRegexCommon_other_key key after Hkc) as Hnone.
    change ("{{i18n:" ++ key ++ "}}" ++ after)
      with (String "{" (String "{" ("i18n:" ++ key ++ "}}" ++ after))) in Hnone |- *.
    apply replaceMatches_skip_kept; [exact Hnone|].
    apply replaceMatches_skip_kept; [reflexivity|].
    intros fuel before.
    apply (replaceMatches_plain i18nRegexCommon _ i18nRegexCommon_sound
             i18nRegexCommon_brace).
    simpl. rewrite hasChar_app, Hkb. simpl. exact Ha1. }
  rewrite H1.
  rewrite (replaceMatches_text i18nRegex ("{{email." ++ prefix ++ ".$1}}")
             (fun g => "{{email." ++ prefix ++ "." ++ g ++ "}}")
             i18nRegex_sound i18nRegex_brace
             (fun m pre post g => subst_prefixed prefix m pre post g Hp))
    by (auto; lia).
  rewrite (replaceMatches_match i18nRegex ("{{email." ++ prefix ++ ".$1}}")
             (fun g => "{{email." ++ prefix ++ "." ++ g ++ "}}")
             i18nRegex_sound
             (fun m pre post g => subst_prefixed prefix m pre post g Hp)
             _ _ _ _ _ _ (i18nRegex_key key after Hk Ha2)) by lia.
  rewrite (replaceMatches_plain i18nRegex _ i18nRegex_sound i18nRegex_brace)
    by exact Ha1.
  now rewrite !append_assoc.
Qed.

End Prepare.

(** ** The further theorems at concrete inputs *)

Lemma other_tenants_untouched_witness :
  "U" <> tenant_id tenantT /\
  importedusers (snd (processTenant 2 noFaults tenantT twoTenantWorld)) "U"
  = importedusers twoTenantWorld "U" /\
  users (snd (processTenant 2 noFaults tenantT twoTenantWorld)) "U"
  = users twoTenantWorld "U".
Proof.
  split; [discriminate|].
  apply (other_tenants_untouched 2 noFaults tenantT twoTenantWorld "U"). discriminate.
Defined.

Lemma staging_kept_or_marked_witness :
  In (markError alice "User account is no longer pending")
     (importedusers (snd (processTenant 2 noFaults tenantT (world [alice] [activeAlice])))
                    (tenant_id tenantT)) /\
  keptOrMarked (importedusers (world [alice] [activeAlice]) (tenant_id tenantT))
               (markError alice "User account is no longer pending").
Proof.
  assert (H : In (markError alice "User account is no longer pending")
                 (importedusers
                    (snd (processTenant 2 noFaults tenantT (world [alice] [activeAlice])))
                    (tenant_id tenantT))) by (vm_compute; left; reflexivity).
  split; [exact H|].
  exact (staging_kept_or_marked 2 noFaults tenantT (world [alice] [activeAlice]) _ H).
Defined.

Lemma error_records_untouched_witness :
  NoDup (map iu_id (importedusers (world [alice; failedBob] []) (tenant_id tenantT))) /\
  In failedBob (importedusers (world [alice; failedBob] []) (tenant_id tenantT)) /\
  iu_status failedBob = ERROR /\
  In failedBob
     (importedusers (snd (processTenant 2 lookupFaults tenantT (world [alice; failedBob] [])))
                    (tenant_id tenantT)).
Proof.
  assert (Hnd : NoDup (map iu_id (importedusers (world [alice; failedBob] [])
                                                (tenant_id tenantT)))).
  { simpl. constructor; [simpl; intuition discriminate|].
    constructor; [simpl; tauto | constructor]. }
  assert (Hin : In failedBob (importedusers (world [alice; failedBob] [])
                                            (tenant_id tenantT)))
    by (simpl; right; left; reflexivity).
  repeat split; [exact Hnd | exact Hin |].
  exact (error_records_untouched 2 lookupFaults tenantT (world [alice; failedBob] [])
           failedBob Hnd Hin eq_refl).
Defined.

Lemma canonical_store_frame_witness :
  wellFormedUsers (users (world [alice; bob] [pendingAlice]) (tenant_id tenantT)) /\
  wellFormedUsers
    (users (snd (processTenant 2 roleFaultsOnce tenantT (world [alice; bob] [pendingAlice])))
           (tenant_id tenantT)) /\
  extendsUsers
    (users (world [alice; bob] [pendingAlice]) (tenant_id tenantT))
    (users (snd (processTenant 2 roleFaultsOnce tenantT (world [alice; bob] [pendingAlice])))
           (tenant_id tenantT)).
Proof.
  assert (Hwf : wellFormedUsers (users (world [alice; bob] [pendingAlice])
                                       (tenant_id tenantT))).
  { split; simpl.
    - constructor; [simpl; tauto | constructor].
    - constructor; [discriminate | constructor]. }
  split; [exact Hwf|].
  exact (canonical_store_frame 2 roleFaultsOnce tenantT
           (world [alice; bob] [pendingAlice]) Hwf).
Defined.

Lemma unprotected_fault_aborts_witness :
  exists out w',
    processTenant 2 lookupAndRecordFaults tenantT (world [alice] []) = (out, w') /\
    nth_error (trace w') 5
    = Some (SaveImportedUser "T" (markError alice "lookup failed")) /\
    trace w' = firstn 6 (trace w')
               ++ [LogActionExceptionMessage "T" "staging write failed";
                   Release (importLock tenantT)] /\
    held (importLock tenantT) (locks w') = false /\
    out = Ok tt.
Proof.
  eexists. eexists. split; [vm_compute; reflexivity|].
  split; [reflexivity|].
  apply (unprotected_fault_aborts 2 lookupAndRecordFaults tenantT (world [alice] [])
           _ _ 5 (SaveImportedUser "T" (markError alice "lookup failed"))
           "staging write failed").
  - vm_compute; reflexivity.
  - simpl; lia.
  - reflexivity.
  - reflexivity.
  - reflexivity.
Defined.

Lemma report_is_exact_witness :
  NoDup (map iu_id (importedusers (world [alice; bob] [activeAlice]) (tenant_id tenantT))) /\
  0 < 2 /\
  In (LogActionsResponse (tenant_id tenantT) (mkActionsResponse 1 1))
     (skipn (length (trace (world [alice; bob] [activeAlice])))
            (trace (snd (processTenant 2 noFaults tenantT
                           (world [alice; bob] [activeAlice]))))) /\
  length (importedusers
            (snd (processTenant 2 noFaults tenantT (world [alice; bob] [activeAlice])))
            (tenant_id tenantT))
  + inSuccess (mkActionsResponse 1 1)
  = length (importedusers (world [alice; bob] [activeAlice]) (tenant_id tenantT)) /\
  inError (mkActionsResponse 1 1) + inSuccess (mkActionsResponse 1 1)
  = length (readyOf (importedusers (world [alice; bob] [activeAlice]) (tenant_id tenantT))) /\
  readyOf (importedusers
             (snd (processTenant 2 noFaults tenantT (world [alice; bob] [activeAlice])))
             (tenant_id tenantT)) = [].
Proof.
  assert (Hnd : NoDup (map iu_id (importedusers (world [alice; bob] [activeAlice])
                                                (tenant_id tenantT)))).
  { simpl. constructor; [simpl; intuition discriminate|].
    constructor; [simpl; tauto | constructor]. }
  assert (Hin : In (LogActionsResponse (tenant_id tenantT) (mkActionsResponse 1 1))
                   (skipn (length (trace (world [alice; bob] [activeAlice])))
                          (trace (snd (processTenant 2 noFaults tenantT
                                         (world [alice; bob] [activeAlice])))))).
  { vm_compute. intuition. }
  split; [exact Hnd|]. split; [lia|]. split; [exact Hin|].
  exact (report_is_exact 2 noFaults tenantT (world [alice; bob] [activeAlice])
           (mkActionsResponse 1 1) Hnd (Nat.lt_0_succ 1) Hin).
Defined.

Lemma emails_stay_unique_witness :
  wellFormedUsers (users (world [alice; bob; aliceAgain] []) (tenant_id tenantT)) /\
  NoDup (map u_email (users (world [alice; bob; aliceAgain] []) (tenant_id tenantT))) /\
  NoDup (map u_email
           (users (snd (processTenant 2 noFaults tenantT (world [alice; bob; aliceAgain] [])))
                  (tenant_id tenantT))).
Proof.
  assert (Hwf : wellFormedUsers (users (world [alice; bob; aliceAgain] [])
                                       (tenant_id tenantT)))
    by (split; simpl; constructor).
  assert (Hnd : NoDup (map u_email (users (world [alice; bob; aliceAgain] [])
                                          (tenant_id tenantT))))
    by (simpl; constructor).
  split; [exact Hwf|]. split; [exact Hnd|].
  exact (emails_stay_unique 2 noFaults tenantT (world [alice; bob; aliceAgain] []) Hwf Hnd).
Defined.

Lemma added_entities_come_from_staging_witness :
  wellFormedUsers (users (world [alice] []) (tenant_id tenantT)) /\
  In (createdUser 1 alice)
     (users (snd (processTenant 2 noFaults tenantT (world [alice] []))) (tenant_id tenantT)) /\
  ((exists u0, In u0 (users (world [alice] []) (tenant_id tenantT)) /\
               renamed u0 (createdUser 1 alice)) \/
   (exists x, In x (importedusers (world [alice] []) (tenant_id tenantT)) /\
              iu_status x = READY /\ importedFrom x (createdUser 1 alice))).
Proof.
  assert (Hwf : wellFormedUsers (users (world [alice] []) (tenant_id tenantT)))
    by (split; simpl; constructor).
  assert (Hin : In (createdUser 1 alice)
                   (users (snd (processTenant 2 noFaults tenantT (world [alice] [])))
                          (tenant_id tenantT)))
    by (vm_compute; left; reflexivity).
  split; [exact Hwf|]. split; [exact Hin|].
  exact (added_entities_come_from_staging 2 noFaults tenantT (world [alice] [])
           (createdUser 1 alice) Hwf Hin).
Defined.

Section MjmlExamples.

Import MjmlTemplate.
Local Open Scope string_scope.

Lemma split_selector_of_joined_keys_witness :
  ["user"; ""; "name"] <> [] /\
  Forall (fun key => hasChar "." key = false) ["user"; ""; "name"] /\
  splitSelector "user..name" = ["user"; ""; "name"].
Proof.
  split; [discriminate|].
  assert (H : Forall (fun key => hasChar "." key = false) ["user"; ""; "name"])
    by (repeat constructor).
  split; [exact H|].
  apply (split_selector_of_joined_keys ["user"; ""; "name"]); [discriminate | exact H].
Defined.

Lemma replace_without_placeholder_witness :
  ~ occursIn (placeholder "name") "Hello {{user}}" /\
  replace "name" "Bob" "Hello {{user}}" = "Hello {{user}}".
Proof.
  assert (H : ~ occursIn (placeholder "name") "Hello {{user}}").
  { intros H. apply cutAt_complete in H. apply H. reflexivity. }
  split; [exact H|].
  exact (replace_without_placeholder "name" "Bob" "Hello {{user}}" H).
Defined.

Lemma replace_first_occurrence_witness :
  ~ occursIn (placeholder "name") ("Hi " ++ "{{" ++ "name" ++ "}") /\
  hasChar "$" "Bob" = false /\
  replace "name" "Bob" "Hi {{name}} and {{name}}" = "Hi Bob and {{name}}".
Proof.
  assert (H : ~ occursIn (placeholder "name") ("Hi " ++ "{{" ++ "name" ++ "}")).
  { intros H. apply cutAt_complete in H. apply H. reflexivity. }
  split; [exact H|]. split; [reflexivity|].
  exact (replace_first_occurrence "name" "Bob" "Hi " " and {{name}}" H eq_refl).
Defined.

Lemma replace_dollar_patterns_witness :
  ~ occursIn (placeholder "price") ("Total: " ++ "{{" ++ "price" ++ "}") /\
  replace "price" "US$$5" "Total: {{price}} net" = "Total: US$5 net" /\
  replace "price" "US$&5" "Total: {{price}} net" = "Total: US{{price}}5 net" /\
  replace "price" "US$`5" "Total: {{price}} net" = "Total: USTotal: 5 net" /\
  replace "price" "US$'5" "Total: {{price}} net" = "Total: US net5 net" /\
  replace "price" "US$5.5" "Total: {{price}} net" = "Total: US$5.5 net".
Proof.
  assert (H : ~ occursIn (placeholder "price") ("Total: " ++ "{{" ++ "price" ++ "}")).
  { intros H. apply cutAt_complete in H. apply H. reflexivity. }
  split; [exact H|].
  destruct (replace_dollar_patterns "price" "US" "5" "Total: " " net" H eq_refl eq_refl)
    as (H1 & H2 & H3 & H4 & _).
  split; [exact H1|]. split; [exact H2|]. split; [exact H3|]. split; [exact H4|].
  destruct (replace_dollar_patterns "price" "US" ".5" "Total: " " net" H eq_refl eq_refl)
    as (_ & _ & _ & _ & H5).
  apply (H5 "5"%char); discriminate.
Defined.

Lemma context_selectors_sound_witness :
  In "user.name" (getContextSelectors "Hi {{user.name}}, see {{site}}") /\
  isSelector "user.name" = true /\
  occursIn (placeholder "user.name") "Hi {{user.name}}, see {{site}}".
Proof.
  assert (H : In "user.name" (getContextSelectors "Hi {{user.name}}, see {{site}}"))
    by (vm_compute; left; reflexivity).
  split; [exact H|].
  exact (context_selectors_sound "Hi {{user.name}}, see {{site}}" "user.name" H).
Defined.

Lemma context_selectors_complete_witness :
  isSelector "site" = true /\
  occursIn (placeholder "site") "Hi {{{user name}}, see {{site}}" /\
  In "site" (getContextSelectors "Hi {{{user name}}, see {{site}}").
Proof.
  assert (H : occursIn (placeholder "site") "Hi {{{user name}}, see {{site}}")
    by (exists "Hi {{{user name}}, see ", ""; reflexivity).
  split; [reflexivity|]. split; [exact H|].
  exact (context_selectors_complete "Hi {{{user name}}, see {{site}}" "site" eq_refl H).
Defined.

Lemma resolve_context_renders_witness :
  render welcomeSegments "!" = "Hello {{user.name}}, welcome to {{site}}. Bye {{user.name}}!" /\
  resolveContext Json jsonProp jsonString welcomeContext (render welcomeSegments "!")
  = Some "Hello Bob, welcome to Paris. Bye Bob!".
Proof.
  split; [reflexivity|].
  apply (resolve_context_renders Json jsonProp jsonString welcomeContext welcomeValue
           welcomeSegments "!"); [reflexivity|].
  intros text selector [H|[H|[H|[]]]]; injection H as <- <-;
    (repeat split; try reflexivity); eexists; split; reflexivity.
Defined.

Lemma i18n_selectors_sound_witness :
  In "email.title" (getI18nSelectors "<h1>{{email.title}}</h1>") /\
  (exists c group, "email.title" = "email" ++ String c group) /\
  isLine "email.title" = true /\
  occursIn (placeholder "email.title") "<h1>{{email.title}}</h1>".
Proof.
  assert (H : In "email.title" (getI18nSelectors "<h1>{{email.title}}</h1>"))
    by (vm_compute; left; reflexivity).
  split; [exact H|].
  exact (i18n_selectors_sound "<h1>{{email.title}}</h1>" "email.title" H).
Defined.

Lemma i18n_selector_is_greedy_witness :
  isDot "." = true /\ isLine "a}} and {{email.b" = true /\ isLine "!" = true /\
  ~ occursIn "}}" ("}" ++ "!") /\ atLineEnd "" = true /\
  getI18nSelectors "{{email.a}} and {{email.b}}!" = ["email.a}} and {{email.b"].
Proof.
  assert (H : ~ occursIn "}}" ("}" ++ "!")).
  { intros H. apply cutAt_complete in H. apply H. reflexivity. }
  split; [reflexivity|]. split; [reflexivity|]. split; [reflexivity|].
  split; [exact H|]. split; [reflexivity|].
  exact (i18n_selector_is_greedy "." "a}} and {{email.b" "!" "" eq_refl eq_refl eq_refl
           H eq_refl).
Defined.

Lemma prepare_line_by_line_witness :
  hasChar "$" "new-user" = false /\
  isLine "<p>{{i18n:common.hello}}</p>" = true /\
  isLineTerminator "010" = true /\
  prepareI18nSelectors "new-user"
    ("<p>{{i18n:common.hello}}</p>" ++ String "010" "<p>{{i18n:title}}</p>")
  = "<p>{{email.hello}}</p>" ++ String "010" "<p>{{email.new-user.title}}</p>".
Proof.
  split; [reflexivity|]. split; [reflexivity|]. split; [reflexivity|].
  exact (prepare_line_by_line "new-user" "<p>{{i18n:common.hello}}</p>" "010"
           "<p>{{i18n:title}}</p>" eq_refl eq_refl eq_refl).
Defined.

Lemma prepare_common_key_witness :
  hasChar "{" "<p>" = false /\ isDot "/" = true /\ isLine "hello" = true /\
  hasChar "{" "hello" = false /\ hasChar "{" "</p>" = false /\
  hasChar "}" "</p>" = false /\
  prepareI18nSelectors "new-user" "<p>{{i18n:common/hello}}</p>"
  = "<p>{{email.hello}}</p>".
Proof.
  repeat (split; [reflexivity|]).
  exact (prepare_common_key "new-user" "<p>" "/" "hello" "</p>"
           eq_refl eq_refl eq_refl eq_refl eq_refl eq_refl).
Defined.

Lemma prepare_prefixed_key_witness :
  hasChar "$" "new-user" = false /\ hasChar "{" "<p>" = false /\
  isLine "title" = true /\ hasChar "{" "title" = false /\
  dropPrefix "common" "title" = None /\
  hasChar "{" "</p>" = false /\ hasChar "}" "</p>" = false /\
  prepareI18nSelectors "new-user" "<p>{{i18n:title}}</p>"
  = "<p>{{email.new-user.title}}</p>".
Proof.
  repeat (split; [reflexivity|]).
  exact (prepare_prefixed_key "new-user" "<p>" "title" "</p>"
           eq_refl eq_refl eq_refl eq_refl eq_refl eq_refl eq_refl).
Defined.

End MjmlExamples.
